(** * Batch image conversion and optimisation: a model of [script.py]

    The development embeds the Python script as Rocq functions:

    - Python exceptions and mutable state (file system, standard output)
      are threaded through a small state-and-exception monad [M];
    - [pathlib] paths are lists of components ([PurePath.parts]);
    - the file system is a finite map from paths to nodes;
    - image codecs (Pillow, pillow-heif, Wand) are opaque: they are the
      fields of the class [Codec], and every theorem holds for all of its
      instances;
    - [int(h * (max_dimension / w))] is computed on binary64 floats;
      sizes in megabytes are exact rationals;
    - the worker pool is linearised: every call of a transform is atomic,
      the calls happen in the order chosen by a scheduler, and the
      scheduler is an arbitrary permutation of the task list. *)

From Stdlib Require Import ZArith QArith Lia Permutation Floats Uint63 Ascii String.
From Equations Require Import Equations.
From Equations.Prop Require Logic.
From stdpp Require Import gmap strings list pretty.

Local Open Scope Z_scope.

(** ** Python values used by the script *)

(** Subclasses of [Exception]; the script only ever catches [Exception]. *)
Inductive exn : Type :=
  | FileNotFoundError (msg : string)
  | FileExistsError (msg : string)
  | NotADirectoryError (msg : string)
  | IsADirectoryError (msg : string)
  | OSError (msg : string)
  | ValueError (msg : string)
  | OverflowError (msg : string)
  | ZeroDivisionError (msg : string).

(** [str(e)] *)
Definition str_exn (e : exn) : string :=
  match e with
  | FileNotFoundError m | FileExistsError m | NotADirectoryError m
  | IsADirectoryError m | OSError m | ValueError m | OverflowError m
  | ZeroDivisionError m => m
  end.

Inductive result (A : Type) : Type :=
  | Ok (a : A)
  | Raise (e : exn).
Arguments Ok {A} a.
Arguments Raise {A} e.

(** ** Paths ([pathlib], POSIX flavour) *)

Module Pathlib.

(** [PurePath.parts]: an absolute path starts with the component ["/"]. *)
Definition path : Type := list string.

Definition slash : ascii := "/"%char.
Definition dot : ascii := "."%char.

(** [s.split(c)] *)
Fixpoint split (c : ascii) (s : string) : list string :=
  match s with
  | EmptyString => [EmptyString]
  | String a s' =>
      if Ascii.eqb a c then EmptyString :: split c s'
      else match split c s' with
           | [] => [String a EmptyString]
           | x :: xs => String a x :: xs
           end
  end.

(** [sep.join(l)] *)
Fixpoint join (sep : string) (l : list string) : string :=
  match l with
  | [] => EmptyString
  | [x] => x
  | x :: xs => x +:+ sep +:+ join sep xs
  end.

Definition is_root (s : string) : bool :=
  match s with
  | String a _ => Ascii.eqb a slash
  | EmptyString => false
  end.

(** [Path(s)]: empty and ["."] components are dropped, a leading slash
    gives the root component (POSIX keeps a root of exactly two slashes
    apart; that case is not modelled). *)
Definition keep_part (s : string) : bool :=
  negb (String.eqb s "") && negb (String.eqb s ".").

Definition Path (s : string) : path :=
  let rest := List.filter keep_part (split slash s) in
  if is_root s then "/"%string :: rest else rest.

(** [str(p)] *)
Definition str (p : path) : string :=
  match p with
  | [] => "."
  | r :: rest => if is_root r then r +:+ join "/" rest else join "/" p
  end.

(** [p.name]: the last component, unless it is the root. *)
Definition name (p : path) : string :=
  let s := List.last p EmptyString in
  if is_root s then EmptyString else s.

(** [p.parent] *)
Definition parent (p : path) : path :=
  match p with
  | [r] => if is_root r then p else []
  | _ => removelast p
  end.

(** [s.rfind(c)], with [None] for [-1]. *)
Fixpoint rfind (c : ascii) (s : string) : option nat :=
  match s with
  | EmptyString => None
  | String a s' =>
      match rfind c s' with
      | Some i => Some (S i)
      | None => if Ascii.eqb a c then Some O else None
      end
  end.

(** [PurePath.suffix] on a file name:
    [i = name.rfind('.'); name[i:] if 0 < i < len(name) - 1 else ''] *)
Definition suffix_of (nm : string) : string :=
  match rfind dot nm with
  | Some i =>
      if (0 <? i)%nat && (S i <? String.length nm)%nat
      then String.substring i (String.length nm - i) nm
      else EmptyString
  | None => EmptyString
  end.

(** The name with its suffix replaced, as [with_suffix] builds it:
    [name + suffix] if there is no old suffix,
    [name[:-len(old_suffix)] + suffix] otherwise. *)
Definition replace_suffix (nm sfx : string) : string :=
  let old := suffix_of nm in
  String.substring 0 (String.length nm - String.length old) nm +:+ sfx.

(** [p.with_suffix(sfx)], for a suffix such as [".png"]; a path with an
    empty name raises [ValueError]. *)
Definition with_suffix (p : path) (sfx : string) : result path :=
  if String.eqb (name p) "" then
    Raise (ValueError (str p +:+ " has an empty name"))
  else Ok (removelast p ++ [replace_suffix (name p) sfx]).

(** [l] with the prefix [pre] removed, if [pre] is a prefix of [l]. *)
Fixpoint strip_prefix (pre l : path) : option path :=
  match pre, l with
  | [], _ => Some l
  | a :: pre', b :: l' => if String.eqb a b then strip_prefix pre' l' else None
  | _ :: _, [] => None
  end.

(** [p.relative_to(other)] *)
Definition relative_to (p other : path) : result path :=
  match strip_prefix other p with
  | Some rel => Ok rel
  | None =>
      Raise (ValueError (str p +:+ " is not in the subpath of " +:+ str other))
  end.

(** [a / b]: an absolute right operand replaces the left one. *)
Definition joinpath (a b : path) : path :=
  match b with
  | r :: _ => if is_root r then b else a ++ b
  | [] => a
  end.

(** [s.endswith(sfx)]: some tail of [s] is [sfx]. *)
Fixpoint endswith (s sfx : string) : bool :=
  if String.eqb s sfx then true
  else match s with
       | EmptyString => false
       | String _ s' => endswith s' sfx
       end.

(** [s.lower()] on ASCII letters. *)
Definition lower_ascii (a : ascii) : ascii :=
  let n := nat_of_ascii a in
  if (65 <=? n)%nat && (n <=? 90)%nat then ascii_of_nat (n + 32) else a.

Fixpoint lower (s : string) : string :=
  match s with
  | EmptyString => EmptyString
  | String a s' => String (lower_ascii a) (lower s')
  end.

End Pathlib.

Import Pathlib.

(** ** The world: file system, standard output, encoder trace *)

Inductive node : Type :=
  | Dir
  | File (data : list Byte.byte).

(** One call of [Image.save], as the encoder sees it. *)
Record save_event : Type := SaveEvent {
  ev_path : string;
  ev_format : string;
  ev_mode : string;
  ev_size : Z * Z;
  ev_quality : option Z
}.

(** [saves] is a trace of the encoder calls, most recent first; the program
    never reads it. *)
Record World : Type := mkWorld {
  fs : gmap path node;
  stdout : list string;
  saves : list save_event
}.

Definition set_fs (f : gmap path node) (w : World) : World :=
  mkWorld f (stdout w) (saves w).

(** State and exceptions. *)
Definition M (A : Type) : Type := World -> result A * World.

Definition ret {A} (a : A) : M A := fun w => (Ok a, w).

Definition raise {A} (e : exn) : M A := fun w => (Raise e, w).

Definition bind {A B} (m : M A) (k : A -> M B) : M B :=
  fun w => match m w with
           | (Ok a, w') => k a w'
           | (Raise e, w') => (Raise e, w')
           end.

Notation "x <- m ;; k" := (bind m (fun x => k))
  (at level 90, m at next level, right associativity).
Notation "m ;;; k" := (bind m (fun _ => k))
  (at level 90, right associativity).

(** [try: body except Exception as e: handler(e)] *)
Definition try_except {A} (body : M A) (handler : exn -> M A) : M A :=
  fun w => match body w with
           | (Ok a, w') => (Ok a, w')
           | (Raise e, w') => handler e w'
           end.

Definition lift {A} (r : result A) : M A := fun w => (r, w).

(** [print(s)] *)
Definition print (s : string) : M unit :=
  fun w => (Ok tt, mkWorld (fs w) (stdout w ++ [s]) (saves w)).

(** ** Operating-system calls *)

(** The node a path resolves to; the root and the current directory
    (the paths that are their own parent) always exist. *)
Definition node_at (f : gmap path node) (p : path) : option node :=
  if decide (parent p = p) then Some Dir else f !! p.

Definition is_dir (f : gmap path node) (p : path) : bool :=
  match node_at f p with
  | Some Dir => true
  | _ => false
  end.

(** The size the system reports for a directory entry. *)
Definition dir_size : Z := 4096.

(** [os.path.getsize(s)] *)
Definition getsize (s : string) : M Z :=
  fun w => match node_at (fs w) (Path s) with
           | Some (File d) => (Ok (Z.of_nat (length d)), w)
           | Some Dir => (Ok dir_size, w)
           | None => (Raise (FileNotFoundError s), w)
           end.

(** [open(s, 'rb').read()] *)
Definition read_file (s : string) : M (list Byte.byte) :=
  fun w => match node_at (fs w) (Path s) with
           | Some (File d) => (Ok d, w)
           | Some Dir => (Raise (IsADirectoryError s), w)
           | None => (Raise (FileNotFoundError s), w)
           end.

(** [open(s, 'wb').write(d)] *)
Definition write_file (s : string) (d : list Byte.byte) : M unit :=
  fun w =>
    let p := Path s in
    match node_at (fs w) p with
    | Some Dir => (Raise (IsADirectoryError s), w)
    | _ =>
        match node_at (fs w) (parent p) with
        | Some Dir => (Ok tt, set_fs (<[p := File d]> (fs w)) w)
        | Some (File _) => (Raise (NotADirectoryError s), w)
        | None => (Raise (FileNotFoundError s), w)
        end
    end.

(** [os.mkdir(p)], as far as the outcome depends on what the file system
    holds at [p] and above it: the entry is there already, the parent is a
    regular file, the parent is missing. The errors that the system raises
    for the name itself or for the user (a NUL byte, a name that is too
    long, a directory that may not be written) have no counterpart in this
    world. *)
Definition os_mkdir (p : path) : M unit :=
  fun w =>
    match node_at (fs w) p with
    | Some _ => (Raise (FileExistsError (str p)), w)
    | None =>
        match node_at (fs w) (parent p) with
        | Some Dir => (Ok tt, set_fs (<[p := Dir]> (fs w)) w)
        | Some (File _) => (Raise (NotADirectoryError (str p)), w)
        | None => (Raise (FileNotFoundError (str p)), w)
        end
    end.

(** [Path.mkdir(parents=False, exist_ok=True)]:
    [try: os.mkdir(self) except OSError: if not self.is_dir(): raise] *)
Definition mkdir_exist_ok (p : path) : M unit :=
  try_except (os_mkdir p)
    (fun e => fun w => if is_dir (fs w) p then (Ok tt, w) else (Raise e, w)).

(** [Path.mkdir(parents=True, exist_ok=True)]:
    [FileNotFoundError] sends the call to the parent first, any other
    [OSError] is accepted when the path is a directory. *)
Equations? mkdir_parents (p : path) (w : World) : result unit * World
  by wf (length p) lt :=
mkdir_parents p w with os_mkdir p w := {
  | (Ok _, w1) => (Ok tt, w1)
  | (Raise (FileNotFoundError m), w1) with decide (parent p = p) := {
      | left _ => (Raise (FileNotFoundError m), w1)
      | right Hne with mkdir_parents (parent p) w1 := {
          | (Ok _, w2) => mkdir_exist_ok p w2
          | (Raise e, w2) => (Raise e, w2) } }
  | (Raise e, w1) =>
      if is_dir (fs w1) p then (Ok tt, w1) else (Raise e, w1) }.
Proof.
  clear mkdir_parents.
  destruct p as [|a [|b q]]; simpl in Hne |- *.
  - congruence.
  - destruct (is_root a); [congruence | simpl; lia].
  - assert (Hlen : forall (l : path) x, length (removelast (x :: l)) = length l).
    { induction l as [|y l IH]; intros x; [reflexivity|].
      change (removelast (x :: y :: l)) with (x :: removelast (y :: l)).
      change (S (length (removelast (y :: l))) = S (length l)).
      now rewrite IH. }
    specialize (Hlen q b). simpl in Hlen |- *. lia.
Defined.

(** [Path(root).glob('**/*' + ext)]: every entry strictly below [root]
    whose name ends with [ext] (the match is case-sensitive). *)
Definition is_below (root p : path) : bool :=
  match strip_prefix root p with
  | Some (_ :: _) => true
  | _ => false
  end.

Definition glob_rec (root : path) (ext : string) : M (list path) :=
  fun w =>
    (Ok (List.filter (fun p => is_below root p && endswith (name p) ext)
           (map fst (map_to_list (fs w)))), w).


(** ** Numbers *)

(** [float(z)]; exact for [0 <= z < 2^53], which covers image dimensions. *)
Definition float_of_int (z : Z) : float := PrimFloat.of_uint63 (Uint63.of_Z z).

(** [a / b] on Python integers (true division). *)
Definition truediv (a b : Z) : result float :=
  if b =? 0 then Raise (ZeroDivisionError "division by zero")
  else Ok (PrimFloat.div (float_of_int a) (float_of_int b)).

(** [int(x)] on a float: truncation towards zero. *)
Definition int_of_float (x : float) : result Z :=
  match Prim2SF x with
  | S754_zero _ => Ok 0
  | S754_finite sign m e =>
      let v := if 0 <=? e then Z.pos m * 2 ^ e else Z.pos m / 2 ^ (- e) in
      Ok (if sign then - v else v)
  | S754_infinity _ => Raise (OverflowError "cannot convert float infinity to integer")
  | S754_nan => Raise (ValueError "cannot convert float NaN to integer")
  end.

(** [n / (1024 * 1024)] for a byte count [n]. Dividing by a power of two is
    exact in binary floating point, so the quotient is kept as a rational. *)
Definition megabytes (n : Z) : Q := n # (1024 * 1024).

(** ** Images and codecs *)

(** [PIL.Image.Image]: the mode string, the size [(width, height)] and the
    pixel data. *)
Record image (Pixels : Type) : Type := Image {
  img_mode : string;
  img_size : Z * Z;
  img_pixels : Pixels
}.
Arguments Image {Pixels} _ _ _.
Arguments img_mode {Pixels} _.
Arguments img_size {Pixels} _.
Arguments img_pixels {Pixels} _.

(** [wand.image.Image] *)
Record wand_image (Pixels : Type) : Type := WandImage {
  format : string;
  compression_quality : Z;
  alpha_channel : bool;
  wand_pixels : Pixels
}.
Arguments WandImage {Pixels} _ _ _ _.
Arguments format {Pixels} _.
Arguments compression_quality {Pixels} _.
Arguments alpha_channel {Pixels} _.
Arguments wand_pixels {Pixels} _.

(** The codec libraries. Decoders, encoders and the resampling may
    raise. *)
Class Codec (Pixels : Type) : Type := {
  (** Pillow, with the HEIF opener registered *)
  pil_decode : list Byte.byte -> result (image Pixels);
  pil_convert : string -> string -> Pixels -> Pixels;
  pil_resize : Z * Z -> Z * Z -> Pixels -> result Pixels;
  png_encode : image Pixels -> result (list Byte.byte);
  jpeg_encode : image Pixels -> Z -> result (list Byte.byte);
  (** Wand (ImageMagick) *)
  wand_decode : list Byte.byte -> result (wand_image Pixels);
  wand_remove_alpha : Pixels -> Pixels;
  wand_encode : wand_image Pixels -> result (list Byte.byte)
}.

Section Script.

Context {Pixels : Type} {codec : Codec Pixels}.

(** [Image.open(s)] *)
Definition Image_open (s : string) : M (image Pixels) :=
  d <- read_file s ;; lift (pil_decode d).

(** [img.convert(m)] *)
Definition Image_convert (img : image Pixels) (m : string) : image Pixels :=
  Image m (img_size img) (pil_convert (img_mode img) m (img_pixels img)).

(** [img.resize(sz, Image.Resampling.LANCZOS)]: Pillow refuses a size
    with a side below 1. *)
Definition Image_resize (img : image Pixels) (sz : Z * Z)
  : result (image Pixels) :=
  if (fst sz <? 1) || (snd sz <? 1)
  then Raise (ValueError "height and width must be > 0")
  else match pil_resize (img_size img) sz (img_pixels img) with
       | Ok px => Ok (Image (img_mode img) sz px)
       | Raise e => Raise e
       end.

Definition record_save (ev : save_event) : M unit :=
  fun w => (Ok tt, mkWorld (fs w) (stdout w) (ev :: saves w)).

(** [img.save(s, 'PNG', optimize=True)] *)
Definition Image_save_png (img : image Pixels) (s : string) : M unit :=
  record_save (SaveEvent s "PNG" (img_mode img) (img_size img) None) ;;;
  d <- lift (png_encode img) ;;
  write_file s d.

(** [img.save(s, 'JPEG', quality=q, optimize=True)] *)
Definition Image_save_jpeg (img : image Pixels) (s : string) (q : Z) : M unit :=
  record_save (SaveEvent s "JPEG" (img_mode img) (img_size img) (Some q)) ;;;
  d <- lift (jpeg_encode img q) ;;
  write_file s d.

(** [WandImage(filename=s)] *)
Definition Wand_open (s : string) : M (wand_image Pixels) :=
  d <- read_file s ;; lift (wand_decode d).

(** [img.save(filename=s)] *)
Definition Wand_save (img : wand_image Pixels) (s : string) : M unit :=
  d <- lift (wand_encode img) ;;
  write_file s d.

(** ** The transforms *)

(** The [try] block of [convert_heic_to_png] (lines 15-17). *)
Definition convert_heic_to_png_try (input_path output_path : string) : M bool :=
  img <- Image_open input_path ;;
  Image_save_png img output_path ;;;
  ret true.

Definition convert_heic_to_png (input_path output_path : string) : M bool :=
  try_except (convert_heic_to_png_try input_path output_path)
    (fun e =>
       print ("Erro ao converter " +:+ input_path +:+ ": " +:+ str_exn e) ;;;
       ret false).

(** The [try] block of [convert_cr2_to_png] (lines 24-30). *)
Definition convert_cr2_to_png_try (input_path output_path : string) : M bool :=
  img <- Wand_open input_path ;;
  let img := WandImage "png" (compression_quality img) (alpha_channel img)
               (wand_pixels img) in
  let img := WandImage (format img) 90 (alpha_channel img) (wand_pixels img) in
  let img :=
    if alpha_channel img
    then WandImage (format img) (compression_quality img) false
           (wand_remove_alpha (wand_pixels img))
    else img in
  Wand_save img output_path ;;;
  ret true.

Definition convert_cr2_to_png (input_path output_path : string) : M bool :=
  try_except (convert_cr2_to_png_try input_path output_path)
    (fun e =>
       print ("Erro ao converter " +:+ input_path +:+ ": " +:+ str_exn e) ;;;
       ret false).

(** The size computed before [img.resize] (lines 40-48): the new
    [(new_w, new_h)] when a side exceeds [max_dimension], [None] when the
    image is left as it is. *)
Definition max_dimension : Z := 4000.

Definition new_size (w h : Z) : M (option (Z * Z)) :=
  if (w >? max_dimension) || (h >? max_dimension) then
    if w >? h then
      r <- lift (truediv max_dimension w) ;;
      new_h <- lift (int_of_float (PrimFloat.mul (float_of_int h) r)) ;;
      ret (Some (max_dimension, new_h))
    else
      r <- lift (truediv max_dimension h) ;;
      new_w <- lift (int_of_float (PrimFloat.mul (float_of_int w) r)) ;;
      ret (Some (new_w, max_dimension))
  else ret None.

(** One turn of the [while True] loop (lines 53-57): [Some r] when the
    turn executes [return r], [None] when it falls through to
    [quality -= 5]. *)
Definition loop_body (img : image Pixels) (output_path : string)
    (max_size_mb : Q) (quality : Z) : M (option (bool * Q)) :=
  Image_save_jpeg img output_path quality ;;;
  n <- getsize output_path ;;
  let size_mb := megabytes n in
  if Qle_bool size_mb max_size_mb || (quality <? 30)
  then ret (Some (true, size_mb))
  else ret None.

Equations? save_loop (img : image Pixels) (output_path : string)
    (max_size_mb : Q) (quality : Z) (w : World) : result (bool * Q) * World
  by wf (Z.to_nat (quality - 24)) lt :=
save_loop img output_path max_size_mb quality w
  with Logic.inspect (loop_body img output_path max_size_mb quality w) := {
  | exist _ (Ok (Some r), w1) _ => (Ok r, w1)
  | exist _ (Ok None, w1) Hturn =>
      save_loop img output_path max_size_mb (quality - 5) w1
  | exist _ (Raise e, w1) _ => (Raise e, w1) }.
Proof.
  clear save_loop.
  assert (Hq : (quality <? 30) = false).
  { unfold loop_body, bind in Hturn.
    destruct (Image_save_jpeg _ _ _ _) as [[[]|?] ?]; [|discriminate].
    destruct (getsize _ _) as [[?|?] ?]; [|discriminate].
    destruct (quality <? 30); [|reflexivity].
    rewrite orb_true_r in Hturn. discriminate. }
  apply Z.ltb_ge in Hq. lia.
Defined.

(** The [try] block of [optimize_png] (lines 37-57). *)
Definition optimize_png_try (input_path output_path : string) (max_size_mb : Q)
  : M (bool * Q) :=
  img <- Image_open input_path ;;
  let img :=
    if bool_decide (img_mode img ∈ ["RGBA"; "P"]%string)
    then Image_convert img "RGB" else img in
  let '(w, h) := img_size img in
  sz <- new_size w h ;;
  img <- match sz with
         | Some (new_w, new_h) => lift (Image_resize img (new_w, new_h))
         | None => ret img
         end ;;
  save_loop img output_path max_size_mb 90.

Definition optimize_png (input_path output_path : string) (max_size_mb : Q)
  : M (bool * Q) :=
  try_except (optimize_png_try input_path output_path max_size_mb)
    (fun e =>
       print ("Erro ao otimizar " +:+ input_path +:+ ": " +:+ str_exn e) ;;;
       ret (false, 0%Q)).

(** ** Enumeration *)

(** The [for ext in exts: files.extend(...)] loop. *)
Fixpoint extend_globs (root : path) (exts : list string) (files : list path)
  : M (list path) :=
  match exts with
  | [] => ret files
  | ext :: exts' =>
      found <- glob_rec root ext ;;
      extend_globs root exts' (files ++ found)
  end.

Definition get_files_for_conversion (input_dir ctype : string) : M (list path) :=
  let exts :=
    if String.eqb ctype "HEIC"
    then [".heic"; ".HEIC"; ".heif"; ".HEIF"]%string
    else [".cr2"; ".CR2"]%string in
  extend_globs (Path input_dir) exts [].

(** ** The worker pool *)

Definition task : Type := string * string.

(** The order in which the pool runs and completes the submitted calls. *)
Variable schedule : list task -> list task.

(** [ThreadPoolExecutor(max_workers=n)] *)
Definition ThreadPoolExecutor (max_workers : Z) : M unit :=
  if max_workers <=? 0
  then raise (ValueError "max_workers must be greater than 0")
  else ret tt.

(** [ex.submit(call, i, o)] for every task: each call runs in the pool and
    its future keeps the value returned or the exception raised. *)
Fixpoint run_futures {A} (call : string -> string -> M A) (ts : list task)
  (w : World) : list (result A) * World :=
  match ts with
  | [] => ([], w)
  | (i, o) :: ts' =>
      let (r, w1) := call i o w in
      let (rs, w2) := run_futures call ts' w1 in
      (r :: rs, w2)
  end.

Definition submit_all {A} (call : string -> string -> M A) (tasks : list task)
  : M (list (result A)) :=
  fun w => let (rs, w') := run_futures call (schedule tasks) w in (Ok rs, w').

(** ** Conversion *)

(** The output path of one input file (lines 72-74 and 103-105):
    [rel = f.relative_to(input_dir)],
    [out = Path(output_dir) / rel.with_suffix(sfx)],
    [out.parent.mkdir(parents=True, exist_ok=True)]. *)
Definition mirrored_output (f : path) (input_dir output_dir sfx : string)
  : M path :=
  rel <- lift (relative_to f (Path input_dir)) ;;
  renamed <- lift (with_suffix rel sfx) ;;
  let out := joinpath (Path output_dir) renamed in
  mkdir_parents (parent out) ;;;
  ret out.

(** Lines 70-75. *)
Fixpoint conversion_tasks (files : list path) (input_dir output_dir : string)
  (tasks : list task) : M (list task) :=
  match files with
  | [] => ret tasks
  | f :: files' =>
      out <- mirrored_output f input_dir output_dir ".png" ;;
      conversion_tasks files' input_dir output_dir (tasks ++ [(str f, str out)])
  end.

(** Lines 82-89: [future.result()] returns the value of the call or raises
    its exception. *)
Fixpoint conversion_results (futures : list (result bool)) (success fail : Z)
  : M (Z * Z) :=
  match futures with
  | [] => ret (success, fail)
  | future :: futures' =>
      ok <- lift future ;;
      if ok : bool then conversion_results futures' (success + 1) fail
      else conversion_results futures' success (fail + 1)
  end.

(** Lines 78-89. *)
Definition conversion_pool (tasks : list task)
  (func : string -> string -> M bool) (max_workers : Z) : M (Z * Z) :=
  ThreadPoolExecutor max_workers ;;;
  futures <- submit_all func tasks ;;
  conversion_results futures 0 0.

(** The progress bar and the clock are left out; the counters that the
    function prints are also returned. *)
Definition process_conversion (files : list path) (input_dir output_dir : string)
  (func : string -> string -> M bool) (max_workers : Z) : M (Z * Z) :=
  tasks <- conversion_tasks files input_dir output_dir [] ;;
  counts <- conversion_pool tasks func max_workers ;;
  print (String "010" "Conversão concluída!") ;;;
  print ("Convertidas com sucesso: " +:+ pretty (fst counts)) ;;;
  print ("Falhas: " +:+ pretty (snd counts)) ;;;
  ret counts.

(** ** Optimisation *)

Record optimization_totals : Type := Totals {
  success : Z;
  fail : Z;
  total_original_size : Q;
  total_optimized_size : Q
}.

(** Lines 102-107. *)
Fixpoint optimization_tasks (png_files : list path) (input_dir output_dir : string)
  (tasks : list task) (total_original_size : Q) : M (list task * Q) :=
  match png_files with
  | [] => ret (tasks, total_original_size)
  | p :: png_files' =>
      out <- mirrored_output p input_dir output_dir ".jpg" ;;
      n <- getsize (str p) ;;
      optimization_tasks png_files' input_dir output_dir
        (tasks ++ [(str p, str out)])
        (total_original_size + megabytes n)%Q
  end.

(** Lines 115-122. *)
Fixpoint optimization_results (futures : list (result (bool * Q)))
  (success fail : Z) (total_optimized_size : Q) : M (Z * Z * Q) :=
  match futures with
  | [] => ret (success, fail, total_optimized_size)
  | future :: futures' =>
      r <- lift future ;;
      let '(ok, size_mb) := r in
      if ok : bool
      then optimization_results futures' (success + 1) fail
             (total_optimized_size + size_mb)%Q
      else optimization_results futures' success (fail + 1) total_optimized_size
  end.

(** Lines 110-122. *)
Definition optimization_pool (tasks : list task) (max_workers : Z)
  (max_size_mb : Q) : M (Z * Z * Q) :=
  ThreadPoolExecutor max_workers ;;;
  futures <-
    submit_all (fun i o => optimize_png i o max_size_mb) tasks ;;
  optimization_results futures 0 0 0%Q.

(** [None] is the early [return] of line 98. The progress bar, the clock
    and the formatted sizes are left out; the totals are returned. *)
Definition process_optimization (input_dir output_dir : string)
  (max_workers : Z) (max_size_mb : Q) : M (option optimization_totals) :=
  png_files <- glob_rec (Path input_dir) ".png" ;;
  match png_files with
  | [] =>
      print "Nenhum arquivo PNG encontrado para otimização." ;;;
      ret None
  | _ :: _ =>
      print (String "010" "Encontrados "
             +:+ pretty (Z.of_nat (length png_files))
             +:+ " arquivos PNG para otimização.") ;;;
      prepared <- optimization_tasks png_files input_dir output_dir [] 0%Q ;;
      let '(tasks, total_original_size) := prepared in
      counted <- optimization_pool tasks max_workers max_size_mb ;;
      let '(success, fail, total_optimized_size) := counted in
      print (String "010" "Otimização concluída!") ;;;
      print ("Convertidas com sucesso: " +:+ pretty success) ;;;
      print ("Falhas: " +:+ pretty fail) ;;;
      ret (Some (Totals success fail total_original_size total_optimized_size))
  end.

End Script.

(** ** Vocabulary of the statements *)

(** [open(s, 'wb')] succeeds: [s] is not a directory and its parent is. *)
Definition writable (w : World) (s : string) : bool :=
  negb (is_dir (fs w) (Path s)) && is_dir (fs w) (parent (Path s)).

(** The event recorded by one JPEG encode of [img] at quality [q]. *)
Definition jpeg_event {Pixels} (img : image Pixels) (s : string) (q : Z)
  : save_event :=
  SaveEvent s "JPEG" (img_mode img) (img_size img) (Some q).

(** The world after [img.save(s, 'JPEG', quality=q)] wrote the bytes [d]. *)
Definition after_save {Pixels} (img : image Pixels) (s : string) (q : Z)
  (d : list Byte.byte) (w : World) : World :=
  mkWorld (<[Path s := File d]> (fs w)) (stdout w) (jpeg_event img s q :: saves w).

(** [n] qualities from [q] downwards in steps of 5. *)
Fixpoint ladder (q : Z) (n : nat) : list Z :=
  match n with
  | O => []
  | S n' => q :: ladder (q - 5) n'
  end.

(** The number of encoder calls between two worlds. *)
Definition encode_attempts (w w' : World) : nat :=
  length (saves w') - length (saves w).

(** A world that differs from [w] only by new directories. *)
Definition extends_dirs (w w' : World) : Prop :=
  stdout w' = stdout w /\ saves w' = saves w
  /\ forall q, node_at (fs w') q = node_at (fs w) q
               \/ (node_at (fs w) q = None /\ node_at (fs w') q = Some Dir).

(** Paths as [Path(...)] builds them: no empty or ["."] component, no
    slash inside a component, the root only in front. *)
Fixpoint has_slash (s : string) : bool :=
  match s with
  | EmptyString => false
  | String a s' => Ascii.eqb a slash || has_slash s'
  end.

Definition part_ok (s : string) : bool := keep_part s && negb (has_slash s).

Definition normal (p : path) : bool :=
  match p with
  | [] => true
  | r :: rest => (String.eqb r "/" && forallb part_ok rest) || forallb part_ok p
  end.

(** The nodes of [f] are still there in [w]. *)
Definition keeps_nodes (f : gmap path node) (w : World) : Prop :=
  forall q nd, node_at f q = Some nd -> node_at (fs w) q = Some nd.

(** The size that [os.path.getsize] reports for the node at [p]. *)
Definition file_size (f : gmap path node) (p : path) : Z :=
  match node_at f p with
  | Some (File d) => Z.of_nat (length d)
  | Some Dir => dir_size
  | None => 0
  end.

(** The futures that returned [True] and those that returned [False]. *)
Definition succeeded (oks : list bool) : Z :=
  Z.of_nat (length (List.filter id oks)).

Definition failed (oks : list bool) : Z :=
  Z.of_nat (length (List.filter negb oks)).

(** A call that never raises. *)
Definition total {A} (call : string -> string -> M A) : Prop :=
  forall i o w, exists a w', call i o w = (Ok a, w').

(** The sum that the result loop of [process_optimization] accumulates. *)
Definition add_optimized (acc : Q) (r : bool * Q) : Q :=
  if fst r then (acc + snd r)%Q else acc.

Definition optimized_sum (rs : list (bool * Q)) : Q :=
  fold_left add_optimized rs 0%Q.

(** [round(n / d)] for [0 <= n] and [0 < d], ties to even, as Python's
    [round] computes it; this is the formula of the specification for the
    shorter side, not what the program computes. *)
Definition round_div (n d : Z) : Z :=
  let q := (2 * n + d) / (2 * d) in
  if ((2 * n + d) mod (2 * d) =? 0) && Z.odd q then q - 1 else q.

Definition spec_short_side (short long : Z) : Z := round_div (short * 4000) long.

(** Pillow's mode table: the modes with an alpha band and the modes with a
    palette. *)
Definition carries_alpha (m : string) : bool :=
  bool_decide (m ∈ ["LA"; "La"; "PA"; "RGBA"; "RGBa"]%string).

Definition palette_indexed (m : string) : bool :=
  bool_decide (m ∈ ["P"; "PA"]%string).

(** ** Vocabulary for the isolation of failures *)

(** The file at the path [s] holds the bytes [d]. *)
Definition holds (w : World) (s : string) (d : list Byte.byte) : Prop :=
  node_at (fs w) (Path s) = Some (File d).

(** The world after one line was printed. *)
Definition reported (w : World) (line : string) : World :=
  mkWorld (fs w) (stdout w ++ [line]) (saves w).

(** The result of the call on the task [t] when it runs alone in [w]. *)
Definition alone {A} (call : string -> string -> M A) (w : World) (t : task)
  : result A :=
  fst (call (fst t) (snd t) w).

(** The paths that a call on the task [t] reads or needs: its input, its
    output and the directory of the output. *)
Definition footprint (t : task) : list path :=
  [Path (fst t); Path (snd t); parent (Path (snd t))].

(** No task is there twice, and no task writes where another one reads or
    writes. *)
Definition independent (tasks : list task) : Prop :=
  List.NoDup tasks
  /\ forall t t', In t tasks -> In t' tasks -> t <> t' ->
       ~ In (Path (snd t')) (footprint t).

(** The worlds have the same nodes at the paths [ps]. *)
Definition same_nodes (ps : list path) (w1 w2 : World) : Prop :=
  forall p, In p ps -> node_at (fs w1) p = node_at (fs w2) p.

(** The computation looks at the file system at the paths [ps] only. *)
Definition local (ps : list path) {A} (m : M A) : Prop :=
  forall w1 w2, same_nodes ps w1 w2 ->
    fst (m w1) = fst (m w2) /\ same_nodes ps (snd (m w1)) (snd (m w2)).

(** The image that [convert_cr2_to_png] saves (lines 25-28). *)
Definition developed {Pixels} `{Codec Pixels} (img : wand_image Pixels)
  : wand_image Pixels :=
  if alpha_channel img
  then WandImage "png" 90 false (wand_remove_alpha (wand_pixels img))
  else WandImage "png" 90 (alpha_channel img) (wand_pixels img).

(** The image that [optimize_png] gives to the encoder (lines 38-49), if
    there is one. *)
Definition prepared {Pixels} `{Codec Pixels} (img : image Pixels)
    (r : option (Z * Z)) : result (image Pixels) :=
  let c := if bool_decide (img_mode img ∈ ["RGBA"; "P"]%string)
           then Image_convert img "RGB" else img in
  match r with
  | Some sz => Image_resize c sz
  | None => Ok c
  end.

(** A file that the decoder refuses. *)
Definition corrupt_image {Pixels} `{Codec Pixels} (w : World) (t : task)
  : Prop :=
  exists d e, holds w (fst t) d /\ pil_decode d = Raise e.

Definition corrupt_raw {Pixels} `{Codec Pixels} (w : World) (t : task)
  : Prop :=
  exists d e, holds w (fst t) d /\ wand_decode d = Raise e.

(** A file that is decoded and encoded, with an output that can be
    written. *)
Definition valid_heic {Pixels} `{Codec Pixels} (w : World) (t : task)
  : Prop :=
  exists d img d',
    holds w (fst t) d /\ pil_decode d = Ok img /\ png_encode img = Ok d'
    /\ writable w (snd t) = true.

Definition valid_cr2 {Pixels} `{Codec Pixels} (w : World) (t : task)
  : Prop :=
  exists d img d',
    holds w (fst t) d /\ wand_decode d = Ok img
    /\ wand_encode (developed img) = Ok d'
    /\ writable w (snd t) = true.

Definition valid_png {Pixels} `{Codec Pixels} (w : World) (t : task)
  : Prop :=
  exists d img0 r img enc,
    holds w (fst t) d /\ pil_decode d = Ok img0
    /\ new_size (fst (img_size img0)) (snd (img_size img0)) w = (Ok r, w)
    /\ prepared img0 r = Ok img
    /\ (forall q, jpeg_encode img q = Ok (enc q))
    /\ writable w (snd t) = true.

(** The output of the task [t] in [w'] is what the transform makes of the
    input that [t] had in [w]. *)
Definition converted_heic {Pixels} `{Codec Pixels} (w w' : World) (t : task)
  : Prop :=
  exists d img d',
    holds w (fst t) d /\ pil_decode d = Ok img /\ png_encode img = Ok d'
    /\ holds w' (snd t) d'.

Definition converted_cr2 {Pixels} `{Codec Pixels} (w w' : World) (t : task)
  : Prop :=
  exists d img d',
    holds w (fst t) d /\ wand_decode d = Ok img
    /\ wand_encode (developed img) = Ok d'
    /\ holds w' (snd t) d'.

Definition optimized_png {Pixels} `{Codec Pixels} (w w' : World) (t : task)
  : Prop :=
  exists d img0 r img q d',
    holds w (fst t) d /\ pil_decode d = Ok img0
    /\ new_size (fst (img_size img0)) (snd (img_size img0)) w = (Ok r, w)
    /\ prepared img0 r = Ok img
    /\ In q (ladder 90 14) /\ jpeg_encode img q = Ok d'
    /\ holds w' (snd t) d'.

(** ** A small codec for examples *)

Definition blob (n : Z) : list Byte.byte := repeat Byte.x00 (Z.to_nat n).

(** Files are decoded by their first byte; an empty file and a file that
    starts with [0xff] are corrupt. The
    JPEG encoder writes [scale * quality] bytes and, like Pillow's, refuses
    the modes it cannot write. *)
Definition toy_decode (d : list Byte.byte) : result (image unit) :=
  match d with
  | [] | Byte.xff :: _ => Raise (OSError "cannot identify image file")
  | Byte.x01 :: _ => Ok (Image "RGBA" (6000, 4000) tt)
  | Byte.x02 :: _ => Ok (Image "LA" (640, 480) tt)
  | Byte.x03 :: _ => Ok (Image "RGB" (5000, 1) tt)
  | _ => Ok (Image "RGB" (640, 480) tt)
  end.

Definition toy_jpeg (scale : Z) (img : image unit) (q : Z)
  : result (list Byte.byte) :=
  if bool_decide (img_mode img ∈ ["1"; "L"; "RGB"; "RGBX"; "CMYK"; "YCbCr"]%string)
  then Ok (blob (scale * q))
  else Raise (OSError ("cannot write mode " +:+ img_mode img +:+ " as JPEG")).

Definition toy_codec (scale : Z) : Codec unit := {|
  pil_decode := toy_decode;
  pil_convert := fun _ _ px => px;
  pil_resize := fun _ _ px => Ok px;
  png_encode := fun _ => Ok (blob 7);
  jpeg_encode := toy_jpeg scale;
  wand_decode := fun d =>
    match d with
    | [] => Raise (OSError "no decode delegate for this image format")
    | _ => Ok (WandImage "cr2" 0 true tt)
    end;
  wand_remove_alpha := fun px => px;
  wand_encode := fun _ => Ok (blob 9)
|}.

Definition toy_image : image unit := Image "RGB" (640, 480) tt.

Definition toy_fs : gmap path node :=
  list_to_map
    [ (["/"; "in"]%string, Dir);
      (["/"; "in"; "a.png"]%string, File (blob 3));
      (["/"; "in"; "b.PNG"]%string, File (blob 3));
      (["/"; "in"; "sub"]%string, Dir);
      (["/"; "in"; "sub"; "c.png"]%string, File (Byte.xff :: blob 4));
      (["/"; "in"; "sub"; "d.HEIC"]%string, File (blob 5));
      (["/"; "in"; "e.heic"]%string, File (blob 5));
      (["/"; "in"; "f.heic"]%string, File []);
      (["/"; "pics"]%string, Dir);
      (["/"; "pics"; "big.png"]%string, File [Byte.x01]);
      (["/"; "pics"; "la.png"]%string, File [Byte.x02]);
      (["/"; "out"]%string, Dir) ].

Definition toy_world : World := mkWorld toy_fs [] [].

Definition empty_world : World := mkWorld ∅ [] [].

(** The toy file system with an image of 5000x1 added. *)
Definition thin_world : World :=
  mkWorld (<[ ["/"; "pics"; "thin.png"]%string := File [Byte.x03] ]> toy_fs)
    [] [].

Definition toy_tasks : list task :=
  [ ("/in/e.heic", "/out/e.png");
    ("/in/f.heic", "/out/f.png");
    ("/in/sub/d.HEIC", "/out/sub_d.png") ]%string.

(** [w'] differs from [w] on the file system at most at [p], where it
    then holds a regular file. *)
Definition writes_only (p : path) (w w' : World) : Prop :=
  forall q, node_at (fs w') q = node_at (fs w) q
            \/ (q = p /\ exists d, node_at (fs w') q = Some (File d)).

(** The output path that mirrors the relative path [rel] below
    [output_dir], with the suffix [sfx]. *)
Definition mirrored (output_dir : string) (rel : path) (sfx : string) : path :=
  Path output_dir ++ removelast rel
  ++ [replace_suffix (List.last rel EmptyString) sfx].

(** * The interactive script (lines 133-218) *)

(** [str.upper], [str.strip], [int] on a string and the [.2f] format follow
    tables of their own, and [os.cpu_count()] asks the machine: the script
    is modelled for any of them. [int_of_str s = None] is the [ValueError]
    of [int(s)]. For some paths [os.stat] fails with an error that
    [Path.exists] does not take for the absence of the file (a name that
    is too long, a directory that may not be searched): [stat_error p] is
    that error, and which paths have one depends on the system. *)
Class Builtins : Type := {
  upper : string -> string;
  strip : string -> string;
  int_of_str : string -> option Z;
  format_2f : float -> string;
  cpu_count : option Z;
  stat_error : path -> option exn
}.

(** What ends a run before the last line of the script. *)
Inductive stop : Type :=
  | SystemExit
  | EOFError
  | Uncaught (e : exn).

(** The script reads the lines of standard input one by one. *)
Definition Run (A : Type) : Type :=
  list string -> World -> (A + stop) * list string * World.

Definition finish {A} (a : A) : Run A := fun stdin w => (inl a, stdin, w).

(** [sys.exit()] *)
Definition sys_exit {A} : Run A := fun stdin w => (inr SystemExit, stdin, w).

(** A call whose exception nothing catches. *)
Definition call {A} (m : M A) : Run A :=
  fun stdin w => match m w with
                 | (Ok a, w') => (inl a, stdin, w')
                 | (Raise e, w') => (inr (Uncaught e), stdin, w')
                 end.

Definition and_then {A B} (m : Run A) (k : A -> Run B) : Run B :=
  fun stdin w => match m stdin w with
                 | (inl a, stdin', w') => k a stdin' w'
                 | (inr s, stdin', w') => (inr s, stdin', w')
                 end.

Notation "'let*' x ':=' m 'in' k" := (and_then m (fun x => k))
  (at level 10, x name, m at level 100, k at level 200).
Notation "'do' m 'in' k" := (and_then m (fun _ => k))
  (at level 10, m at level 100, k at level 200).

(** The prompt of [input] goes to standard output as it is. *)
Definition emit (s : string) (w : World) : World :=
  mkWorld (fs w) (stdout w ++ [s]) (saves w).

(** [input(prompt)] *)
Definition input (prompt : string) : Run string :=
  fun stdin w =>
    match stdin with
    | [] => (inr EOFError, [], emit prompt w)
    | line :: stdin' => (inl line, stdin', emit prompt w)
    end.

(** [while True: line = input(prompt); ...]: the rest of the body breaks
    out of the loop with a value ([Some]) or goes round again ([None]). *)
Fixpoint input_loop {A} (prompt : string) (body : string -> M (option A))
  (stdin : list string) (w : World) : (A + stop) * list string * World :=
  match stdin with
  | [] => (inr EOFError, [], emit prompt w)
  | line :: stdin' =>
      match body line (emit prompt w) with
      | (Ok (Some a), w1) => (inl a, stdin', w1)
      | (Ok None, w1) => input_loop prompt body stdin' w1
      | (Raise e, w1) => (inr (Uncaught e), stdin', w1)
      end
  end.

(** [range(start, stop, step)] for a positive step. *)
Definition range (start stop step : Z) : list Z :=
  map (fun k => start + step * Z.of_nat k)
      (seq 0 (Z.to_nat ((stop - start + step - 1) / step))).

(** [str] of a list of integers. *)
Definition repr_list (l : list Z) : string :=
  "[" +:+ join ", " (map pretty l) +:+ "]".

(** [x / n] for a float and an integer. *)
Definition float_div_int (x : float) (n : Z) : result float :=
  if n =? 0 then Raise (ZeroDivisionError "float division by zero")
  else Ok (PrimFloat.div x (float_of_int n)).

Section Main.
Context {Pixels : Type} {codec : Codec Pixels} {builtins : Builtins}.

(** [Path.exists]: [False] for a file that is not there; another error of
    [os.stat] is raised. *)
Definition path_exists (p : path) : M bool :=
  fun w =>
    match stat_error p with
    | Some e => (Raise e, w)
    | None =>
        (Ok (match node_at (fs w) p with Some _ => true | None => false end),
         w)
    end.

(** The pools of the two stages complete their calls each in an order of
    its own. *)
Variables schedule_conversion schedule_optimization : list task -> list task.

(** Lines 135-140. *)
Definition ask_type : Run string :=
  input_loop "Digite o tipo de conversão (HEIC ou CR2): "
    (fun ctype =>
       if existsb (String.eqb (upper ctype)) ["HEIC"; "CR2"]%string
       then ret (Some (upper ctype))
       else print "Tipo inválido." ;;; ret None).

(** Lines 143-147. *)
Definition ask_source : Run string :=
  input_loop "Caminho de origem: "
    (fun input_dir =>
       found <- path_exists (Path input_dir) ;;
       if found : bool then ret (Some input_dir)
       else print "Caminho inválido." ;;; ret None).

(** Lines 150-154 and 197-201. *)
Definition ask_destination (prompt : string) : Run string :=
  input_loop prompt
    (fun output_dir =>
       found <- path_exists (parent (Path output_dir)) ;;
       if found : bool then ret (Some output_dir)
       else print "Caminho inválido." ;;; ret None).

(** Line 163: [os.cpu_count() or 4] *)
Definition cpu_threads : Z :=
  match cpu_count with
  | Some n => if n =? 0 then 4 else n
  | None => 4
  end.

(** Line 164. *)
Definition thread_options : list Z := range 2 (cpu_threads + 1) 2.

(** Lines 166-173: the [ValueError] of [int] is caught. *)
Definition ask_threads : Run Z :=
  input_loop "Escolha o número de threads: "
    (fun line =>
       match int_of_str line with
       | Some chosen_threads =>
           if existsb (Z.eqb chosen_threads) thread_options
           then ret (Some chosen_threads)
           else print ("Opção inválida. Escolha entre "
                       +:+ repr_list thread_options +:+ ".") ;;;
                ret None
       | None =>
           print ("Opção inválida. Escolha entre "
                  +:+ repr_list thread_options +:+ ".") ;;;
           ret None
       end).

(** Lines 203-209: the bare [except] also catches the end of the input. *)
Definition ask_max_mb : Run Z :=
  fun stdin w =>
    match input "Tamanho máximo em MB (padrão 15): " stdin w with
    | (inl val, stdin', w') =>
        if String.eqb (strip val) "" then (inl 15, stdin', w')
        else match int_of_str val with
             | Some n => (inl n, stdin', w')
             | None => (inl 15, stdin', w')
             end
    | (inr _, stdin', w') => (inl 15, stdin', w')
    end.

(** Lines 197-212, the branch that optimises. *)
Definition optimize_converted (output_dir : string) (chosen_threads : Z)
  : Run unit :=
  let* output_dir_opt :=
    ask_destination "Caminho de destino para otimização (JPEG): " in
  let* max_mb := ask_max_mb in
  do call (process_optimization schedule_optimization output_dir
             output_dir_opt chosen_threads (inject_Z max_mb)) in
  finish tt.

(** Lines 189-218, once the user has confirmed; the two lines that print
    the time a run took are left out. *)
Definition run_stages (ctype : string) (files : list path)
  (input_dir output_dir : string) (chosen_threads : Z) : Run unit :=
  let func := if String.eqb ctype "HEIC" then convert_heic_to_png
              else convert_cr2_to_png in
  do call (process_conversion schedule_conversion files input_dir output_dir
             func chosen_threads) in
  let* optimize_choice :=
    input (String "010" "Deseja otimizar as imagens convertidas? (S/N): ") in
  if String.eqb (upper optimize_choice) "S"
  then optimize_converted output_dir chosen_threads
  else finish tt.

(** Lines 135-187, then the two stages. *)
Definition main : Run unit :=
  let* ctype := ask_type in
  let* input_dir := ask_source in
  let* output_dir := ask_destination "Caminho de destino para conversão: " in
  let* files := call (get_files_for_conversion input_dir ctype) in
  do (match files with
      | [] => do call (print ("Nenhum arquivo " +:+ ctype +:+ " encontrado."))
              in sys_exit
      | _ :: _ => finish tt
      end) in
  do call (print ("Encontrados " +:+ pretty (Z.of_nat (length files))
                  +:+ " arquivos " +:+ ctype)) in
  do call (print (String "010" "Este computador possui "
                  +:+ pretty cpu_threads +:+ " threads. Opções: "
                  +:+ repr_list thread_options)) in
  let* chosen_threads := ask_threads in
  let* estimated :=
    call (lift (float_div_int
                  (PrimFloat.mul (float_of_int (Z.of_nat (length files)))
                     0.5%float)
                  chosen_threads)) in
  do call (print (String "010" "Estimativa de tempo de conversão: ~"
                  +:+ format_2f estimated +:+ "s (pode variar)")) in
  do call (print (String "010" "Confirmação:")) in
  do call (print ("Tipo: " +:+ ctype)) in
  do call (print ("Origem: " +:+ input_dir)) in
  do call (print ("Destino conversão: " +:+ output_dir)) in
  do call (print ("Threads: " +:+ pretty chosen_threads)) in
  let* confirm := input "Prosseguir? (S/N): " in
  do (if String.eqb (upper confirm) "S" then finish tt
      else do call (print "Conversão cancelada.") in sys_exit) in
  run_stages ctype files input_dir output_dir chosen_threads.

End Main.

(** Where a run ended, and in which world. *)
Definition ending {A} (r : (A + stop) * list string * World) : A + stop :=
  fst (fst r).

Definition final {A} (r : (A + stop) * list string * World) : World := snd r.

(** The file system and the encoder trace of [w'] are those of [w]. *)
Definition untouched (w w' : World) : Prop :=
  fs w' = fs w /\ saves w' = saves w.

(** The run stopped at a prompt: at [sys.exit], at the end of the input,
    or at an error that [Path.exists] raised. *)
Definition stopped_at_prompt {builtins : Builtins} {A} (r : A + stop)
  : Prop :=
  match r with
  | inr SystemExit | inr EOFError => True
  | inr (Uncaught e) => exists p, stat_error p = Some e
  | inl _ => False
  end.

(** The exception was raised by a call of [Path.exists], of [mkdir] or of
    [getsize]. *)
Definition raised_by_system {builtins : Builtins} (e : exn) : Prop :=
  (exists p, stat_error p = Some e)
  \/ (exists p w0 w1, mkdir_parents p w0 = (Raise e, w1))
  \/ (exists s w0 w1, getsize s w0 = (Raise e, w1)).

(** ASCII versions of the string functions, for the worked examples. *)
Definition ascii_upper (c : ascii) : ascii :=
  let n := nat_of_ascii c in
  if ((97 <=? n) && (n <=? 122))%nat then ascii_of_nat (n - 32) else c.

Fixpoint string_map (f : ascii -> ascii) (s : string) : string :=
  match s with
  | EmptyString => EmptyString
  | String c s' => String (f c) (string_map f s')
  end.

Fixpoint digits_value (s : string) (acc : Z) : option Z :=
  match s with
  | EmptyString => Some acc
  | String c s' =>
      let n := nat_of_ascii c in
      if ((48 <=? n) && (n <=? 57))%nat
      then digits_value s' (10 * acc + Z.of_nat (n - 48))
      else None
  end.

Definition toy_builtins (cores : option Z) : Builtins := {|
  upper := string_map ascii_upper;
  strip := fun s => s;
  int_of_str := fun s => match s with
                         | EmptyString => None
                         | _ => digits_value s 0
                         end;
  format_2f := fun _ => "?";
  cpu_count := cores;
  stat_error := fun p =>
    if existsb (fun s => (255 <? String.length s)%nat) p
    then Some (OSError "[Errno 36] File name too long")
    else None
|}.

(** * Properties *)

(** ** The size-search loop *)

Section Loop.
Context {Pixels : Type} {codec : Codec Pixels}.
Implicit Types (img : image Pixels) (w : World) (q : Z) (mx : Q).

Lemma save_loop_step img o mx q w :
  save_loop img o mx q w =
  match loop_body img o mx q w with
  | (Ok (Some r), w1) => (Ok r, w1)
  | (Ok None, w1) => save_loop img o mx (q - 5) w1
  | (Raise e, w1) => (Raise e, w1)
  end.
Proof.
  rewrite save_loop_unfold_eq. unfold save_loop_unfold, Logic.inspect.
  generalize (@eq_refl _ (loop_body img o mx q w)).
  generalize (loop_body img o mx q w) at 2 4 5.
  intros [[[r|]|e] w1] Heq; reflexivity.
Qed.

Lemma node_at_insert_same (f : gmap path node) p nd :
  parent p ≠ p -> node_at (<[p := nd]> f) p = Some nd.
Proof.
  intros Hp. unfold node_at. destruct (decide (parent p = p)); [done|].
  apply lookup_insert_eq.
Qed.

Lemma node_at_insert_other (f : gmap path node) p p' nd :
  p ≠ p' -> node_at (<[p := nd]> f) p' = node_at f p'.
Proof.
  intros Hp. unfold node_at. destruct (decide (parent p' = p')); [done|].
  now apply lookup_insert_ne.
Qed.

Lemma is_dir_self_parent (f : gmap path node) p : parent p = p -> is_dir f p = true.
Proof.
  intros Hp. unfold is_dir, node_at. now destruct (decide (parent p = p)).
Qed.

Lemma writable_spec w s :
  writable w s = true ->
  parent (Path s) ≠ Path s
  /\ node_at (fs w) (Path s) ≠ Some Dir
  /\ node_at (fs w) (parent (Path s)) = Some Dir.
Proof.
  unfold writable. intros [Hn Hd]%andb_prop.
  apply negb_true_iff in Hn. split; [|split].
  - intros Hp. now rewrite (is_dir_self_parent _ _ Hp) in Hn.
  - intros Hp. unfold is_dir in Hn. now rewrite Hp in Hn.
  - unfold is_dir in Hd. destruct (node_at _ (parent _)) as [[|]|]; done.
Qed.

Lemma write_file_ok w s d :
  writable w s = true ->
  write_file s d w = (Ok tt, set_fs (<[Path s := File d]> (fs w)) w).
Proof.
  intros (Hp & Hn & Hd)%writable_spec. unfold write_file.
  rewrite Hd. destruct (node_at (fs w) (Path s)) as [[|]|]; done.
Qed.

Lemma after_save_writable img s q d w :
  writable w s = true -> writable (after_save img s q d w) s = true.
Proof.
  intros Hw. destruct (writable_spec _ _ Hw) as (Hp & Hn & Hd).
  unfold writable, is_dir, after_save. simpl.
  rewrite node_at_insert_same by done.
  rewrite node_at_insert_other by done. now rewrite Hd.
Qed.

Lemma after_save_getsize img s q d w :
  writable w s = true ->
  getsize s (after_save img s q d w) = (Ok (Z.of_nat (length d)), after_save img s q d w).
Proof.
  intros (Hp & _)%writable_spec. unfold getsize, after_save. simpl.
  now rewrite node_at_insert_same.
Qed.

(** One turn whose encode succeeds. *)
Lemma loop_body_encoded img o mx q w d :
  writable w o = true ->
  jpeg_encode img q = Ok d ->
  loop_body img o mx q w =
  (Ok (if Qle_bool (megabytes (Z.of_nat (length d))) mx || (q <? 30)
       then Some (true, megabytes (Z.of_nat (length d))) else None),
   after_save img o q d w).
Proof.
  intros Hw He.
  pose proof (after_save_getsize img o q d w Hw) as Hg.
  unfold loop_body, Image_save_jpeg, bind, record_save, lift. rewrite He.
  rewrite write_file_ok by (exact Hw). unfold set_fs. simpl.
  unfold after_save, jpeg_event in Hg. rewrite Hg.
  now destruct (Qle_bool _ _ || _).
Qed.

Lemma getsize_world s w : snd (getsize s w) = w.
Proof. unfold getsize. now repeat case_match. Qed.

Lemma write_file_saves s d w : saves (snd (write_file s d w)) = saves w.
Proof. unfold write_file. now repeat case_match. Qed.

(** Every turn calls the encoder once, whatever happens next. *)
Lemma loop_body_saves img o mx q w :
  saves (snd (loop_body img o mx q w)) = jpeg_event img o q :: saves w.
Proof.
  unfold loop_body, Image_save_jpeg, bind, record_save, lift.
  destruct (jpeg_encode img q) as [d|e]; [|reflexivity].
  match goal with |- context [write_file o d ?w0] =>
    pose proof (write_file_saves o d w0) as Hs;
    destruct (write_file o d w0) as [[[]|e] w1] end; [|exact Hs].
  pose proof (getsize_world o w1) as Hg.
  destruct (getsize o w1) as [[n|e] w2]; simpl in Hg; subst w2; [|exact Hs].
  now destruct (Qle_bool _ _ || _).
Qed.

(** A turn only falls through to [quality -= 5] from a quality of 30 or
    more. *)
Lemma loop_body_continue img o mx q w w1 :
  loop_body img o mx q w = (Ok None, w1) -> 30 <= q.
Proof.
  unfold loop_body, bind. intros H.
  destruct (Image_save_jpeg _ _ _ _) as [[[]|?] ?]; [|discriminate].
  destruct (getsize _ _) as [[?|?] ?]; [|discriminate].
  destruct (q <? 30) eqn:Hq; [|now apply Z.ltb_ge].
  rewrite orb_true_r in H. discriminate.
Qed.

Lemma save_loop_saves_bound img o mx (n : nat) : forall q w,
  q < 30 + 5 * Z.of_nat n ->
  (length (saves (snd (save_loop img o mx q w))) <= length (saves w) + S n)%nat.
Proof.
  induction n as [|n IH]; intros q w Hq; rewrite save_loop_step;
    pose proof (loop_body_saves img o mx q w) as Hs;
    destruct (loop_body img o mx q w) as [[[r|]|e] w1] eqn:Hb;
    simpl in Hs |- *; try (rewrite Hs; simpl; lia).
  - apply loop_body_continue in Hb. lia.
  - apply loop_body_continue in Hb.
    specialize (IH (q - 5) w1). rewrite Hs in IH. simpl in IH. lia.
Qed.

Lemma Image_open_saves s w : saves (snd (Image_open s w)) = saves w.
Proof.
  unfold Image_open, bind, read_file, lift.
  now destruct (node_at _ _) as [[|d]|].
Qed.

Lemma new_size_world a b w : snd (new_size a b w) = w.
Proof.
  unfold new_size, bind, lift, ret.
  destruct (_ || _); [|reflexivity].
  destruct (a >? b);
    (destruct (truediv _ _); [|reflexivity]);
    now destruct (int_of_float _).
Qed.

Lemma Image_open_world s w : snd (Image_open s w) = w.
Proof.
  unfold Image_open, bind, read_file, lift.
  now destruct (node_at _ _) as [[|d]|].
Qed.

Lemma Image_resize_ok (c img : image Pixels) (sz : Z * Z) :
  Image_resize c sz = Ok img ->
  img_mode img = img_mode c /\ img_size img = sz
  /\ 1 <= fst sz /\ 1 <= snd sz.
Proof.
  unfold Image_resize.
  destruct ((fst sz <? 1) || (snd sz <? 1)) eqn:E; [discriminate|].
  apply orb_false_iff in E as [E1%Z.ltb_ge E2%Z.ltb_ge].
  destruct (pil_resize _ _ _); [|discriminate].
  intros [= <-]. simpl. repeat split; assumption.
Qed.

(** Up to the loop [optimize_png] only reads and computes: its [try] block
    raises there with the world as it was, or it enters the loop with the
    image of the file, converted and resized. *)
Lemma optimize_png_try_cases i o mx w :
  (exists e, optimize_png_try i o mx w = (Raise e, w))
  \/ exists img0 r img,
       Image_open i w = (Ok img0, w)
       /\ new_size (fst (img_size img0)) (snd (img_size img0)) w = (Ok r, w)
       /\ match r with
          | Some sz =>
              Image_resize
                (if bool_decide (img_mode img0 ∈ ["RGBA"; "P"]%string)
                 then Image_convert img0 "RGB" else img0) sz = Ok img
          | None =>
              img = if bool_decide (img_mode img0 ∈ ["RGBA"; "P"]%string)
                    then Image_convert img0 "RGB" else img0
          end
       /\ optimize_png_try i o mx w = save_loop img o mx 90 w.
Proof.
  unfold optimize_png_try, bind.
  pose proof (Image_open_world i w) as Ho.
  destruct (Image_open i w) as [[img0|e] w1]; simpl in Ho; subst w1;
    [|left; now exists e].
  set (c := if bool_decide _ then _ else img0).
  assert (Hsz : img_size c = img_size img0)
    by (subst c; now destruct (bool_decide _)).
  rewrite Hsz. destruct (img_size img0) as [a b] eqn:Hab.
  pose proof (new_size_world a b w) as Hn.
  destruct (new_size a b w) as [[r|e] w2] eqn:Hns; simpl in Hn; subst w2;
    [|left; now exists e].
  destruct r as [[new_w new_h]|].
  - unfold lift. destruct (Image_resize c (new_w, new_h)) as [img|e] eqn:Hr;
      [|left; now exists e].
    right. exists img0, (Some (new_w, new_h)), img. rewrite Hab.
    repeat split; assumption.
  - right. exists img0, None, c. rewrite Hab. repeat split. exact Hns.
Qed.

Lemma optimize_png_saves_bound i o mx w :
  (length (saves (snd (optimize_png i o mx w))) <= length (saves w) + 14)%nat.
Proof.
  unfold optimize_png, try_except.
  destruct (optimize_png_try_cases i o mx w)
    as [[e ->] | (img0 & r & img & _ & _ & _ & ->)]; [simpl; lia|].
  pose proof (save_loop_saves_bound img o mx 13 90 w ltac:(lia)) as Hb.
  destruct (save_loop img o mx 90 w) as [[res|e] w3]; simpl in Hb |- *; lia.
Qed.

(** C3, as the code has it: the size search calls the encoder at most 14
    times (qualities 90, 85, ..., 30 and then 25), for every image, output
    path, size limit and world, whether the calls succeed or raise; the
    same bound holds for a whole call of [optimize_png]. *)
Theorem size_search_at_most_14_encodes (img : image Pixels) i o mx w :
  (encode_attempts w (snd (save_loop img o mx 90 w)) <= 14)%nat
  /\ (encode_attempts w (snd (optimize_png i o mx w)) <= 14)%nat.
Proof.
  unfold encode_attempts. split.
  - pose proof (save_loop_saves_bound img o mx 13 90 w ltac:(lia)). lia.
  - pose proof (optimize_png_saves_bound i o mx w). lia.
Qed.

(** C4: when the encode at quality 90 succeeds with a size within the
    limit, the loop returns [(True, size_mb)] after exactly one encoder
    call, the one at quality 90. *)
Theorem size_search_one_encode_when_small (img : image Pixels) o mx w d :
  writable w o = true ->
  jpeg_encode img 90 = Ok d ->
  (megabytes (Z.of_nat (length d)) <= mx)%Q ->
  save_loop img o mx 90 w
    = (Ok (true, megabytes (Z.of_nat (length d))), after_save img o 90 d w)
  /\ saves (after_save img o 90 d w) = jpeg_event img o 90 :: saves w
  /\ encode_attempts w (after_save img o 90 d w) = 1%nat.
Proof.
  intros Hw He Hle. split; [|split].
  - rewrite save_loop_step, (loop_body_encoded img o mx 90 w d Hw He).
    apply Qle_bool_iff in Hle. now rewrite Hle.
  - reflexivity.
  - unfold encode_attempts, after_save. simpl. lia.
Qed.

Lemma after_save_holds (img : image Pixels) o q d w :
  writable w o = true ->
  node_at (fs (after_save img o q d w)) (Path o) = Some (File d).
Proof.
  intros (Hp & _)%writable_spec. unfold after_save. simpl.
  now apply node_at_insert_same.
Qed.

(** The search from any quality [q], given enough rungs to reach the
    floor. *)
Lemma size_search_from (img : image Pixels) o mx (enc : Z -> list Byte.byte) :
  (forall q, jpeg_encode img q = Ok (enc q)) ->
  forall (n : nat) q w,
    writable w o = true ->
    q < 30 + 5 * Z.of_nat n ->
    exists tried q' rest w',
      ladder q (S n) = tried ++ q' :: rest
      /\ Forall (fun t =>
           ~ (megabytes (Z.of_nat (length (enc t))) <= mx)%Q /\ 30 <= t) tried
      /\ ((megabytes (Z.of_nat (length (enc q'))) <= mx)%Q \/ q' < 30)
      /\ save_loop img o mx q w
         = (Ok (true, megabytes (Z.of_nat (length (enc q')))), w')
      /\ saves w' = rev (map (jpeg_event img o) (tried ++ [q'])) ++ saves w
      /\ node_at (fs w') (Path o) = Some (File (enc q')).
Proof.
  intros Henc. induction n as [|n IH]; intros q w Hw Hq;
    rewrite save_loop_step, (loop_body_encoded img o mx q w _ Hw (Henc q));
    destruct (Qle_bool _ mx) eqn:Hle; destruct (q <? 30) eqn:Hlt; simpl orb;
    cbv iota;
    try (eexists [], q, _, (after_save img o q (enc q) w);
         split; [reflexivity|]; split; [constructor|];
         split; [first [left; now apply Qle_bool_iff
                       |right; now apply Z.ltb_lt]|];
         split; [reflexivity|]; split; [reflexivity|];
         now apply after_save_holds).
  - apply Z.ltb_ge in Hlt. lia.
  - apply Z.ltb_ge in Hlt.
    destruct (IH (q - 5) (after_save img o q (enc q) w))
      as (tried & q' & rest & w' & Hl & Hall & Hacc & Hrun & Hsv & Hfs);
      [now apply after_save_writable | lia |].
    exists (q :: tried), q', rest, w'.
    split; [simpl; now rewrite <- Hl|].
    split.
    { constructor; [|exact Hall]. split; [|exact Hlt].
      intros Hc. apply Qle_bool_iff in Hc. congruence. }
    split; [exact Hacc|]. split; [exact Hrun|]. split; [|exact Hfs].
    rewrite Hsv. simpl. now rewrite <- !app_assoc.
Qed.

(** C2: the loop starts at quality 90 and walks the qualities
    90, 85, ..., 25 in order; every quality tried before the last one was
    rejected (size above the limit and quality at least 30), the last one
    was accepted (size within the limit, or quality below 30), each was
    encoded exactly once, and the value returned is [(True, size_mb)] with
    the size of the file left by the last encode. *)
Theorem size_search_accepts_first_fit (img : image Pixels) o mx w
    (enc : Z -> list Byte.byte) :
  writable w o = true ->
  (forall q, jpeg_encode img q = Ok (enc q)) ->
  exists tried q' rest w',
    [90; 85; 80; 75; 70; 65; 60; 55; 50; 45; 40; 35; 30; 25]
      = tried ++ q' :: rest
    /\ Forall (fun t =>
         ~ (megabytes (Z.of_nat (length (enc t))) <= mx)%Q /\ 30 <= t) tried
    /\ ((megabytes (Z.of_nat (length (enc q'))) <= mx)%Q \/ q' < 30)
    /\ save_loop img o mx 90 w
       = (Ok (true, megabytes (Z.of_nat (length (enc q')))), w')
    /\ saves w' = rev (map (jpeg_event img o) (tried ++ [q'])) ++ saves w
    /\ getsize o w' = (Ok (Z.of_nat (length (enc q'))), w').
Proof.
  intros Hw Henc.
  destruct (size_search_from img o mx enc Henc 13 90 w Hw ltac:(lia))
    as (tried & q' & rest & w' & Hl & Hall & Hacc & Hrun & Hsv & Hfs).
  exists tried, q', rest, w'. repeat split; try assumption.
  unfold getsize. now rewrite Hfs.
Qed.

End Loop.

(** ** Preparation of the image: mode and size *)

Section Prepare.
Context {Pixels : Type} {codec : Codec Pixels}.
Implicit Types (img : image Pixels) (w : World) (q : Z) (mx : Q).

(** The scaled side: [int(short * (4000 / long))], in binary64. *)
Lemma new_size_scaled a b w :
  4000 < a \/ 4000 < b ->
  new_size a b w =
  (match int_of_float
           (PrimFloat.mul (float_of_int (Z.min a b))
              (PrimFloat.div (float_of_int 4000) (float_of_int (Z.max a b))))
   with
   | Ok s => Ok (Some (if a >? b then (4000, s) else (s, 4000)))
   | Raise e => Raise e
   end, w).
Proof.
  intros Hbig. unfold new_size, max_dimension.
  replace ((a >? 4000) || (b >? 4000)) with true
    by (symmetry; apply orb_true_iff; rewrite !Z.gtb_ltb, !Z.ltb_lt; lia).
  unfold bind, lift, truediv, ret.
  destruct (a >? b) eqn:Hab.
  - apply Z.gtb_lt in Hab.
    rewrite Z.min_r, Z.max_l by lia.
    replace (a =? 0) with false by (symmetry; apply Z.eqb_neq; lia).
    now destruct (int_of_float _).
  - rewrite Z.gtb_ltb in Hab. apply Z.ltb_ge in Hab.
    rewrite Z.min_l, Z.max_r by lia.
    replace (b =? 0) with false by (symmetry; apply Z.eqb_neq; lia).
    now destruct (int_of_float _).
Qed.

Lemma new_size_small a b w :
  a <= 4000 -> b <= 4000 -> new_size a b w = (Ok None, w).
Proof.
  intros Ha Hb. unfold new_size, max_dimension.
  replace ((a >? 4000) || (b >? 4000)) with false; [reflexivity|].
  symmetry. apply orb_false_iff. rewrite !Z.gtb_ltb, !Z.ltb_ge. lia.
Qed.

(** C5, as the code has it: when a side exceeds 4000 the side that was the
    longer one (the height on a tie) becomes 4000 and the other one becomes
    [int(other * (4000 / longer))], the binary64 product truncated towards
    zero; a 6000x4000 image is resized to 4000x2666, which is the floor of
    [4000 * 4000 / 6000], and a 4000x6000 one to 2666x4000. *)
Theorem downscale_truncates a b w :
  4000 < a \/ 4000 < b ->
  new_size a b w =
  (match int_of_float
           (PrimFloat.mul (float_of_int (Z.min a b))
              (PrimFloat.div (float_of_int 4000) (float_of_int (Z.max a b))))
   with
   | Ok s => Ok (Some (if a >? b then (4000, s) else (s, 4000)))
   | Raise e => Raise e
   end, w)
  /\ new_size 6000 4000 w = (Ok (Some (4000, 2666)), w)
  /\ new_size 4000 6000 w = (Ok (Some (2666, 4000)), w)
  /\ 2666 = 4000 * 4000 / 6000.
Proof.
  intros Hbig. split; [now apply new_size_scaled|].
  split; [|split].
  - rewrite new_size_scaled by lia. vm_compute. reflexivity.
  - rewrite new_size_scaled by lia. vm_compute. reflexivity.
  - reflexivity.
Qed.

(** The encoder calls of the loop, oldest first: one per quality tried. *)
Lemma save_loop_trace img o mx (n : nat) : forall q w,
  q < 30 + 5 * Z.of_nat n ->
  exists qs, qs <> []
    /\ saves (snd (save_loop img o mx q w))
       = rev (map (jpeg_event img o) qs) ++ saves w.
Proof.
  induction n as [|n IH]; intros q w Hq; rewrite save_loop_step;
    pose proof (loop_body_saves img o mx q w) as Hs;
    destruct (loop_body img o mx q w) as [[[r|]|e] w1] eqn:Hb;
    simpl in Hs |- *;
    try (exists [q]; split; [discriminate | exact Hs]).
  - apply loop_body_continue in Hb. lia.
  - apply loop_body_continue in Hb.
    destruct (IH (q - 5) w1 ltac:(lia)) as (qs & _ & Hqs).
    exists (q :: qs). split; [discriminate|].
    rewrite Hqs, Hs. simpl. now rewrite <- app_assoc.
Qed.

(** What the encoder is given: only the modes [RGBA] and [P] are converted
    (to [RGB]); the size is the one computed by [new_size]. *)
Lemma optimize_png_encodes i o mx w img :
  Image_open i w = (Ok img, w) ->
  fst (new_size (fst (img_size img)) (snd (img_size img)) w) = Ok None ->
  exists evs, evs <> []
    /\ saves (snd (optimize_png i o mx w)) = evs ++ saves w
    /\ Forall (fun ev =>
         ev_mode ev =
           (if bool_decide (img_mode img ∈ ["RGBA"; "P"]%string)
            then "RGB"%string else img_mode img)
         /\ ev_size ev = img_size img) evs.
Proof.
  intros Ho Hn. unfold optimize_png, optimize_png_try, try_except, bind.
  rewrite Ho.
  set (img' := if bool_decide _ then _ else img).
  assert (Hsz : img_size img' = img_size img)
    by (subst img'; now destruct (bool_decide _)).
  assert (Hmd : img_mode img' =
                if bool_decide (img_mode img ∈ ["RGBA"; "P"]%string)
                then "RGB"%string else img_mode img)
    by (subst img'; now destruct (bool_decide _)).
  rewrite Hsz. destruct (img_size img) as [a b] eqn:Hab. simpl in Hn.
  pose proof (new_size_world a b w) as Hw.
  destruct (new_size a b w) as [[sz|e] w1]; simpl in Hn, Hw; subst w1;
    [|discriminate].
  injection Hn as ->. unfold ret.
  destruct (save_loop_trace img' o mx 13 90 w ltac:(lia)) as (qs & Hne & Hqs).
  exists (rev (map (jpeg_event img' o) qs)). split; [|split].
  - destruct qs as [|q qs]; [done|]. simpl. intros Hc.
    now apply app_eq_nil in Hc as [_ Hc].
  - destruct (save_loop img' o mx 90 w) as [[r|e] w3]; simpl in Hqs |- *;
      exact Hqs.
  - apply Forall_forall. intros ev Hin.
    apply list_elem_of_In, in_rev, in_map_iff in Hin.
    destruct Hin as (q & <- & _). simpl. now rewrite Hmd, Hsz.
Qed.

(** C6 at a grey-scale image with alpha: a decoded image of mode [LA]
    carries an alpha band, yet every encode that [optimize_png] attempts is
    given the image in mode [LA], not [RGB]; if the encoder refuses that
    mode, as Pillow's JPEG encoder does, the call returns [(False, 0)]. *)
Theorem optimize_png_leaves_LA i o mx w img :
  Image_open i w = (Ok img, w) ->
  img_mode img = "LA"%string ->
  fst (img_size img) <= 4000 ->
  snd (img_size img) <= 4000 ->
  carries_alpha (img_mode img) = true
  /\ (exists evs, evs <> []
        /\ saves (snd (optimize_png i o mx w)) = evs ++ saves w
        /\ Forall (fun ev => ev_mode ev = "LA"%string) evs)
  /\ ((forall q, exists e, jpeg_encode img q = Raise e) ->
      fst (optimize_png i o mx w) = Ok (false, 0%Q)).
Proof.
  intros Ho Hm Ha Hb. split; [now rewrite Hm|]. split.
  - destruct (optimize_png_encodes i o mx w img Ho) as (evs & Hne & Hs & Hall).
    { now rewrite new_size_small. }
    exists evs. split; [exact Hne|]. split; [exact Hs|].
    eapply Forall_impl; [exact Hall|]. intros ev [Hev _].
    rewrite Hev, Hm. reflexivity.
  - intros Hrej. unfold optimize_png, optimize_png_try, try_except, bind.
    rewrite Ho, Hm.
    cbn [bool_decide]. 
    replace (bool_decide ("LA"%string ∈ ["RGBA"; "P"]%string)) with false
      by reflexivity.
    destruct (img_size img) as [a b]. simpl in Ha, Hb.
    rewrite new_size_small by assumption. unfold ret.
    rewrite save_loop_step. unfold loop_body, Image_save_jpeg, bind, record_save, lift.
    destruct (Hrej 90) as [e He]. rewrite He. reflexivity.
Qed.

End Prepare.

(** ** The transforms never raise; the pool counts every task once *)

Section Pool.
Context {Pixels : Type} {codec : Codec Pixels}.
Variable schedule : list task -> list task.
Hypothesis schedule_perm : forall ts, Permutation ts (schedule ts).
Implicit Types (w : World) (mx : Q) (tasks : list task).

Lemma convert_heic_to_png_boundary i o w :
  fst (convert_heic_to_png i o w)
  = match fst (convert_heic_to_png_try i o w) with
    | Ok _ => Ok true
    | Raise _ => Ok false
    end.
Proof.
  unfold convert_heic_to_png, try_except, convert_heic_to_png_try, bind, ret.
  destruct (Image_open i w) as [[img|e] w1]; [|reflexivity].
  now destruct (Image_save_png img o w1) as [[[]|e] w2].
Qed.

Lemma convert_cr2_to_png_boundary i o w :
  fst (convert_cr2_to_png i o w)
  = match fst (convert_cr2_to_png_try i o w) with
    | Ok _ => Ok true
    | Raise _ => Ok false
    end.
Proof.
  unfold convert_cr2_to_png, try_except, convert_cr2_to_png_try, bind, ret.
  destruct (Wand_open i w) as [[img|e] w1]; [|reflexivity].
  now destruct (Wand_save _ o w1) as [[[]|e] w2].
Qed.

Lemma optimize_png_boundary i o mx w :
  fst (optimize_png i o mx w)
  = match fst (optimize_png_try i o mx w) with
    | Ok r => Ok r
    | Raise _ => Ok (false, 0%Q)
    end.
Proof.
  unfold optimize_png, try_except.
  now destruct (optimize_png_try i o mx w) as [[r|e] w1].
Qed.

Lemma convert_heic_to_png_total : total convert_heic_to_png.
Proof.
  intros i o w. pose proof (convert_heic_to_png_boundary i o w) as H.
  destruct (convert_heic_to_png i o w) as [[b|e] w1]; simpl in H.
  - now exists b, w1.
  - now destruct (fst (convert_heic_to_png_try i o w)).
Qed.

Lemma convert_cr2_to_png_total : total convert_cr2_to_png.
Proof.
  intros i o w. pose proof (convert_cr2_to_png_boundary i o w) as H.
  destruct (convert_cr2_to_png i o w) as [[b|e] w1]; simpl in H.
  - now exists b, w1.
  - now destruct (fst (convert_cr2_to_png_try i o w)).
Qed.

Lemma optimize_png_total mx : total (fun i o => optimize_png i o mx).
Proof.
  intros i o w. pose proof (optimize_png_boundary i o mx w) as H.
  destruct (optimize_png i o mx w) as [[b|e] w1]; simpl in H.
  - now exists b, w1.
  - now destruct (fst (optimize_png_try i o mx w)).
Qed.

(** The futures of total calls all hold a value, one per task. *)
Lemma run_futures_total {A} (call : string -> string -> M A) :
  total call ->
  forall ts w, exists (rs : list A) w',
    run_futures call ts w = (map Ok rs, w') /\ length rs = length ts.
Proof.
  intros Hcall. induction ts as [|[i o] ts IH]; intros w.
  - now exists [], w.
  - destruct (Hcall i o w) as (a & w1 & Ha).
    destruct (IH w1) as (rs & w2 & Hrs & Hlen).
    exists (a :: rs), w2. simpl. rewrite Ha, Hrs. split; [reflexivity|].
    simpl. now rewrite Hlen.
Qed.

Lemma conversion_results_count (oks : list bool) : forall s f w,
  conversion_results (map Ok oks) s f w
  = (Ok (s + succeeded oks, f + failed oks), w).
Proof.
  unfold succeeded, failed.
  induction oks as [|[] oks IH]; intros s f w; simpl.
  - now rewrite !Z.add_0_r.
  - unfold bind, lift. rewrite IH. do 3 f_equal; simpl length; lia.
  - unfold bind, lift. rewrite IH. do 3 f_equal; simpl length; lia.
Qed.

Lemma succeeded_failed (oks : list bool) :
  succeeded oks + failed oks = Z.of_nat (length oks).
Proof.
  unfold succeeded, failed. induction oks as [|[] oks IH]; simpl length in *; simpl List.filter; simpl length; lia.
Qed.

Lemma optimization_results_count (rs : list (bool * Q)) : forall s f t w,
  optimization_results (map Ok rs) s f t w
  = (Ok (s + succeeded (map fst rs), f + failed (map fst rs),
         fold_left add_optimized rs t), w).
Proof.
  unfold succeeded, failed.
  induction rs as [|[[] sz] rs IH]; intros s f t w; simpl.
  - now rewrite !Z.add_0_r.
  - unfold bind, lift. rewrite IH. unfold add_optimized at 2. simpl fst.
    do 4 f_equal. lia.
  - unfold bind, lift. rewrite IH. unfold add_optimized at 2. simpl fst.
    do 3 f_equal. f_equal. lia.
Qed.

Lemma one_failure (oks : list bool) (n : nat) :
  Permutation oks (false :: repeat true n) ->
  succeeded oks = Z.of_nat n /\ failed oks = 1 /\ length oks = S n.
Proof.
  intros Hp.
  assert (Hs : forall l l' : list bool, Permutation l l' ->
                 succeeded l = succeeded l' /\ failed l = failed l').
  { unfold succeeded, failed. induction 1 as [|[] l l' _ IH|[] [] l|l1 l2 l3 _ IH1 _ IH2];
      simpl; try (split; reflexivity);
      try (destruct IH as [-> ->]; split; reflexivity);
      try (destruct IH as [IHa IHb]; simpl length; split; lia).
    destruct IH1 as [-> ->]. exact IH2. }
  destruct (Hs _ _ Hp) as [-> ->].
  apply Permutation_length in Hp. rewrite Hp. simpl length.
  rewrite repeat_length. split; [|split]; try reflexivity.
  - unfold succeeded. simpl. clear. induction n as [|n IH]; simpl in *; lia.
  - unfold failed. simpl. clear. induction n as [|n IH]; simpl in *; lia.
Qed.

(** The conversion pool, for a call that never raises. *)
Lemma conversion_pool_counts tasks (func : string -> string -> M bool) mw w :
  0 < mw ->
  total func ->
  exists oks w',
    run_futures func (schedule tasks) w = (map Ok oks, w')
    /\ conversion_pool schedule tasks func mw w
       = (Ok (succeeded oks, failed oks), w')
    /\ length oks = length tasks.
Proof.
  intros Hmw Hf.
  destruct (run_futures_total func Hf (schedule tasks) w)
    as (oks & w' & Hrun & Hlen).
  exists oks, w'. split; [exact Hrun|]. split.
  - unfold conversion_pool, ThreadPoolExecutor, bind, submit_all.
    replace (mw <=? 0) with false by (symmetry; apply Z.leb_gt; lia).
    simpl. rewrite Hrun. now rewrite conversion_results_count.
  - rewrite Hlen. symmetry. apply Permutation_length, schedule_perm.
Qed.

Lemma optimization_pool_counts tasks mw mx w :
  0 < mw ->
  exists rs w',
    run_futures (fun i o => optimize_png i o mx) (schedule tasks) w
      = (map Ok rs, w')
    /\ optimization_pool schedule tasks mw mx w
       = (Ok (succeeded (map fst rs), failed (map fst rs), optimized_sum rs), w')
    /\ length rs = length tasks.
Proof.
  intros Hmw.
  destruct (run_futures_total _ (optimize_png_total mx) (schedule tasks) w)
    as (rs & w' & Hrun & Hlen).
  exists rs, w'. split; [exact Hrun|]. split.
  - unfold optimization_pool, ThreadPoolExecutor, bind, submit_all.
    replace (mw <=? 0) with false by (symmetry; apply Z.leb_gt; lia).
    simpl. rewrite Hrun. now rewrite optimization_results_count.
  - rewrite Hlen. symmetry. apply Permutation_length, schedule_perm.
Qed.

(** C1: once the pool has drained, [success + fail] is the number of
    tasks, for the conversion pool run with either converter and for the
    optimisation pool, whatever the order of completion. *)
Theorem counters_sum_to_task_count tasks
    (func : string -> string -> M bool) mw mx w :
  0 < mw ->
  func = convert_heic_to_png \/ func = convert_cr2_to_png ->
  (exists success fail w',
     conversion_pool schedule tasks func mw w = (Ok (success, fail), w')
     /\ success + fail = Z.of_nat (length tasks))
  /\ (exists success fail total_optimized_size w',
        optimization_pool schedule tasks mw mx w
          = (Ok (success, fail, total_optimized_size), w')
        /\ success + fail = Z.of_nat (length tasks)).
Proof.
  intros Hmw Hfunc. split.
  - assert (Hf : total func)
      by (destruct Hfunc as [-> | ->];
          [apply convert_heic_to_png_total | apply convert_cr2_to_png_total]).
    destruct (conversion_pool_counts tasks func mw w Hmw Hf)
      as (oks & w' & _ & Hpool & Hlen).
    exists (succeeded oks), (failed oks), w'. split; [exact Hpool|].
    now rewrite succeeded_failed, Hlen.
  - destruct (optimization_pool_counts tasks mw mx w Hmw)
      as (rs & w' & _ & Hpool & Hlen).
    exists (succeeded (map fst rs)), (failed (map fst rs)), (optimized_sum rs), w'.
    split; [exact Hpool|].
    now rewrite succeeded_failed, length_map, Hlen.
Qed.

Lemma conversion_tasks_length (input_dir output_dir : string)
    (files : list path) : forall tasks w tasks' w',
  conversion_tasks files input_dir output_dir tasks w = (Ok tasks', w') ->
  length tasks' = (length tasks + length files)%nat.
Proof.
  induction files as [|f files IH]; intros tasks w tasks' w'; simpl.
  - intros [= <- <-]. lia.
  - unfold bind.
    destruct (mirrored_output f input_dir output_dir ".png" w)
      as [[out|e] w1]; [|discriminate].
    intros H. apply IH in H. rewrite H, length_app. simpl. lia.
Qed.

(** The whole of [process_conversion]: when it returns, the counters it
    printed add up to the number of files it was given. *)
Lemma process_conversion_counts (files : list path)
    (input_dir output_dir : string) (func : string -> string -> M bool)
    mw w success fail w' :
  func = convert_heic_to_png \/ func = convert_cr2_to_png ->
  process_conversion schedule files input_dir output_dir func mw w
    = (Ok (success, fail), w') ->
  success + fail = Z.of_nat (length files).
Proof.
  intros Hfunc. unfold process_conversion, bind.
  destruct (conversion_tasks files input_dir output_dir [] w)
    as [[tasks|e] w1] eqn:Ht; [|discriminate].
  apply conversion_tasks_length in Ht. simpl in Ht.
  destruct (conversion_pool schedule tasks func mw w1)
    as [[[s f]|e] w2] eqn:Hpool; [|discriminate].
  unfold print, ret. intros [= <- <- <-].
  assert (Hmw : 0 < mw).
  { destruct (Z.leb_spec mw 0) as [Hle|]; [|assumption].
    unfold conversion_pool, ThreadPoolExecutor, bind in Hpool.
    replace (mw <=? 0) with true in Hpool by (symmetry; now apply Z.leb_le).
    discriminate. }
  assert (Hf : total func)
    by (destruct Hfunc as [-> | ->];
        [apply convert_heic_to_png_total | apply convert_cr2_to_png_total]).
  destruct (conversion_pool_counts tasks func mw w1 Hmw Hf)
    as (oks & w3 & _ & Hcount & Hlen).
  rewrite Hcount in Hpool. injection Hpool as <- <- <-.
  now rewrite succeeded_failed, Hlen, Ht.
Qed.

End Pool.

(** ** Paths and strings *)

Section Paths.

Lemma split_no_slash (x : string) :
  has_slash x = false -> split slash x = [x].
Proof.
  induction x as [|a x IH]; simpl; [reflexivity|].
  intros [Ha Hx]%orb_false_iff. rewrite Ha, (IH Hx). reflexivity.
Qed.

Lemma split_app_slash (x s : string) :
  has_slash x = false ->
  split slash (x +:+ String slash s) = x :: split slash s.
Proof.
  induction x as [|a x IH]; simpl.
  - intros _. reflexivity.
  - intros [Ha Hx]%orb_false_iff. rewrite Ha, (IH Hx). reflexivity.
Qed.

Lemma split_join (l : list string) :
  l <> [] ->
  forallb (fun x => negb (has_slash x)) l = true ->
  split slash (join "/" l) = l.
Proof.
  induction l as [|x [|y l] IH]; intros Hne Hall; [done| |].
  - simpl in *. apply split_no_slash.
    rewrite andb_true_r in Hall. now apply negb_true_iff.
  - change (join "/" (x :: y :: l)) with (x +:+ String slash (join "/" (y :: l))).
    simpl forallb in Hall. apply andb_prop in Hall as [Hx Hl].
    rewrite split_app_slash by now apply negb_true_iff.
    f_equal. apply IH; [discriminate | exact Hl].
Qed.

Lemma filter_keep_part (l : list string) :
  forallb part_ok l = true -> List.filter keep_part l = l.
Proof.
  induction l as [|x l IH]; simpl; [reflexivity|].
  intros [[Hk _]%andb_prop Hl]%andb_prop. rewrite Hk, (IH Hl). reflexivity.
Qed.

Lemma part_ok_no_slash (l : list string) :
  forallb part_ok l = true -> forallb (fun x => negb (has_slash x)) l = true.
Proof.
  induction l as [|x l IH]; simpl; [reflexivity|].
  intros [[_ Hs]%andb_prop Hl]%andb_prop. now rewrite Hs, (IH Hl).
Qed.

Lemma part_ok_not_root (x : string) : part_ok x = true -> is_root x = false.
Proof.
  destruct x as [|a x]; [reflexivity|]. unfold part_ok. simpl.
  intros [_ Hs]%andb_prop. apply negb_true_iff, orb_false_iff in Hs.
  exact (proj1 Hs).
Qed.

Lemma is_root_join (x : string) (l : list string) :
  part_ok x = true -> is_root (join "/" (x :: l)) = false.
Proof.
  intros Hx. pose proof (part_ok_not_root x Hx) as Hr.
  destruct x as [|a x]; [discriminate|].
  destruct l; simpl in *; exact Hr.
Qed.

(** [Path(str(p)) == p] *)
Lemma Path_str (p : path) : normal p = true -> Path (str p) = p.
Proof.
  destruct p as [|r rest]; [reflexivity|].
  unfold normal. intros [[Hr Hrest]%andb_prop | Hall]%orb_prop.
  - apply String.eqb_eq in Hr. subst r. unfold str, Path. simpl is_root.
    cbv iota. change ("/" +:+ join "/" rest)%string
      with (String slash (join "/" rest)).
    change (split slash (String slash (join "/" rest)))
      with (EmptyString :: split slash (join "/" rest)).
    change (is_root (String slash (join "/" rest))) with true.
    cbv iota. simpl List.filter. f_equal.
    destruct rest as [|x rest]; [reflexivity|].
    rewrite split_join; [| discriminate | now apply part_ok_no_slash].
    now apply filter_keep_part.
  - pose proof Hall as Hall'. simpl in Hall'.
    apply andb_prop in Hall' as [Hr _].
    unfold str. rewrite (part_ok_not_root r Hr). unfold Path.
    rewrite (is_root_join r rest Hr).
    rewrite split_join; [| discriminate | now apply part_ok_no_slash].
    now apply filter_keep_part.
Qed.

End Paths.

(** ** Directories *)

Section Mkdir.
Implicit Types (w : World) (p q : path).

Lemma mkdir_parents_step p w :
  mkdir_parents p w =
  match os_mkdir p w with
  | (Ok _, w1) => (Ok tt, w1)
  | (Raise (FileNotFoundError m), w1) =>
      if decide (parent p = p) then (Raise (FileNotFoundError m), w1)
      else match mkdir_parents (parent p) w1 with
           | (Ok _, w2) => mkdir_exist_ok p w2
           | (Raise e, w2) => (Raise e, w2)
           end
  | (Raise e, w1) => if is_dir (fs w1) p then (Ok tt, w1) else (Raise e, w1)
  end.
Proof.
  rewrite mkdir_parents_equation_1.
  destruct (os_mkdir p w) as [[[]|e] w1].
  - now rewrite mkdir_parents_clause_1_equation_1.
  - destruct e; try (now simp mkdir_parents).
    rewrite mkdir_parents_clause_1_equation_2.
    destruct (decide (parent p = p)) as [He|Hne].
    + now rewrite mkdir_parents_clause_1_clause_2_equation_1.
    + rewrite mkdir_parents_clause_1_clause_2_equation_2.
      destruct (mkdir_parents (parent p) w1) as [[[]|e] w2].
      * now rewrite mkdir_parents_clause_1_clause_2_clause_2_equation_1.
      * now rewrite mkdir_parents_clause_1_clause_2_clause_2_equation_2.
Qed.

Lemma length_removelast_cons (l : path) : forall x,
  length (removelast (x :: l)) = length l.
Proof.
  induction l as [|y l IH]; intros x; [reflexivity|].
  change (removelast (x :: y :: l)) with (x :: removelast (y :: l)).
  change (S (length (removelast (y :: l))) = S (length l)).
  now rewrite IH.
Qed.

Lemma parent_shorter p : parent p <> p -> (length (parent p) < length p)%nat.
Proof.
  destruct p as [|a [|b q]]; simpl; intros Hpp.
  - congruence.
  - destruct (is_root a); [congruence | simpl; lia].
  - pose proof (length_removelast_cons q b) as Hlen. simpl in Hlen |- *. lia.
Qed.

(** What [os.mkdir] does, by cases on the file system. *)
Lemma os_mkdir_cases p w :
  (exists nd, node_at (fs w) p = Some nd
     /\ os_mkdir p w = (Raise (FileExistsError (str p)), w))
  \/ (node_at (fs w) p = None /\ parent p <> p
      /\ ((node_at (fs w) (parent p) = Some Dir
           /\ os_mkdir p w = (Ok tt, set_fs (<[p := Dir]> (fs w)) w))
          \/ (exists d, node_at (fs w) (parent p) = Some (File d)
              /\ os_mkdir p w = (Raise (NotADirectoryError (str p)), w))
          \/ (node_at (fs w) (parent p) = None
              /\ os_mkdir p w = (Raise (FileNotFoundError (str p)), w)))).
Proof.
  unfold os_mkdir. destruct (node_at (fs w) p) as [nd|] eqn:Hp.
  - left. now exists nd.
  - right. split; [reflexivity|]. split.
    { intros Hpp. unfold node_at in Hp. now destruct (decide (parent p = p)). }
    destruct (node_at (fs w) (parent p)) as [[|d]|].
    + now left.
    + right. left. now exists d.
    + right. now right.
Qed.

Lemma extends_dirs_refl w : extends_dirs w w.
Proof. repeat split. intros q. now left. Qed.

Lemma extends_dirs_trans w1 w2 w3 :
  extends_dirs w1 w2 -> extends_dirs w2 w3 -> extends_dirs w1 w3.
Proof.
  intros (Ho1 & Hs1 & H1) (Ho2 & Hs2 & H2).
  split; [congruence|]. split; [congruence|]. intros q.
  destruct (H1 q) as [E1|[N1 D1]], (H2 q) as [E2|[N2 D2]].
  - left. congruence.
  - right. split; congruence.
  - right. split; congruence.
  - congruence.
Qed.

Lemma extends_dirs_insert w p :
  node_at (fs w) p = None ->
  extends_dirs w (set_fs (<[p := Dir]> (fs w)) w).
Proof.
  intros Hp. repeat split. intros q. simpl.
  destruct (decide (p = q)) as [<-|Hne].
  - right. split; [exact Hp|]. apply node_at_insert_same.
    intros Hpp. unfold node_at in Hp. now destruct (decide (parent p = p)).
  - left. now apply node_at_insert_other.
Qed.

Lemma os_mkdir_extends p w r w' :
  os_mkdir p w = (r, w') ->
  extends_dirs w w'
  /\ (r = Ok tt -> is_dir (fs w') p = true)
  /\ (forall e, r = Raise e -> w' = w).
Proof.
  intros H.
  destruct (os_mkdir_cases p w)
    as [(nd & Hp & E) | (Hp & Hpp & [(Hd & E) | [(d & Hd & E) | (Hd & E)]])];
    rewrite E in H; injection H as <- <-;
    (split; [first [apply extends_dirs_refl | now apply extends_dirs_insert]|]);
    (split; [try discriminate | try reflexivity]).
  - intros _. unfold is_dir. simpl. now rewrite node_at_insert_same.
  - discriminate.
Qed.

Lemma mkdir_exist_ok_extends p w r w' :
  mkdir_exist_ok p w = (r, w') ->
  extends_dirs w w' /\ (r = Ok tt -> is_dir (fs w') p = true).
Proof.
  unfold mkdir_exist_ok, try_except. intros H.
  destruct (os_mkdir p w) as [[[]|e] w1] eqn:E;
    destruct (os_mkdir_extends p w _ _ E) as (Hx & Hd & Hw).
  - injection H as <- <-. split; [exact Hx | exact Hd].
  - destruct (is_dir (fs w1) p) eqn:Hdir; injection H as <- <-;
      (split; [exact Hx|]); [intros _; exact Hdir | discriminate].
Qed.

Lemma mkdir_parents_extends p : forall w r w',
  mkdir_parents p w = (r, w') ->
  extends_dirs w w' /\ (r = Ok tt -> is_dir (fs w') p = true).
Proof.
  induction p as [p IH] using (induction_ltof1 _ (@length string)).
  unfold ltof in IH. intros w r w'. rewrite mkdir_parents_step.
  destruct (os_mkdir p w) as [[[]|e] w1] eqn:E;
    destruct (os_mkdir_extends p w _ _ E) as (Hx & Hd & Hw).
  - intros [= <- <-]. split; [exact Hx | exact Hd].
  - assert (Hgen : (if is_dir (fs w1) p then (Ok tt, w1) else (Raise e, w1))
                   = (r, w') ->
                   extends_dirs w w' /\ (r = Ok tt -> is_dir (fs w') p = true)).
    { destruct (is_dir (fs w1) p) eqn:Hdir; intros [= <- <-];
        (split; [exact Hx|]); [intros _; exact Hdir | discriminate]. }
    destruct e; try exact Hgen.
    destruct (decide (parent p = p)) as [Hpp|Hpp].
    { intros [= <- <-]. split; [exact Hx | discriminate]. }
    destruct (mkdir_parents (parent p) w1) as [[[]|e] w2] eqn:Erec.
    + intros Hm. pose proof (parent_shorter p Hpp) as Hlt.
      destruct (IH _ Hlt _ _ _ Erec) as (Hx2 & _).
      destruct (mkdir_exist_ok_extends p w2 _ _ Hm) as (Hx3 & Hd3).
      split; [|exact Hd3].
      eapply extends_dirs_trans; [exact Hx|].
      eapply extends_dirs_trans; [exact Hx2 | exact Hx3].
    + intros [= <- <-].
      pose proof (parent_shorter p Hpp) as Hlt.
      destruct (IH _ Hlt _ _ _ Erec) as (Hx2 & _).
      split; [|discriminate].
      eapply extends_dirs_trans; [exact Hx | exact Hx2].
Qed.

Lemma is_dir_node (f : gmap path node) p :
  is_dir f p = true <-> node_at f p = Some Dir.
Proof.
  unfold is_dir. destruct (node_at f p) as [[|d]|]; split; congruence.
Qed.

(** [exist_ok=True]: on a directory that exists the call changes nothing. *)
Lemma mkdir_parents_existing p w :
  is_dir (fs w) p = true -> mkdir_parents p w = (Ok tt, w).
Proof.
  intros Hd. rewrite mkdir_parents_step.
  destruct (os_mkdir_cases p w) as [(nd & Hp & E) | (Hp & _)].
  - rewrite E, Hd. reflexivity.
  - apply is_dir_node in Hd. congruence.
Qed.



End Mkdir.

(** ** File names *)

Section Names.

Lemma length_append (a b : string) :
  String.length (a +:+ b) = (String.length a + String.length b)%nat.
Proof. induction a as [|c a IH]; simpl; [reflexivity | now rewrite IH]. Qed.

Lemma substring_whole (s : string) :
  String.substring 0 (String.length s) s = s.
Proof. induction s as [|c s IH]; simpl; [reflexivity | now rewrite IH]. Qed.

Lemma substring_head (a b : string) :
  String.substring 0 (String.length a) (a +:+ b) = a.
Proof.
  induction a as [|c a IH]; simpl.
  - now destruct b.
  - now rewrite IH.
Qed.

Lemma substring_tail (a b : string) :
  String.substring (String.length a) (String.length b) (a +:+ b) = b.
Proof.
  induction a as [|c a IH]; simpl; [apply substring_whole | exact IH].
Qed.

Lemma length_substring_le (s : string) : forall n m,
  (String.length (String.substring n m s) <= m)%nat.
Proof.
  induction s as [|c s IH]; intros [|n] [|m]; simpl; try lia.
  - specialize (IH 0%nat m). lia.
  - apply (IH n 0%nat).
  - apply (IH n (S m)).
Qed.

Lemma rfind_app_dot (stem e : string) :
  rfind dot e = None ->
  rfind dot (stem +:+ String dot e) = Some (String.length stem).
Proof.
  intros He. induction stem as [|c stem IH]; simpl.
  - now rewrite He.
  - now rewrite IH.
Qed.

(** The suffix of a name is strictly shorter than the name. *)
Lemma suffix_of_shorter (nm : string) :
  nm <> EmptyString ->
  (String.length (suffix_of nm) < String.length nm)%nat.
Proof.
  intros Hne. unfold suffix_of.
  assert (H0 : (0 < String.length nm)%nat) by (destruct nm; [done | simpl; lia]).
  destruct (rfind dot nm) as [i|]; [|exact H0].
  destruct ((0 <? i)%nat && (S i <? String.length nm)%nat) eqn:Hc; [|exact H0].
  apply andb_prop in Hc as [Hi Hl].
  apply Nat.ltb_lt in Hi. apply Nat.ltb_lt in Hl.
  pose proof (length_substring_le nm i (String.length nm - i)). lia.
Qed.

(** [with_suffix] on a name [stem + '.' + e]: the old suffix [.e] gives way
    to the new one. *)
Lemma replace_suffix_ext (stem e sfx : string) :
  stem <> EmptyString -> e <> EmptyString -> rfind dot e = None ->
  replace_suffix (stem +:+ String dot e) sfx = stem +:+ sfx.
Proof.
  intros Hs He Hd. unfold replace_suffix, suffix_of.
  rewrite (rfind_app_dot stem e Hd), length_append. simpl String.length.
  assert (H1 : (0 < String.length stem)%nat)
    by (destruct stem; [done | simpl; lia]).
  assert (H2 : (0 < String.length e)%nat)
    by (destruct e; [done | simpl; lia]).
  replace (0 <? String.length stem)%nat with true
    by (symmetry; now apply Nat.ltb_lt).
  replace (S (String.length stem) <?
           String.length stem + S (String.length e))%nat with true
    by (symmetry; apply Nat.ltb_lt; lia).
  simpl andb. cbv iota.
  replace (String.length stem + S (String.length e) - String.length stem)%nat
    with (String.length (String dot e)) by (simpl; lia).
  rewrite substring_tail. simpl String.length.
  replace (String.length stem + S (String.length e) - S (String.length e))%nat
    with (String.length stem) by lia.
  now rewrite substring_head.
Qed.

(** The renamed file keeps the first character of the name. *)
Lemma replace_suffix_not_root (nm sfx : string) :
  nm <> EmptyString -> is_root (replace_suffix nm sfx) = is_root nm.
Proof.
  intros Hne. pose proof (suffix_of_shorter nm Hne) as Hlt.
  unfold replace_suffix.
  destruct (String.length nm - String.length (suffix_of nm))%nat as [|k] eqn:Hk;
    [lia|].
  destruct nm as [|c nm]; [done|]. reflexivity.
Qed.

End Names.

(** ** Mapping an input file to its output *)

Section Mapping.
Implicit Types (w : World) (p q rel : path).

Lemma strip_prefix_app (root rel : path) :
  strip_prefix root (root ++ rel) = Some rel.
Proof.
  induction root as [|a root IH]; simpl; [now destruct rel|].
  now rewrite String.eqb_refl.
Qed.

Lemma forallb_last (l : list string) (f : string -> bool) :
  l <> [] -> forallb f l = true -> f (List.last l EmptyString) = true.
Proof.
  induction l as [|a [|b l] IH]; intros Hne Hall; [done| |].
  - simpl in *. now rewrite andb_true_r in Hall.
  - change (List.last (a :: b :: l) EmptyString)
      with (List.last (b :: l) EmptyString).
    simpl forallb in Hall. apply andb_prop in Hall as [_ Hall].
    apply IH; [discriminate | exact Hall].
Qed.

Lemma parent_snoc (l : path) (x : string) :
  is_root x = false -> parent (l ++ [x]) = l.
Proof.
  intros Hx. destruct l as [|a [|b l]].
  - simpl. now rewrite Hx.
  - reflexivity.
  - change (parent ((a :: b :: l) ++ [x]))
      with (removelast ((a :: b :: l) ++ [x])).
    apply removelast_last.
Qed.

Lemma joinpath_relative (a : path) (r : string) (rest : path) :
  is_root r = false -> joinpath a (r :: rest) = a ++ r :: rest.
Proof. intros Hr. unfold joinpath. now rewrite Hr. Qed.

Lemma name_of_parts rel :
  rel <> [] -> forallb part_ok rel = true ->
  name rel = List.last rel EmptyString
  /\ name rel <> EmptyString /\ is_root (name rel) = false.
Proof.
  intros Hne Hall. pose proof (forallb_last rel part_ok Hne Hall) as Hl.
  unfold name. rewrite (part_ok_not_root _ Hl).
  split; [reflexivity|]. split; [|now apply part_ok_not_root].
  intros He. rewrite He in Hl. discriminate.
Qed.


End Mapping.

(** ** Enumeration *)

#[local] Arguments String.append : simpl nomatch.

Section Enumeration.
Context {Pixels : Type} {codec : Codec Pixels}.
Implicit Types (w : World) (p q : path).

Lemma endswith_spec (s sfx : string) :
  endswith s sfx = true <-> exists pre, s = pre +:+ sfx.
Proof.
  induction s as [|c s IH].
  - cbn [endswith]. destruct (String.eqb_spec EmptyString sfx) as [<-|Hne].
    + split; [now exists EmptyString | reflexivity].
    + split; [discriminate|]. intros [pre Hpre].
      destruct pre as [|c' pre].
      * change (EmptyString = sfx) in Hpre. congruence.
      * change (EmptyString = String c' (pre +:+ sfx)) in Hpre. discriminate.
  - cbn [endswith]. destruct (String.eqb_spec (String c s) sfx) as [<-|Hne].
    + split; [now exists EmptyString | reflexivity].
    + rewrite IH. split.
      * intros [pre ->]. now exists (String c pre).
      * intros [pre Hpre]. destruct pre as [|c' pre].
        -- change (String c s = sfx) in Hpre. congruence.
        -- change (String c s = String c' (pre +:+ sfx)) in Hpre.
           injection Hpre as -> ->. now exists pre.
Qed.

Lemma append_assoc (a b c : string) : (a +:+ b) +:+ c = a +:+ (b +:+ c).
Proof. induction a as [|x a IH]; simpl; [reflexivity | now rewrite IH]. Qed.

Lemma endswith_app (pre s sfx : string) :
  endswith s sfx = true -> endswith (pre +:+ s) sfx = true.
Proof.
  rewrite !endswith_spec. intros [x ->]. exists (pre +:+ x).
  now rewrite append_assoc.
Qed.

(** Two tails of one string that have the same length are equal. *)
Lemma same_length_tails (a b x y : string) :
  a +:+ x = b +:+ y -> String.length x = String.length y -> x = y.
Proof.
  revert b. induction a as [|c a IH]; intros [|c' b] He Hl; simpl in He.
  - exact He.
  - apply (f_equal String.length) in He. simpl in He.
    rewrite length_append in He. lia.
  - apply (f_equal String.length) in He. simpl in He.
    rewrite length_append in He. lia.
  - injection He as _ He. now apply (IH b).
Qed.

Lemma length_lower (s : string) : String.length (lower s) = String.length s.
Proof. induction s as [|c s IH]; simpl; [reflexivity | now rewrite IH]. Qed.

(** A name cannot end both with [ext] and with a different spelling of
    [ext]. *)
Lemma endswith_other_case (nm sfx ext : string) :
  lower sfx = ext -> sfx <> ext ->
  endswith nm sfx = true -> endswith nm ext = false.
Proof.
  intros Hlow Hne [a Ha]%endswith_spec.
  destruct (endswith nm ext) eqn:He; [|reflexivity].
  apply endswith_spec in He as [b Hb]. rewrite Ha in Hb.
  destruct Hne. apply (same_length_tails a b); [exact Hb|].
  now rewrite <- Hlow, length_lower.
Qed.

Lemma join_last (l : list string) :
  l <> [] -> exists pre, join "/" l = pre +:+ List.last l EmptyString.
Proof.
  induction l as [|a [|b l] IH]; intros Hne; [done| |].
  - now exists EmptyString.
  - destruct IH as [pre Hpre]; [discriminate|].
    exists (a +:+ "/" +:+ pre).
    change (join "/" (a :: b :: l)) with (a +:+ "/" +:+ join "/" (b :: l)).
    change (List.last (a :: b :: l) EmptyString)
      with (List.last (b :: l) EmptyString).
    now rewrite Hpre, !append_assoc.
Qed.

(** [str(p)] ends with [p.name]. *)
Lemma str_ends_with_name p :
  name p <> EmptyString -> exists pre, str p = pre +:+ name p.
Proof.
  unfold name. intros Hn.
  destruct (is_root (List.last p EmptyString)) eqn:Hr; [done|].
  destruct p as [|r rest]; [done|]. unfold str.
  destruct (is_root r) eqn:Hrr.
  - destruct rest as [|x rest]; [simpl in Hr; congruence|].
    destruct (join_last (x :: rest)) as [pre Hpre]; [discriminate|].
    exists (r +:+ pre).
    change (List.last (r :: x :: rest) EmptyString)
      with (List.last (x :: rest) EmptyString).
    now rewrite Hpre, append_assoc.
  - apply join_last. discriminate.
Qed.

Lemma endswith_str p ext :
  ext <> EmptyString ->
  endswith (name p) ext = true -> endswith (str p) ext = true.
Proof.
  intros Hext He.
  assert (Hn : name p <> EmptyString).
  { intros Hn. rewrite Hn in He. cbn [endswith] in He.
    destruct (String.eqb_spec EmptyString ext); congruence. }
  destruct (str_ends_with_name p Hn) as [pre ->]. now apply endswith_app.
Qed.

(** The entries that [glob] returns. *)
Lemma glob_rec_spec root ext w :
  exists l, glob_rec root ext w = (Ok l, w)
    /\ forall p, In p l <->
         (exists nd, fs w !! p = Some nd)
         /\ is_below root p = true /\ endswith (name p) ext = true.
Proof.
  eexists. split; [reflexivity|]. intros p.
  rewrite filter_In, in_map_iff, andb_true_iff. split.
  - intros [([q nd] & <- & Hin) Hc]. split; [|exact Hc].
    exists nd. now apply elem_of_map_to_list, list_elem_of_In.
  - intros [[nd Hnd] Hc]. split; [|exact Hc].
    exists (p, nd). split; [reflexivity|].
    now apply list_elem_of_In, elem_of_map_to_list.
Qed.

Lemma extend_globs_spec root (exts : list string) : forall files w,
  exists l, extend_globs root exts files w = (Ok l, w)
    /\ forall p, In p l <->
         In p files
         \/ exists ext, In ext exts
              /\ (exists nd, fs w !! p = Some nd)
              /\ is_below root p = true /\ endswith (name p) ext = true.
Proof.
  induction exts as [|ext exts IH]; intros files w.
  - exists files. split; [reflexivity|]. intros p. split; [now left|].
    intros [H|(e & [] & _)]. exact H.
  - destruct (glob_rec_spec root ext w) as (found & Hg & Hfound).
    destruct (IH (files ++ found) w) as (l & Hl & Hin).
    exists l. split.
    { simpl. unfold bind. now rewrite Hg. }
    intros p. rewrite Hin, in_app_iff, Hfound. split.
    + intros [[H|H]|(e & He & H)].
      * now left.
      * right. exists ext. split; [now left | exact H].
      * right. exists e. split; [now right | exact H].
    + intros [H|(e & [<-|He] & H)].
      * left. now left.
      * left. now right.
      * right. now exists e.
Qed.

(** The tasks of the optimisation stage, one per listed file. *)
Lemma optimization_tasks_inputs (input_dir output_dir : string)
    (png_files : list path) : forall tasks total w tasks' total' w',
  optimization_tasks png_files input_dir output_dir tasks total w
    = (Ok (tasks', total'), w') ->
  map fst tasks' = map fst tasks ++ map str png_files.
Proof.
  induction png_files as [|p png_files IH]; intros tasks total w tasks' total' w'.
  - simpl. intros [= <- <- <-]. now rewrite app_nil_r.
  - simpl. unfold bind.
    destruct (mirrored_output p input_dir output_dir ".jpg" w)
      as [[out|e] w1]; [|discriminate].
    destruct (getsize (str p) w1) as [[n|e] w2]; [|discriminate].
    intros H. apply IH in H. rewrite H, map_app. simpl.
    now rewrite <- app_assoc.
Qed.

Lemma get_files_for_conversion_spec (input_dir ctype : string) w :
  exists files, get_files_for_conversion input_dir ctype w = (Ok files, w)
    /\ forall p, In p files <->
         exists ext,
           In ext (if String.eqb ctype "HEIC"
                   then [".heic"; ".HEIC"; ".heif"; ".HEIF"]%string
                   else [".cr2"; ".CR2"]%string)
           /\ (exists nd, fs w !! p = Some nd)
           /\ is_below (Path input_dir) p = true
           /\ endswith (name p) ext = true.
Proof.
  unfold get_files_for_conversion.
  destruct (extend_globs_spec (Path input_dir)
              (if String.eqb ctype "HEIC"
               then [".heic"; ".HEIC"; ".heif"; ".HEIF"]%string
               else [".cr2"; ".CR2"]%string) [] w) as (l & Hl & Hin).
  exists l. split; [exact Hl|]. intros p. rewrite Hin. split.
  - intros [[]|H]. exact H.
  - intros H. now right.
Qed.

(** C9: a file below the input directory whose name ends with [.PNG], or
    with any other spelling of [.png] that is not all lower case, is not
    listed by the optimisation stage and no optimisation task reads it;
    the conversion stage, in contrast, lists the names that end with
    [.heic], [.HEIC], [.heif], [.HEIF] (type HEIC) or [.cr2], [.CR2] (any
    other type). *)
Theorem optimization_lists_lowercase_png_only w (input_dir output_dir : string)
    p nd sfx :
  fs w !! p = Some nd ->
  is_below (Path input_dir) p = true ->
  endswith (name p) sfx = true ->
  lower sfx = ".png"%string ->
  sfx <> ".png"%string ->
  exists png_files,
    glob_rec (Path input_dir) ".png" w = (Ok png_files, w)
    /\ ~ In p png_files
    /\ (forall w1 tasks total w2,
          optimization_tasks png_files input_dir output_dir [] 0%Q w1
            = (Ok (tasks, total), w2) ->
          map fst tasks = map str png_files /\ ~ In (str p) (map fst tasks))
    /\ (forall q nd' ext,
          fs w !! q = Some nd' ->
          is_below (Path input_dir) q = true ->
          endswith (name q) ext = true ->
          (In ext [".heic"; ".HEIC"; ".heif"; ".HEIF"]%string ->
           exists files,
             get_files_for_conversion input_dir "HEIC" w = (Ok files, w)
             /\ In q files)
          /\ (In ext [".cr2"; ".CR2"]%string ->
              exists files,
                get_files_for_conversion input_dir "CR2" w = (Ok files, w)
                /\ In q files)).
Proof.
  intros Hp Hbelow Hends Hlow Hne.
  destruct (glob_rec_spec (Path input_dir) ".png" w) as (l & Hl & Hin).
  exists l. split; [exact Hl|].
  assert (Hsfx : sfx <> EmptyString) by (intros ->; discriminate).
  split; [|split].
  - intros (_ & _ & Hc)%Hin.
    now rewrite (endswith_other_case _ sfx ".png" Hlow Hne Hends) in Hc.
  - intros w1 tasks total w2 Ht.
    apply optimization_tasks_inputs in Ht. simpl in Ht.
    split; [exact Ht|]. rewrite Ht. intros (q & Hq & Hql)%in_map_iff.
    apply Hin in Hql as (_ & _ & Hc).
    apply endswith_str in Hc; [|discriminate]. rewrite Hq in Hc.
    pose proof (endswith_str p sfx Hsfx Hends) as Hs.
    now rewrite (endswith_other_case _ sfx ".png" Hlow Hne Hs) in Hc.
  - intros q nd' ext Hq Hqb Hqe. split; intros Hext.
    + destruct (get_files_for_conversion_spec input_dir "HEIC" w)
        as (files & Hf & Hfin).
      exists files. split; [exact Hf|]. apply Hfin. exists ext. eauto.
    + destruct (get_files_for_conversion_spec input_dir "CR2" w)
        as (files & Hf & Hfin).
      exists files. split; [exact Hf|]. apply Hfin. exists ext. eauto.
Qed.

End Enumeration.

(** ** Totals of the optimisation stage *)

Section Totals.
Context {Pixels : Type} {codec : Codec Pixels}.
Variable schedule : list task -> list task.
Hypothesis schedule_perm : forall ts, Permutation ts (schedule ts).
Implicit Types (w : World) (p q : path) (mx : Q).

Lemma mirrored_output_extends p (input_dir output_dir sfx : string) w r w' :
  mirrored_output p input_dir output_dir sfx w = (r, w') -> extends_dirs w w'.
Proof.
  unfold mirrored_output, bind, lift.
  destruct (relative_to _ _) as [rel|e];
    [|intros [= <- <-]; apply extends_dirs_refl].
  destruct (with_suffix _ _) as [renamed|e];
    [|intros [= <- <-]; apply extends_dirs_refl].
  destruct (mkdir_parents _ w) as [[[]|e] w1] eqn:Hm;
    intros [= <- <-]; exact (proj1 (mkdir_parents_extends _ _ _ _ Hm)).
Qed.

Lemma keeps_nodes_extends f w w' :
  keeps_nodes f w -> extends_dirs w w' -> keeps_nodes f w'.
Proof.
  intros Hk (_ & _ & Hx) q nd Hq. apply Hk in Hq.
  destruct (Hx q) as [-> | [Hn _]]; congruence.
Qed.

Lemma getsize_kept f w p nd :
  keeps_nodes f w -> normal p = true -> node_at f p = Some nd ->
  getsize (str p) w = (Ok (file_size f p), w).
Proof.
  intros Hk Hn Hp. unfold getsize, file_size.
  rewrite (Path_str p Hn), (Hk _ _ Hp), Hp. now destruct nd.
Qed.

(** The loop of lines 102-107 adds up the sizes of all listed files. *)
Lemma optimization_tasks_total f (input_dir output_dir : string)
    (png_files : list path) : forall tasks total w tasks' total' w',
  keeps_nodes f w ->
  Forall (fun p => normal p = true /\ exists nd, node_at f p = Some nd)
    png_files ->
  optimization_tasks png_files input_dir output_dir tasks total w
    = (Ok (tasks', total'), w') ->
  total' = fold_left (fun acc p => (acc + megabytes (file_size f p))%Q)
             png_files total
  /\ length tasks' = (length tasks + length png_files)%nat.
Proof.
  induction png_files as [|p png_files IH];
    intros tasks total w tasks' total' w' Hk Hall.
  - simpl. intros [= <- <- <-]. split; [reflexivity | lia].
  - apply Forall_cons in Hall as [(Hn & nd & Hp) Hall]. simpl. unfold bind.
    destruct (mirrored_output p input_dir output_dir ".jpg" w)
      as [[out|e] w1] eqn:Hm; [|discriminate].
    apply mirrored_output_extends in Hm.
    pose proof (keeps_nodes_extends f w w1 Hk Hm) as Hk1.
    rewrite (getsize_kept f w1 p nd Hk1 Hn Hp).
    intros H. apply IH in H as [-> Hlen]; [|exact Hk1|exact Hall].
    split; [reflexivity|]. rewrite Hlen, length_app. simpl. lia.
Qed.

Lemma loop_body_accepts (img : image Pixels) o mx (ql : Z) w r w1 :
  loop_body img o mx ql w = (Ok (Some r), w1) -> fst r = true.
Proof.
  unfold loop_body, bind, ret.
  destruct (Image_save_jpeg img o ql w) as [[[]|e] w2]; [|discriminate].
  destruct (getsize o w2) as [[n|e] w3]; [|discriminate].
  destruct (Qle_bool _ _ || _); [|discriminate].
  now intros [= <- <-].
Qed.

Lemma save_loop_accepts (img : image Pixels) o mx (n : nat) :
  forall (ql : Z) w b s w',
    ql < 30 + 5 * Z.of_nat n ->
    save_loop img o mx ql w = (Ok (b, s), w') -> b = true.
Proof.
  induction n as [|n IH]; intros ql w b s w' Hq; rewrite save_loop_step;
    destruct (loop_body img o mx ql w) as [[[r|]|e] w1] eqn:Hb;
    try discriminate;
    try (intros [= -> <-]; now apply loop_body_accepts in Hb).
  - apply loop_body_continue in Hb. lia.
  - apply loop_body_continue in Hb. apply IH. lia.
Qed.

(** A failed optimisation returns the size 0. *)
Lemma optimize_png_failure_size i o mx w b s w' :
  optimize_png i o mx w = (Ok (b, s), w') -> b = false -> s = 0%Q.
Proof.
  unfold optimize_png, try_except.
  destruct (optimize_png_try_cases i o mx w)
    as [[e ->] | (img0 & r & img & _ & _ & _ & ->)];
    [now intros [= <- <- <-]|].
  destruct (save_loop img o mx 90 w) as [[[b' s']|e] w3] eqn:Hl;
    [|now intros [= <- <- <-]].
  intros [= <- <- <-] ->.
  apply (save_loop_accepts _ _ _ 13) in Hl; [discriminate | lia].
Qed.

Lemma run_futures_values {A} (call : string -> string -> M A) (P : A -> Prop) :
  (forall i o w a w', call i o w = (Ok a, w') -> P a) ->
  forall ts w rs w', run_futures call ts w = (map Ok rs, w') -> Forall P rs.
Proof.
  intros Hcall. induction ts as [|[i o] ts IH]; intros w rs w'; simpl.
  - destruct rs; [constructor | discriminate].
  - destruct (call i o w) as [r w1] eqn:Hc.
    destruct (run_futures call ts w1) as [rs' w2] eqn:Hr.
    destruct rs as [|a rs]; [discriminate|]. simpl. intros [= -> Hrs <-].
    constructor; [now apply (Hcall i o w a w1) | apply (IH w1 rs w2)].
    now rewrite Hr, Hrs.
Qed.

Lemma optimized_sum_successes (rs : list (bool * Q)) : forall t,
  fold_left add_optimized rs t
  = fold_left Qplus (map snd (List.filter fst rs)) t.
Proof.
  induction rs as [|[[] s] rs IH]; intros t; simpl; [reflexivity| |];
    now rewrite IH.
Qed.

Lemma node_at_of_lookup (f : gmap path node) p nd :
  f !! p = Some nd -> exists nd', node_at f p = Some nd'.
Proof.
  intros Hp. unfold node_at. destruct (decide (parent p = p)); eauto.
Qed.

(** C10: the original total adds the size of every listed file, whether
    its optimisation succeeds or not; the optimised total adds the sizes
    that the calls of [optimize_png] on the tasks of these files returned,
    those of the successful calls only, and a failed call returns 0. The
    counters count the same results. *)
Theorem optimization_totals_have_different_scopes w
    (input_dir output_dir : string) mw mx totals w' :
  (forall p nd, fs w !! p = Some nd -> normal p = true) ->
  process_optimization schedule input_dir output_dir mw mx w
    = (Ok (Some totals), w') ->
  exists png_files rs,
    glob_rec (Path input_dir) ".png" w = (Ok png_files, w)
    /\ length rs = length png_files
    /\ total_original_size totals
       = fold_left (fun acc p => (acc + megabytes (file_size (fs w) p))%Q)
           png_files 0%Q
    /\ total_optimized_size totals
       = fold_left Qplus (map snd (List.filter fst rs)) 0%Q
    /\ success totals = succeeded (map fst rs)
    /\ fail totals = failed (map fst rs)
    /\ Forall (fun r => fst r = false -> snd r = 0%Q) rs
    /\ exists tasks w0 w1 w2,
         fs w0 = fs w /\ saves w0 = saves w
         /\ optimization_tasks png_files input_dir output_dir [] 0%Q w0
            = (Ok (tasks, total_original_size totals), w1)
         /\ map fst tasks = map str png_files
         /\ run_futures (fun i o => optimize_png i o mx) (schedule tasks) w1
            = (map Ok rs, w2)
         /\ fs w' = fs w2 /\ saves w' = saves w2.
Proof.
  intros Hnormal. unfold process_optimization, bind.
  destruct (glob_rec_spec (Path input_dir) ".png" w) as (l & Hl & Hin).
  rewrite Hl. destruct l as [|p0 l]; [discriminate|].
  set (files := p0 :: l) in *. unfold print at 1.
  set (w0 := mkWorld (fs w) _ (saves w)).
  destruct (optimization_tasks files input_dir output_dir [] 0%Q w0)
    as [[[tasks total]|e] w1] eqn:Ht; [|discriminate].
  destruct (optimization_pool schedule tasks mw mx w1)
    as [[[[s f] t]|e] w2] eqn:Hpool; [|discriminate].
  unfold print, ret. intros [= <- <-]. simpl.
  assert (Hmw : 0 < mw).
  { destruct (Z.leb_spec mw 0) as [Hle|]; [|assumption].
    unfold optimization_pool, ThreadPoolExecutor, bind in Hpool.
    replace (mw <=? 0) with true in Hpool by (symmetry; now apply Z.leb_le).
    discriminate. }
  destruct (optimization_pool_counts schedule schedule_perm tasks mw mx w1 Hmw)
    as (rs & w3 & Hrun & Hcount & Hlen).
  rewrite Hcount in Hpool. injection Hpool as <- <- <- <-.
  pose proof (optimization_tasks_inputs _ _ _ _ _ _ _ _ _ Ht) as Hinputs.
  pose proof Ht as Ht'.
  apply (optimization_tasks_total (fs w)) in Ht as [-> Htl].
  - exists files, rs. split; [reflexivity|].
    split; [now rewrite Hlen, Htl|]. split; [reflexivity|].
    split; [apply optimized_sum_successes|].
    split; [reflexivity|]. split; [reflexivity|]. split.
    + eapply run_futures_values; [|exact Hrun].
      intros i o wa [b sz] wb Hcall. simpl.
      exact (optimize_png_failure_size i o mx wa b sz wb Hcall).
    + exists tasks, w0, w1, w3. now repeat split.
  - intros q nd Hq. exact Hq.
  - apply Forall_forall. intros p Hp.
    apply list_elem_of_In, Hin in Hp as ((nd & Hnd) & _).
    split; [exact (Hnormal p nd Hnd) | exact (node_at_of_lookup _ _ _ Hnd)].
Qed.

End Totals.

(** * Worked examples *)

(** C1 on three conversion tasks, completed in reverse order. *)
Lemma counters_sum_to_task_count_example :
  0 < 2
  /\ (exists success fail w',
        conversion_pool (@rev task) toy_tasks
          (convert_heic_to_png (codec := toy_codec 1)) 2 toy_world
          = (Ok (success, fail), w')
        /\ success + fail = Z.of_nat (length toy_tasks))
  /\ (exists success fail total_optimized_size w',
        optimization_pool (codec := toy_codec 1) (@rev task) toy_tasks 2
          15%Q toy_world
          = (Ok (success, fail, total_optimized_size), w')
        /\ success + fail = Z.of_nat (length toy_tasks)).
Proof.
  split; [lia|].
  apply (counters_sum_to_task_count (codec := toy_codec 1) (@rev task)
           (@Permutation_rev task) toy_tasks
           (convert_heic_to_png (codec := toy_codec 1)) 2 15%Q toy_world).
  - lia.
  - left. reflexivity.
Defined.

(** C2 with a limit of 50 bytes and an encoder that writes [quality]
    bytes: the search stops at quality 50. *)
Lemma size_search_accepts_first_fit_example :
  writable toy_world "/out/a.jpg" = true
  /\ exists tried q' rest w',
       [90; 85; 80; 75; 70; 65; 60; 55; 50; 45; 40; 35; 30; 25]
         = tried ++ q' :: rest
       /\ save_loop (codec := toy_codec 1) toy_image "/out/a.jpg"
            (50 # 1048576) 90 toy_world
          = (Ok (true, megabytes (Z.of_nat (length (blob (1 * q'))))), w').
Proof.
  split; [reflexivity|].
  destruct (size_search_accepts_first_fit (codec := toy_codec 1) toy_image
              "/out/a.jpg" (50 # 1048576) toy_world (fun q => blob (1 * q))
              eq_refl (fun q => eq_refl))
    as (tried & q' & rest & w' & Hl & _ & _ & Hrun & _).
  exists tried, q', rest, w'. split; [exact Hl | exact Hrun].
Defined.

(** C3 as stated fails: with a limit that no encode meets, the encoder is
    called 14 times, at the qualities 90, 85, ..., 30, 25. *)
Lemma size_search_needs_14_encodes :
  map ev_quality
    (saves (snd (save_loop (codec := toy_codec 1) toy_image "/out/a.jpg"
                   0%Q 90 toy_world)))
  = map Some [25; 30; 35; 40; 45; 50; 55; 60; 65; 70; 75; 80; 85; 90]
  /\ encode_attempts toy_world
       (snd (save_loop (codec := toy_codec 1) toy_image "/out/a.jpg"
               0%Q 90 toy_world)) = 14%nat
  /\ ~ (forall (img : image unit) o mx w,
          (encode_attempts w (snd (save_loop (codec := toy_codec 1) img o mx 90 w))
           <= 13)%nat).
Proof.
  split; [vm_compute; reflexivity|]. split; [vm_compute; reflexivity|].
  intros H. specialize (H toy_image "/out/a.jpg"%string 0%Q toy_world).
  vm_compute in H. lia.
Qed.

(** C4 with the default limit of 15 MB. *)
Lemma size_search_one_encode_when_small_example :
  (megabytes (Z.of_nat (length (blob 90))) <= 15)%Q
  /\ save_loop (codec := toy_codec 1) toy_image "/out/a.jpg" 15%Q 90 toy_world
     = (Ok (true, megabytes (Z.of_nat (length (blob 90)))),
        after_save toy_image "/out/a.jpg" 90 (blob 90) toy_world).
Proof.
  assert (Hle : (megabytes (Z.of_nat (length (blob 90))) <= 15)%Q)
    by (apply Qle_bool_iff; reflexivity).
  split; [exact Hle|].
  exact (proj1 (size_search_one_encode_when_small (codec := toy_codec 1)
                  toy_image "/out/a.jpg" 15%Q toy_world (blob 90)
                  eq_refl eq_refl Hle)).
Defined.

(** C5 as stated fails: the specification's formula gives 2667 for a
    6000x4000 image, the program computes 2666, and that is the size the
    encoder receives. *)
Lemma downscale_6000x4000_is_2666 :
  spec_short_side 4000 6000 = 2667
  /\ fst (new_size 6000 4000 toy_world) = Ok (Some (4000, 2666))
  /\ fst (new_size 6000 4000 toy_world) <> Ok (Some (4000, spec_short_side 4000 6000))
  /\ map ev_size
       (saves (snd (optimize_png (codec := toy_codec 1) "/pics/big.png"
                      "/out/big.jpg" 15%Q toy_world)))
     = [(4000, 2666)].
Proof.
  split; [reflexivity|]. split; [vm_compute; reflexivity|].
  split; [vm_compute; discriminate | vm_compute; reflexivity].
Qed.

Lemma downscale_truncates_example :
  (4000 < 6000 \/ 4000 < 4000)
  /\ new_size 6000 4000 toy_world = (Ok (Some (4000, 2666)), toy_world).
Proof.
  assert (H : 4000 < 6000 \/ 4000 < 4000) by (left; lia).
  split; [exact H|].
  exact (proj1 (proj2 (downscale_truncates 6000 4000 toy_world H))).
Defined.

(** C6 on a grey-scale PNG with alpha. *)
Lemma optimize_png_leaves_LA_example :
  Image_open (codec := toy_codec 1) "/pics/la.png" toy_world
    = (Ok (Image "LA" (640, 480) tt), toy_world)
  /\ carries_alpha "LA" = true
  /\ map ev_mode
       (saves (snd (optimize_png (codec := toy_codec 1) "/pics/la.png"
                      "/out/la.jpg" 15%Q toy_world))) = ["LA"%string]
  /\ fst (optimize_png (codec := toy_codec 1) "/pics/la.png" "/out/la.jpg"
            15%Q toy_world) = Ok (false, 0%Q).
Proof.
  split; [reflexivity|].
  destruct (optimize_png_leaves_LA (codec := toy_codec 1) "/pics/la.png"
              "/out/la.jpg" 15%Q toy_world (Image "LA" (640, 480) tt)
              eq_refl eq_refl ltac:(simpl; lia) ltac:(simpl; lia))
    as (Halpha & _ & Hfail).
  split; [exact Halpha|]. split; [vm_compute; reflexivity|].
  apply Hfail. intros q. eexists. reflexivity.
Defined.


(** C9 on [/in/b.PNG]. *)
Lemma optimization_lists_lowercase_png_only_example :
  toy_fs !! ["/"; "in"; "b.PNG"]%string = Some (File (blob 3))
  /\ exists png_files,
       glob_rec (Path "/in") ".png" toy_world = (Ok png_files, toy_world)
       /\ ~ In ["/"; "in"; "b.PNG"]%string png_files.
Proof.
  assert (Hp : toy_fs !! ["/"; "in"; "b.PNG"]%string = Some (File (blob 3)))
    by (vm_compute; reflexivity).
  split; [exact Hp|].
  destruct (optimization_lists_lowercase_png_only
              toy_world "/in" "/out" ["/"; "in"; "b.PNG"]%string
              (File (blob 3)) ".PNG" Hp eq_refl eq_refl eq_refl)
    as (png_files & Hglob & Hnot & _).
  - discriminate.
  - exists png_files. split; [exact Hglob | exact Hnot].
Defined.

Lemma toy_optimization_returns :
  match fst (process_optimization (codec := toy_codec 1) (@rev task) "/in"
               "/out" 2 15%Q toy_world) with
  | Ok (Some totals) => success totals = 1 /\ fail totals = 1
  | _ => False
  end.
Proof. vm_compute. split; reflexivity. Qed.

(** C10 on a directory with one good and one corrupt PNG file. *)
Lemma optimization_totals_have_different_scopes_example :
  exists totals w' png_files rs,
    process_optimization (codec := toy_codec 1) (@rev task) "/in" "/out" 2
      15%Q toy_world = (Ok (Some totals), w')
    /\ glob_rec (Path "/in") ".png" toy_world = (Ok png_files, toy_world)
    /\ length rs = length png_files
    /\ total_original_size totals
       = fold_left (fun acc p => (acc + megabytes (file_size toy_fs p))%Q)
           png_files 0%Q
    /\ total_optimized_size totals
       = fold_left Qplus (map snd (List.filter fst rs)) 0%Q
    /\ exists tasks w1 w2,
         map fst tasks = map str png_files
         /\ run_futures
              (fun i o => optimize_png (codec := toy_codec 1) i o 15%Q)
              (rev tasks) w1 = (map Ok rs, w2).
Proof.
  assert (Hnormal : forall p nd, fs toy_world !! p = Some nd -> normal p = true).
  { apply (bool_decide_unpack
             (map_Forall (fun p (_ : node) => normal p = true) toy_fs)).
    vm_compute. exact I. }
  pose proof toy_optimization_returns as Hret.
  destruct (process_optimization (codec := toy_codec 1) (@rev task) "/in" "/out"
              2 15%Q toy_world) as [[[totals|]|e] w'] eqn:Hrun;
    simpl in Hret; try contradiction.
  destruct (optimization_totals_have_different_scopes (codec := toy_codec 1)
              (@rev task) (@Permutation_rev task) toy_world "/in" "/out"
              2 15%Q totals w' Hnormal Hrun)
    as (png_files & rs & Hglob & Hlen & Horig & Hopt & _ & _ & _
        & tasks & w0 & w1 & w2 & _ & _ & _ & Hinputs & Hfut & _).
  exists totals, w', png_files, rs.
  split; [reflexivity|]. split; [exact Hglob|]. split; [exact Hlen|].
  split; [exact Horig|]. split; [exact Hopt|].
  exists tasks, w1, w2. split; [exact Hinputs | exact Hfut].
Defined.

(** * Further properties *)

(** ** What one call of [optimize_png] does to the encoder and the files *)

Section Calls.
Context {Pixels : Type} {codec : Codec Pixels}.
Implicit Types (img : image Pixels) (w : World) (mx : Q).

(** The encoder calls of the loop form an initial segment of the ladder
    from the starting quality, whatever the encoder and the file system
    do. *)
Lemma save_loop_ladder img o mx (n : nat) : forall (ql : Z) w,
  ql < 30 + 5 * Z.of_nat n ->
  exists k : nat, (1 <= k <= S n)%nat
    /\ saves (snd (save_loop img o mx ql w))
       = rev (map (jpeg_event img o) (ladder ql k)) ++ saves w.
Proof.
  induction n as [|n IH]; intros ql w Hq; rewrite save_loop_step;
    pose proof (loop_body_saves img o mx ql w) as Hs;
    destruct (loop_body img o mx ql w) as [[[r|]|e] w1] eqn:Hb;
    simpl in Hs |- *;
    try (exists 1%nat; split; [lia | exact Hs]).
  - apply loop_body_continue in Hb. lia.
  - apply loop_body_continue in Hb.
    destruct (IH (ql - 5) w1 ltac:(lia)) as (k & Hk & Hqs).
    exists (S k). split; [lia|].
    rewrite Hqs, Hs. simpl. now rewrite <- app_assoc.
Qed.

(** X1: whatever its arguments, one call of [optimize_png] makes at most
    14 encoder calls, all of them JPEG saves of one and the same image to
    the output path, at the qualities 90, 85, 80, ... in this order with
    none left out. *)
Theorem encoder_calls_walk_the_ladder i o mx w :
  exists (k : nat) (m : string) (sz : Z * Z),
    (k <= 14)%nat
    /\ saves (snd (optimize_png i o mx w))
       = rev (map (fun ql => SaveEvent o "JPEG" m sz (Some ql)) (ladder 90 k))
         ++ saves w.
Proof.
  unfold optimize_png, try_except.
  destruct (optimize_png_try_cases i o mx w)
    as [[e ->] | (img0 & r & img & _ & _ & _ & ->)].
  - exists 0%nat, EmptyString, (0, 0). split; [lia | reflexivity].
  - destruct (save_loop_ladder img o mx 13 90 w ltac:(lia)) as (k & Hk & Hl).
    exists k, (img_mode img), (img_size img). split; [lia|].
    destruct (save_loop img o mx 90 w) as [[res|e] w3]; simpl in Hl |- *;
      exact Hl.
Qed.

Lemma write_file_stdout s d w : stdout (snd (write_file s d w)) = stdout w.
Proof. unfold write_file. now repeat case_match. Qed.

Lemma save_loop_stdout img o mx (n : nat) : forall (ql : Z) w,
  ql < 30 + 5 * Z.of_nat n ->
  stdout (snd (save_loop img o mx ql w)) = stdout w.
Proof.
  assert (Hbody : forall ql w, stdout (snd (loop_body img o mx ql w)) = stdout w).
  { intros ql w. unfold loop_body, Image_save_jpeg, bind, record_save, lift.
    destruct (jpeg_encode img ql) as [d|e]; [|reflexivity].
    match goal with |- context [write_file o d ?w0] =>
      pose proof (write_file_stdout o d w0) as Hs;
      destruct (write_file o d w0) as [[[]|e] w1] end; [|exact Hs].
    pose proof (getsize_world o w1) as Hg.
    destruct (getsize o w1) as [[k|e] w2]; simpl in Hg; subst w2; [|exact Hs].
    now destruct (Qle_bool _ _ || _). }
  induction n as [|n IH]; intros ql w Hq; rewrite save_loop_step;
    pose proof (Hbody ql w) as Hs;
    destruct (loop_body img o mx ql w) as [[[r|]|e] w1] eqn:Hb;
    simpl in Hs |- *; try exact Hs.
  - apply loop_body_continue in Hb. lia.
  - apply loop_body_continue in Hb. rewrite IH by lia. exact Hs.
Qed.

(** A turn that returns has just measured the file it reports. *)
Lemma loop_body_measured img o mx (ql : Z) w b s w1 :
  loop_body img o mx ql w = (Ok (Some (b, s)), w1) ->
  b = true
  /\ exists n, s = megabytes n /\ getsize o w1 = (Ok n, w1).
Proof.
  unfold loop_body, bind, ret.
  destruct (Image_save_jpeg img o ql w) as [[[]|e] w2]; [|discriminate].
  pose proof (getsize_world o w2) as Hw.
  destruct (getsize o w2) as [[n|e] w3] eqn:Hg; [|discriminate].
  simpl in Hw. subst w3.
  destruct (Qle_bool _ _ || _); [|discriminate].
  intros [= <- <- <-]. split; [reflexivity|]. now exists n.
Qed.

Lemma save_loop_measured img o mx (n : nat) : forall (ql : Z) w b s w',
  ql < 30 + 5 * Z.of_nat n ->
  save_loop img o mx ql w = (Ok (b, s), w') ->
  b = true /\ exists n, s = megabytes n /\ getsize o w' = (Ok n, w').
Proof.
  induction n as [|n IH]; intros ql w b s w' Hq; rewrite save_loop_step;
    destruct (loop_body img o mx ql w) as [[[[b' s']|]|e] w1] eqn:Hb;
    try discriminate;
    try (intros [= <- <- <-]; now apply loop_body_measured in Hb).
  - apply loop_body_continue in Hb. lia.
  - apply loop_body_continue in Hb. apply IH. lia.
Qed.

(** X2: [optimize_png] never raises. When it returns [True], nothing was
    printed and the size returned is the size in MB of the output file as
    it is in the end; when it returns [False], the size returned is 0 and
    exactly one line [Erro ao otimizar <input>: <message>] was printed. *)
Theorem optimize_png_result_is_measured i o mx w :
  exists b s w',
    optimize_png i o mx w = (Ok (b, s), w')
    /\ (b = true ->
        stdout w' = stdout w
        /\ exists n, s = megabytes n /\ getsize o w' = (Ok n, w'))
    /\ (b = false ->
        s = 0%Q
        /\ exists msg,
             stdout w' = stdout w ++ ["Erro ao otimizar " +:+ i +:+ ": " +:+ msg]).
Proof.
  unfold optimize_png, try_except.
  destruct (optimize_png_try_cases i o mx w)
    as [[e ->] | (img0 & r & img & _ & _ & _ & ->)].
  { eexists false, 0%Q, _. split; [reflexivity|]. split; [discriminate|].
    intros _. split; [reflexivity|]. now exists (str_exn e). }
  pose proof (save_loop_stdout img o mx 13 90 w ltac:(lia)) as Hout.
  pose proof (save_loop_measured img o mx 13 90 w) as Hm.
  destruct (save_loop img o mx 90 w) as [[[b s]|e] w3].
  - destruct (Hm b s w3 ltac:(lia) eq_refl) as (-> & Hsize).
    exists true, s, w3. split; [reflexivity|].
    split; [intros _; split; [exact Hout | exact Hsize] | discriminate].
  - eexists false, 0%Q, _. split; [reflexivity|]. split; [discriminate|].
    intros _. split; [reflexivity|]. simpl in Hout |- *. rewrite Hout.
    now exists (str_exn e).
Qed.

(** X3: when the input opens as an image and the new size is computed,
    the image that goes on has the mode [RGB] if the image of the file had
    the mode [RGBA] or [P] and its own mode otherwise. If no side exceeded
    4000, or the resize to the new size returns, the encoder is called
    between 1 and 14 times, every time with that mode and with the new
    size (the size of the image if no side exceeded 4000). If the new size
    has a side below 1, as for an image of 5000x1, the resize raises: the
    encoder is not called, one line is printed and the result is
    [(False, 0)]. *)
Theorem encoder_receives_prepared_image i o mx w img r :
  Image_open i w = (Ok img, w) ->
  new_size (fst (img_size img)) (snd (img_size img)) w = (Ok r, w) ->
  ((forall sz, r = Some sz ->
      exists img',
        Image_resize (if bool_decide (img_mode img ∈ ["RGBA"; "P"]%string)
                      then Image_convert img "RGB" else img) sz = Ok img') ->
   exists k : nat, (1 <= k <= 14)%nat
     /\ saves (snd (optimize_png i o mx w))
        = rev (map (fun ql =>
                      SaveEvent o "JPEG"
                        (if bool_decide (img_mode img ∈ ["RGBA"; "P"]%string)
                         then "RGB"%string else img_mode img)
                        (match r with
                         | Some sz => sz
                         | None => img_size img
                         end)
                        (Some ql))
                 (ladder 90 k))
          ++ saves w)
  /\ (forall sz, r = Some sz -> fst sz < 1 \/ snd sz < 1 ->
      optimize_png i o mx w
      = (Ok (false, 0%Q),
         mkWorld (fs w)
           (stdout w ++ ["Erro ao otimizar " +:+ i
                         +:+ ": height and width must be > 0"])
           (saves w))).
Proof.
  intros Ho Hn.
  set (c := if bool_decide _ then Image_convert img "RGB" else img).
  assert (Hsz : img_size c = img_size img)
    by (subst c; now destruct (bool_decide _)).
  assert (Hmd : img_mode c =
                if bool_decide (img_mode img ∈ ["RGBA"; "P"]%string)
                then "RGB"%string else img_mode img)
    by (subst c; now destruct (bool_decide _)).
  assert (Htry : optimize_png_try i o mx w
                 = match r with
                   | Some sz =>
                       match Image_resize c sz with
                       | Ok img' => save_loop img' o mx 90 w
                       | Raise e => (Raise e, w)
                       end
                   | None => save_loop c o mx 90 w
                   end).
  { unfold optimize_png_try, bind. rewrite Ho. fold c. rewrite Hsz.
    destruct (img_size img) as [a b]. simpl in Hn. rewrite Hn.
    destruct r as [[nw nh]|]; [|reflexivity].
    unfold lift. now destruct (Image_resize c (nw, nh)). }
  unfold optimize_png, try_except. rewrite Htry. split.
  - intros Hres.
    assert (Himg : exists img', img_mode img' = img_mode c
              /\ img_size img' = match r with
                                 | Some sz => sz
                                 | None => img_size img
                                 end
              /\ match r with
                 | Some sz =>
                     match Image_resize c sz with
                     | Ok img' => save_loop img' o mx 90 w
                     | Raise e => (Raise e, w)
                     end
                 | None => save_loop c o mx 90 w
                 end = save_loop img' o mx 90 w).
    { destruct r as [sz|].
      - destruct (Hres sz eq_refl) as [img' Hr]. exists img'. rewrite Hr.
        destruct (Image_resize_ok _ _ _ Hr) as (Hm & Hs & _).
        now repeat split.
      - exists c. now repeat split. }
    destruct Himg as (img' & Hm' & Hs' & ->).
    destruct (save_loop_ladder img' o mx 13 90 w ltac:(lia)) as (k & Hk & Hl).
    exists k. split; [lia|].
    unfold jpeg_event in Hl. rewrite Hm', Hmd, Hs' in Hl.
    destruct (save_loop img' o mx 90 w) as [[res|e] w3]; simpl in Hl |- *;
      exact Hl.
  - intros sz -> Hside. unfold Image_resize.
    replace ((fst sz <? 1) || (snd sz <? 1)) with true; [reflexivity|].
    symmetry. apply orb_true_iff.
    destruct Hside; [left | right]; now apply Z.ltb_lt.
Qed.

Lemma writes_only_refl p w : writes_only p w w.
Proof. intros q. now left. Qed.

Lemma writes_only_trans p w1 w2 w3 :
  writes_only p w1 w2 -> writes_only p w2 w3 -> writes_only p w1 w3.
Proof.
  intros H1 H2 q. destruct (H2 q) as [E2|[-> Hd]].
  - destruct (H1 q) as [E1|[-> Hd]]; [left; congruence|].
    right. split; [reflexivity|]. now rewrite E2.
  - now right.
Qed.

Lemma writes_only_same_fs p w w' : fs w' = fs w -> writes_only p w w'.
Proof. intros E q. left. now rewrite E. Qed.

Lemma write_file_writes_only s d w :
  writes_only (Path s) w (snd (write_file s d w)).
Proof.
  unfold write_file.
  destruct (node_at (fs w) (Path s)) as [[|d0]|] eqn:Hp;
    try apply writes_only_refl;
    (destruct (node_at (fs w) (parent (Path s))) as [[|d1]|] eqn:Hpar;
     try apply writes_only_refl);
    intros q; simpl; (destruct (decide (Path s = q)) as [<-|Hne];
      [right; split; [reflexivity|]; exists d; apply node_at_insert_same;
       intros Hpp; unfold node_at in Hp;
       destruct (decide (parent (Path s) = Path s)); congruence
      |left; now apply node_at_insert_other]).
Qed.

Lemma getsize_fs s w : fs (snd (getsize s w)) = fs w.
Proof. now rewrite getsize_world. Qed.

Lemma loop_body_writes_only img o mx (ql : Z) w :
  writes_only (Path o) w (snd (loop_body img o mx ql w)).
Proof.
  unfold loop_body, Image_save_jpeg, bind, record_save, lift.
  destruct (jpeg_encode img ql) as [d|e];
    [|now apply writes_only_same_fs].
  match goal with |- context [write_file o d ?w0] =>
    pose proof (write_file_writes_only o d w0) as Hw;
    destruct (write_file o d w0) as [[[]|e] w1] end; simpl in Hw;
    [|exact Hw].
  pose proof (getsize_world o w1) as Hg.
  destruct (getsize o w1) as [[k|e] w2]; simpl in Hg; subst w2; [|exact Hw].
  now destruct (Qle_bool _ _ || _).
Qed.

Lemma save_loop_writes_only img o mx (n : nat) : forall (ql : Z) w,
  ql < 30 + 5 * Z.of_nat n ->
  writes_only (Path o) w (snd (save_loop img o mx ql w)).
Proof.
  induction n as [|n IH]; intros ql w Hq; rewrite save_loop_step;
    pose proof (loop_body_writes_only img o mx ql w) as Hs;
    destruct (loop_body img o mx ql w) as [[[r|]|e] w1] eqn:Hb;
    simpl in Hs |- *; try exact Hs.
  - apply loop_body_continue in Hb. lia.
  - apply loop_body_continue in Hb.
    eapply writes_only_trans; [exact Hs | apply IH; lia].
Qed.

Lemma read_file_world s w : snd (read_file s w) = w.
Proof. unfold read_file. now repeat case_match. Qed.

Lemma convert_heic_to_png_writes_only i o w :
  writes_only (Path o) w (snd (convert_heic_to_png i o w)).
Proof.
  unfold convert_heic_to_png, convert_heic_to_png_try, try_except, bind,
    print, ret.
  pose proof (Image_open_world i w) as Ho.
  destruct (Image_open i w) as [[img|e] w1]; simpl in Ho; subst w1;
    [|now apply writes_only_same_fs].
  unfold Image_save_png, bind, record_save, lift.
  destruct (png_encode img) as [d|e]; [|now apply writes_only_same_fs].
  match goal with |- context [write_file o d ?w0] =>
    pose proof (write_file_writes_only o d w0) as Hw;
    destruct (write_file o d w0) as [[[]|e] w1] end; exact Hw.
Qed.

Lemma convert_cr2_to_png_writes_only i o w :
  writes_only (Path o) w (snd (convert_cr2_to_png i o w)).
Proof.
  unfold convert_cr2_to_png, convert_cr2_to_png_try, try_except, bind,
    print, ret, Wand_open, bind, lift.
  pose proof (read_file_world i w) as Hr.
  destruct (read_file i w) as [[d|e] w1]; simpl in Hr; subst w1;
    [|now apply writes_only_same_fs].
  destruct (wand_decode d) as [img|e]; [|now apply writes_only_same_fs].
  unfold Wand_save, bind, lift.
  match goal with |- context [wand_encode ?im] =>
    destruct (wand_encode im) as [d'|e] end;
    [|now apply writes_only_same_fs].
  pose proof (write_file_writes_only o d' w) as Hw.
  destruct (write_file o d' w) as [[[]|e] w1]; exact Hw.
Qed.

Lemma optimize_png_writes_only i o mx w :
  writes_only (Path o) w (snd (optimize_png i o mx w)).
Proof.
  unfold optimize_png, try_except.
  destruct (optimize_png_try_cases i o mx w)
    as [[e ->] | (img0 & r & img & _ & _ & _ & ->)];
    [now apply writes_only_same_fs|].
  pose proof (save_loop_writes_only img o mx 13 90 w ltac:(lia)) as Hw.
  destruct (save_loop img o mx 90 w) as [[res|e] w3]; exact Hw.
Qed.

(** X4: each of the three transformations changes the file system at most
    at its output path, where a regular file then is: no other entry is
    created, changed or removed, whether the call succeeds or fails. *)
Theorem transforms_write_only_the_output i o mx w :
  writes_only (Path o) w (snd (convert_heic_to_png i o w))
  /\ writes_only (Path o) w (snd (convert_cr2_to_png i o w))
  /\ writes_only (Path o) w (snd (optimize_png i o mx w)).
Proof.
  split; [|split].
  - apply convert_heic_to_png_writes_only.
  - apply convert_cr2_to_png_writes_only.
  - apply optimize_png_writes_only.
Qed.

End Calls.

(** ** Failures stay where they happen *)

Section Isolation.
Context {Pixels : Type} {codec : Codec Pixels}.
Variable schedule : list task -> list task.
Hypothesis schedule_perm : forall ts, Permutation ts (schedule ts).
Implicit Types (w : World) (mx : Q) (tasks : list task) (ps : list path).
Implicit Types (t : task).

Lemma local_ret {A} ps (a : A) : local ps (ret a).
Proof. intros w1 w2 H. now split. Qed.

Lemma local_lift {A} ps (r : result A) : local ps (lift r).
Proof. intros w1 w2 H. now split. Qed.

Lemma local_bind {A B} ps (m : M A) (k : A -> M B) :
  local ps m -> (forall a, local ps (k a)) -> local ps (bind m k).
Proof.
  intros Hm Hk w1 w2 H. destruct (Hm w1 w2 H) as [Hf Hs]. unfold bind.
  destruct (m w1) as [[a|e] w1'], (m w2) as [[a'|e'] w2'];
    simpl in Hf, Hs; try discriminate.
  - injection Hf as <-. now apply Hk.
  - injection Hf as <-. now split.
Qed.

Lemma local_try_except {A} ps (body : M A) (handler : exn -> M A) :
  local ps body -> (forall e, local ps (handler e)) ->
  local ps (try_except body handler).
Proof.
  intros Hm Hk w1 w2 H. destruct (Hm w1 w2 H) as [Hf Hs]. unfold try_except.
  destruct (body w1) as [[a|e] w1'], (body w2) as [[a'|e'] w2'];
    simpl in Hf, Hs; try discriminate.
  - injection Hf as <-. now split.
  - injection Hf as <-. now apply Hk.
Qed.

Lemma local_print ps s : local ps (print s).
Proof. intros w1 w2 H. now split. Qed.

Lemma local_record_save ps ev : local ps (record_save ev).
Proof. intros w1 w2 H. now split. Qed.

Lemma local_read_file ps s : In (Path s) ps -> local ps (read_file s).
Proof.
  intros Hin w1 w2 H. unfold read_file. rewrite (H _ Hin).
  now destruct (node_at (fs w2) (Path s)) as [[|d]|].
Qed.

Lemma local_getsize ps s : In (Path s) ps -> local ps (getsize s).
Proof.
  intros Hin w1 w2 H. unfold getsize. rewrite (H _ Hin).
  now destruct (node_at (fs w2) (Path s)) as [[|d]|].
Qed.

Lemma local_write_file ps s d :
  In (Path s) ps -> In (parent (Path s)) ps -> local ps (write_file s d).
Proof.
  intros Hin Hpar w1 w2 H. unfold write_file.
  rewrite (H _ Hin), (H _ Hpar).
  destruct (node_at (fs w2) (Path s)) as [[|d0]|] eqn:Hs;
    try (now split);
    (destruct (node_at (fs w2) (parent (Path s))) as [[|d1]|] eqn:Hp;
     try (now split)); (split; [reflexivity|]);
    intros p Hp'; simpl;
    (destruct (decide (Path s = p)) as [<-|Hne];
     [|now rewrite !node_at_insert_other by exact Hne; apply H]);
    (assert (Hpp : parent (Path s) <> Path s)
       by (intros Hc; unfold node_at in Hs;
           destruct (decide (parent (Path s) = Path s)); congruence));
    now rewrite !node_at_insert_same.
Qed.

Lemma local_new_size ps a b : local ps (new_size a b).
Proof.
  intros w1 w2 H.
  pose proof (new_size_world a b w1) as H1.
  pose proof (new_size_world a b w2) as H2.
  rewrite H1, H2. split; [|exact H]. unfold new_size, bind, lift, ret.
  destruct (_ || _); [|reflexivity].
  destruct (a >? b);
    (destruct (truediv _ _); [|reflexivity]);
    now destruct (int_of_float _).
Qed.

Lemma local_Image_open ps s : In (Path s) ps -> local ps (Image_open s).
Proof.
  intros Hin. apply local_bind; [now apply local_read_file|].
  intros d. apply local_lift.
Qed.

Lemma local_loop_body ps (img : image Pixels) o mx (ql : Z) :
  In (Path o) ps -> In (parent (Path o)) ps ->
  local ps (loop_body img o mx ql).
Proof.
  intros Hin Hpar. unfold loop_body, Image_save_jpeg.
  apply local_bind.
  - apply local_bind; [apply local_record_save|]. intros _.
    apply local_bind; [apply local_lift|]. intros d.
    now apply local_write_file.
  - intros _. apply local_bind; [now apply local_getsize|]. intros n.
    destruct (_ || _); apply local_ret.
Qed.

Lemma local_save_loop ps (img : image Pixels) o mx (n : nat) :
  In (Path o) ps -> In (parent (Path o)) ps ->
  forall ql : Z, ql < 30 + 5 * Z.of_nat n -> local ps (save_loop img o mx ql).
Proof.
  intros Hin Hpar. induction n as [|n IH]; intros ql Hq w1 w2 H;
    rewrite !save_loop_step;
    destruct (local_loop_body ps img o mx ql Hin Hpar w1 w2 H) as [Hf Hs];
    destruct (loop_body img o mx ql w1) as [[[r|]|e] w1'] eqn:E1;
    destruct (loop_body img o mx ql w2) as [[[r'|]|e'] w2'] eqn:E2;
    simpl in Hf, Hs; try discriminate;
    try (injection Hf as <-; now split).
  - apply loop_body_continue in E1. lia.
  - apply loop_body_continue in E1. apply IH; [lia | exact Hs].
Qed.

Lemma footprint_paths i o :
  In (Path i) (footprint (i, o)) /\ In (Path o) (footprint (i, o))
  /\ In (parent (Path o)) (footprint (i, o)).
Proof. unfold footprint. simpl. tauto. Qed.

Lemma convert_heic_to_png_local i o :
  local (footprint (i, o)) (convert_heic_to_png i o).
Proof.
  destruct (footprint_paths i o) as (Hi & Ho & Hp).
  apply local_try_except.
  - apply local_bind; [now apply local_Image_open|]. intros img.
    apply local_bind; [|intros _; apply local_ret].
    apply local_bind; [apply local_record_save|]. intros _.
    apply local_bind; [apply local_lift|]. intros d.
    now apply local_write_file.
  - intros e. apply local_bind; [apply local_print | intros _; apply local_ret].
Qed.

Lemma convert_cr2_to_png_local i o :
  local (footprint (i, o)) (convert_cr2_to_png i o).
Proof.
  destruct (footprint_paths i o) as (Hi & Ho & Hp).
  apply local_try_except.
  - apply local_bind.
    { apply local_bind; [now apply local_read_file|]. intros d.
      apply local_lift. }
    intros img. apply local_bind; [|intros _; apply local_ret].
    apply local_bind; [apply local_lift|]. intros d.
    now apply local_write_file.
  - intros e. apply local_bind; [apply local_print | intros _; apply local_ret].
Qed.

Lemma optimize_png_local i o mx :
  local (footprint (i, o)) (optimize_png i o mx).
Proof.
  destruct (footprint_paths i o) as (Hi & Ho & Hp).
  apply local_try_except.
  - apply local_bind; [now apply local_Image_open|]. intros img.
    set (c := if bool_decide _ then _ else img). cbv zeta.
    destruct (img_size c) as [a b].
    apply local_bind; [apply local_new_size|]. intros sz.
    apply local_bind.
    { destruct sz as [[nw nh]|]; [apply local_lift | apply local_ret]. }
    intros img'. apply (local_save_loop _ _ _ _ 13 Ho Hp). lia.
  - intros e. apply local_bind; [apply local_print | intros _; apply local_ret].
Qed.

Lemma writes_only_elsewhere p w w' q :
  writes_only p w w' -> q <> p -> node_at (fs w') q = node_at (fs w) q.
Proof. intros H Hq. destruct (H q) as [E|[E _]]; [exact E | contradiction]. Qed.

(** The calls of a pool leave alone every path that is not the output of
    one of them. *)
Lemma run_futures_elsewhere {A} (call : string -> string -> M A) :
  (forall i o w, writes_only (Path o) w (snd (call i o w))) ->
  forall ts w q,
    (forall t, In t ts -> q <> Path (snd t)) ->
    node_at (fs (snd (run_futures call ts w))) q = node_at (fs w) q.
Proof.
  intros Hw. induction ts as [|[i o] ts IH]; intros w q Hq; [reflexivity|].
  simpl. pose proof (Hw i o w) as H1.
  destruct (call i o w) as [r w1]. simpl in H1.
  specialize (IH w1 q). destruct (run_futures call ts w1) as [rs w2].
  simpl in *. rewrite IH by (intros t Ht; apply Hq; now right).
  apply (writes_only_elsewhere _ _ _ _ H1). apply (Hq (i, o)). now left.
Qed.

Lemma independent_cons t ts :
  independent (t :: ts) ->
  independent ts
  /\ forall t', In t' ts ->
       ~ In (Path (snd t)) (footprint t') /\ ~ In (Path (snd t')) (footprint t).
Proof.
  intros [Hnd Hall]. inversion Hnd as [|? ? Hnotin Hnd']; subst.
  split; [split; [exact Hnd'|]|].
  - intros a b Ha Hb. apply Hall; now right.
  - intros t' Ht'.
    assert (Hne : t' <> t) by (intros ->; contradiction).
    split; apply Hall; try (now left); try (now right); congruence.
Qed.

Lemma independent_perm ts ts' :
  Permutation ts ts' -> independent ts -> independent ts'.
Proof.
  intros Hp [Hnd Hall]. split.
  - eapply Permutation_NoDup; eassumption.
  - intros a b Ha Hb. apply Hall;
      eapply Permutation_in; try eassumption; now apply Permutation_sym.
Qed.

(** In a pool of independent tasks every future holds what its call
    returns when it runs alone, and every output is left as that call
    alone leaves it. *)
Lemma run_futures_isolated {A} (call : string -> string -> M A) :
  (forall i o, local (footprint (i, o)) (call i o)) ->
  (forall i o w, writes_only (Path o) w (snd (call i o w))) ->
  forall ts w wc,
    independent ts ->
    (forall t, In t ts -> same_nodes (footprint t) wc w) ->
    fst (run_futures call ts wc) = map (alone call w) ts
    /\ forall t, In t ts ->
         node_at (fs (snd (run_futures call ts wc))) (Path (snd t))
         = node_at (fs (snd (call (fst t) (snd t) w))) (Path (snd t)).
Proof.
  intros Hloc Hw. induction ts as [|[i o] ts IH]; intros w wc Hind Hsame.
  - split; [reflexivity | intros t []].
  - destruct (independent_cons _ _ Hind) as [Hind' Hsep].
    destruct (Hloc i o wc w (Hsame (i, o) (or_introl eq_refl))) as [Hr Hn].
    pose proof (Hw i o wc) as Hframe.
    pose proof (run_futures_elsewhere call Hw ts) as Hrest.
    simpl. unfold alone at 1. simpl fst at 2. simpl snd at 1.
    destruct (call i o wc) as [r w1]. simpl in Hr, Hn, Hframe.
    specialize (Hrest w1).
    assert (Hsame' : forall t, In t ts -> same_nodes (footprint t) w1 w).
    { intros t Ht p Hp.
      rewrite (writes_only_elsewhere _ _ _ p Hframe).
      - apply (Hsame t); [now right | exact Hp].
      - intros ->. now apply (proj1 (Hsep t Ht)). }
    destruct (IH w w1 Hind' Hsame') as [IHr IHn].
    destruct (run_futures call ts w1) as [rs w2]. simpl in *.
    split; [now rewrite Hr, IHr|].
    intros t [<-|Ht]; [|now apply IHn].
    simpl. rewrite Hrest.
    + apply Hn. apply footprint_paths.
    + intros t' Ht' Heq. apply (proj2 (Hsep t' Ht')).
      rewrite <- Heq. apply footprint_paths.
Qed.

(** One task among tasks that are all different. *)
Lemma one_among (t0 : task) ts :
  List.NoDup ts -> In t0 ts ->
  Permutation (map (fun t => negb (bool_decide (t = t0))) ts)
    (false :: repeat true (length ts - 1)).
Proof.
  intros Hnd Hin. apply in_split in Hin as (l1 & l2 & ->).
  apply NoDup_remove_2 in Hnd.
  assert (Hall : forall l, ~ In t0 l ->
            map (fun t => negb (bool_decide (t = t0))) l
            = repeat true (length l)).
  { induction l as [|a l IHl]; intros Hn; [reflexivity|]. simpl.
    rewrite IHl by (intros Hc; apply Hn; now right).
    rewrite bool_decide_eq_false_2 by (intros ->; apply Hn; now left).
    reflexivity. }
  rewrite map_app. simpl map.
  rewrite (Hall l1), (Hall l2)
    by (intros Hc; apply Hnd, in_or_app; tauto).
  rewrite bool_decide_eq_true_2 by reflexivity. simpl negb.
  rewrite length_app. simpl length.
  replace (length l1 + S (length l2) - 1)%nat
    with (length l1 + length l2)%nat by lia.
  rewrite repeat_app. symmetry. apply Permutation_middle.
Qed.

Lemma futures_values {A B} (g : task -> result A) (f : task -> B)
    (pr : A -> B) : forall ts (rs : list A),
  map Ok rs = map g ts ->
  (forall t, In t ts -> exists a, g t = Ok a /\ pr a = f t) ->
  map pr rs = map f ts.
Proof.
  induction ts as [|t ts IH]; intros [|r rs] Heq Hg; try discriminate;
    [reflexivity|].
  simpl in Heq. injection Heq as Hr Hrs.
  destruct (Hg t (or_introl eq_refl)) as (a & Ha & Hpa).
  simpl. rewrite (IH rs Hrs) by (intros t' Ht'; apply Hg; now right).
  f_equal. congruence.
Qed.

Lemma one_failure_among (t0 : task) ts (oks : list bool) :
  List.NoDup ts -> In t0 ts ->
  oks = map (fun t => negb (bool_decide (t = t0))) ts ->
  succeeded oks = Z.of_nat (length ts) - 1 /\ failed oks = 1.
Proof.
  intros Hnd Hin ->.
  destruct (one_failure _ _ (one_among t0 ts Hnd Hin)) as (Hs & Hf & _).
  rewrite Hs, Hf. split; [|reflexivity].
  destruct ts as [|a ts]; [destruct Hin|]. simpl length. lia.
Qed.

(** The conversion pool on independent tasks of which one fails alone and
    the others succeed alone. *)
Lemma conversion_pool_one_failure tasks (func : string -> string -> M bool)
    mw w t0 :
  0 < mw -> total func ->
  (forall i o, local (footprint (i, o)) (func i o)) ->
  (forall i o w0, writes_only (Path o) w0 (snd (func i o w0))) ->
  independent tasks -> In t0 tasks ->
  alone func w t0 = Ok false ->
  (forall t, In t tasks -> t <> t0 -> alone func w t = Ok true) ->
  exists w',
    conversion_pool schedule tasks func mw w
    = (Ok (Z.of_nat (length tasks) - 1, 1), w')
    /\ forall t, In t tasks ->
         node_at (fs w') (Path (snd t))
         = node_at (fs (snd (func (fst t) (snd t) w))) (Path (snd t)).
Proof.
  intros Hmw Htot Hloc Hwr Hind Hin Hbad Hgood.
  destruct (conversion_pool_counts _ schedule_perm tasks func mw w Hmw Htot)
    as (oks & w' & Hrun & Hpool & _).
  pose proof (independent_perm _ _ (schedule_perm tasks) Hind) as Hind'.
  destruct (run_futures_isolated func Hloc Hwr (schedule tasks) w w Hind'
              (fun _ _ _ _ => eq_refl)) as [Hres Hout].
  rewrite Hrun in Hres, Hout. simpl in Hres, Hout.
  assert (Hoks : map id oks
                 = map (fun t => negb (bool_decide (t = t0))) (schedule tasks)).
  { apply (futures_values (alone func w)); [exact Hres|].
    intros t Ht. destruct (decide (t = t0)) as [->|Hne].
    - exists false. rewrite bool_decide_eq_true_2 by reflexivity.
      now split.
    - exists true. rewrite bool_decide_eq_false_2 by exact Hne.
      split; [|reflexivity]. apply Hgood; [|exact Hne].
      eapply Permutation_in; [|exact Ht].
      apply Permutation_sym, schedule_perm. }
  rewrite map_id in Hoks.
  destruct (one_failure_among t0 (schedule tasks) oks (proj1 Hind'))
    as [Hs Hf]; [|exact Hoks|].
  { eapply Permutation_in; [apply schedule_perm | exact Hin]. }
  exists w'. split.
  - rewrite Hpool, Hs, Hf.
    now rewrite <- (Permutation_length (schedule_perm tasks)).
  - intros t Ht. apply Hout.
    eapply Permutation_in; [apply schedule_perm | exact Ht].
Qed.

(** The optimisation pool on independent tasks of which one fails alone
    and the others succeed alone. *)
Lemma optimization_pool_one_failure tasks mw mx w t0 :
  0 < mw ->
  independent tasks -> In t0 tasks ->
  alone (fun i o => optimize_png i o mx) w t0 = Ok (false, 0%Q) ->
  (forall t, In t tasks -> t <> t0 ->
     exists s, alone (fun i o => optimize_png i o mx) w t = Ok (true, s)) ->
  exists rs w',
    map Ok rs = map (alone (fun i o => optimize_png i o mx) w) (schedule tasks)
    /\ optimization_pool schedule tasks mw mx w
       = (Ok (Z.of_nat (length tasks) - 1, 1, optimized_sum rs), w')
    /\ forall t, In t tasks ->
         node_at (fs w') (Path (snd t))
         = node_at (fs (snd (optimize_png (fst t) (snd t) mx w)))
             (Path (snd t)).
Proof.
  intros Hmw Hind Hin Hbad Hgood.
  destruct (optimization_pool_counts _ schedule_perm tasks mw mx w Hmw)
    as (rs & w' & Hrun & Hpool & _).
  pose proof (independent_perm _ _ (schedule_perm tasks) Hind) as Hind'.
  destruct (run_futures_isolated (fun i o => optimize_png i o mx)
              (fun i o => optimize_png_local i o mx)
              (fun i o w0 => optimize_png_writes_only i o mx w0)
              (schedule tasks) w w Hind' (fun _ _ _ _ => eq_refl))
    as [Hres Hout].
  rewrite Hrun in Hres, Hout. simpl in Hres, Hout.
  assert (Hoks : map fst rs
                 = map (fun t => negb (bool_decide (t = t0))) (schedule tasks)).
  { apply (futures_values (alone (fun i o => optimize_png i o mx) w));
      [exact Hres|].
    intros t Ht. destruct (decide (t = t0)) as [->|Hne].
    - exists (false, 0%Q). rewrite bool_decide_eq_true_2 by reflexivity.
      now split.
    - destruct (Hgood t) as [s Hs]; [|exact Hne|].
      { eapply Permutation_in; [|exact Ht].
        apply Permutation_sym, schedule_perm. }
      exists (true, s). rewrite bool_decide_eq_false_2 by exact Hne.
      now split. }
  destruct (one_failure_among t0 (schedule tasks) (map fst rs) (proj1 Hind'))
    as [Hs Hf]; [|exact Hoks|].
  { eapply Permutation_in; [apply schedule_perm | exact Hin]. }
  exists rs, w'. split; [exact Hres|]. split.
  - rewrite Hpool, Hs, Hf.
    now rewrite <- (Permutation_length (schedule_perm tasks)).
  - intros t Ht. apply Hout.
    eapply Permutation_in; [apply schedule_perm | exact Ht].
Qed.

Lemma Image_open_holds i w d :
  holds w i d -> Image_open i w = (pil_decode d, w).
Proof.
  unfold holds, Image_open, bind, read_file, lift. intros ->.
  now destruct (pil_decode d).
Qed.

Lemma Wand_open_holds i w d :
  holds w i d -> Wand_open i w = (wand_decode d, w).
Proof.
  unfold holds, Wand_open, bind, read_file, lift. intros ->.
  now destruct (wand_decode d).
Qed.

(** The image that [convert_cr2_to_png] saves is [developed img]. *)
Lemma convert_cr2_to_png_try_developed i o w d img :
  holds w i d -> wand_decode d = Ok img ->
  convert_cr2_to_png_try i o w
  = (Wand_save (developed img) o ;;; ret true) w.
Proof.
  intros Hh Hd. unfold convert_cr2_to_png_try.
  unfold bind at 1. rewrite (Wand_open_holds _ _ _ Hh), Hd.
  unfold developed. simpl. now destruct (alpha_channel img).
Qed.

(** The image that [optimize_png] gives to the loop is [prepared]. *)
Lemma optimize_png_try_prepared i o mx w d img0 r img :
  holds w i d -> pil_decode d = Ok img0 ->
  new_size (fst (img_size img0)) (snd (img_size img0)) w = (Ok r, w) ->
  prepared img0 r = Ok img ->
  optimize_png_try i o mx w = save_loop img o mx 90 w.
Proof.
  intros Hh Hd Hns Hp. unfold optimize_png_try.
  unfold bind at 1. rewrite (Image_open_holds _ _ _ Hh), Hd.
  unfold prepared in Hp. cbv zeta in Hp |- *.
  set (c := if bool_decide _ then _ else img0) in *.
  assert (Hsz : img_size c = img_size img0)
    by (subst c; now destruct (bool_decide _)).
  rewrite Hsz. destruct (img_size img0) as [a b]. simpl in Hns.
  unfold bind. rewrite Hns.
  destruct r as [[nw nh]|]; unfold lift, ret.
  - now rewrite Hp.
  - now injection Hp as ->.
Qed.

Lemma convert_heic_to_png_caught i o w e w1 :
  convert_heic_to_png_try i o w = (Raise e, w1) ->
  convert_heic_to_png i o w
  = (Ok false,
     reported w1 ("Erro ao converter " +:+ i +:+ ": " +:+ str_exn e)).
Proof. unfold convert_heic_to_png, try_except. now intros ->. Qed.

Lemma convert_cr2_to_png_caught i o w e w1 :
  convert_cr2_to_png_try i o w = (Raise e, w1) ->
  convert_cr2_to_png i o w
  = (Ok false,
     reported w1 ("Erro ao converter " +:+ i +:+ ": " +:+ str_exn e)).
Proof. unfold convert_cr2_to_png, try_except. now intros ->. Qed.

Lemma optimize_png_caught i o mx w e w1 :
  optimize_png_try i o mx w = (Raise e, w1) ->
  optimize_png i o mx w
  = (Ok (false, 0%Q),
     reported w1 ("Erro ao otimizar " +:+ i +:+ ": " +:+ str_exn e)).
Proof. unfold optimize_png, try_except. now intros ->. Qed.

Lemma corrupt_image_fails w t mx :
  corrupt_image w t ->
  alone convert_heic_to_png w t = Ok false
  /\ alone (fun i o => optimize_png i o mx) w t = Ok (false, 0%Q).
Proof.
  intros (d & e & Hh & Hd). unfold alone. split.
  - erewrite convert_heic_to_png_caught; [reflexivity|].
    unfold convert_heic_to_png_try, bind.
    now rewrite (Image_open_holds _ _ _ Hh), Hd.
  - erewrite optimize_png_caught; [reflexivity|].
    unfold optimize_png_try, bind.
    now rewrite (Image_open_holds _ _ _ Hh), Hd.
Qed.

Lemma corrupt_raw_fails w t :
  corrupt_raw w t -> alone convert_cr2_to_png w t = Ok false.
Proof.
  intros (d & e & Hh & Hd). unfold alone.
  erewrite convert_cr2_to_png_caught; [reflexivity|].
  unfold convert_cr2_to_png_try, bind.
  now rewrite (Wand_open_holds _ _ _ Hh), Hd.
Qed.

Lemma png_encode_failure w t d img e :
  holds w (fst t) d -> pil_decode d = Ok img -> png_encode img = Raise e ->
  alone convert_heic_to_png w t = Ok false.
Proof.
  intros Hh Hd He. unfold alone.
  erewrite convert_heic_to_png_caught; [reflexivity|].
  unfold convert_heic_to_png_try, bind.
  rewrite (Image_open_holds _ _ _ Hh), Hd.
  unfold Image_save_png, bind, record_save, lift. now rewrite He.
Qed.

Lemma wand_encode_failure w t d img e :
  holds w (fst t) d -> wand_decode d = Ok img ->
  wand_encode (developed img) = Raise e ->
  alone convert_cr2_to_png w t = Ok false.
Proof.
  intros Hh Hd He. unfold alone.
  erewrite convert_cr2_to_png_caught; [reflexivity|].
  rewrite (convert_cr2_to_png_try_developed _ _ _ _ _ Hh Hd).
  unfold Wand_save, bind, lift. now rewrite He.
Qed.

Lemma jpeg_encode_failure w t mx d img0 r img e :
  holds w (fst t) d -> pil_decode d = Ok img0 ->
  new_size (fst (img_size img0)) (snd (img_size img0)) w = (Ok r, w) ->
  prepared img0 r = Ok img ->
  jpeg_encode img 90 = Raise e ->
  alone (fun i o => optimize_png i o mx) w t = Ok (false, 0%Q).
Proof.
  intros Hh Hd Hns Hp He. unfold alone.
  erewrite optimize_png_caught; [reflexivity|].
  rewrite (optimize_png_try_prepared _ _ _ _ _ _ _ _ Hh Hd Hns Hp).
  rewrite save_loop_step.
  unfold loop_body, Image_save_jpeg, bind, record_save, lift.
  now rewrite He.
Qed.

Lemma valid_heic_converts w t :
  valid_heic w t ->
  alone convert_heic_to_png w t = Ok true
  /\ converted_heic w (snd (convert_heic_to_png (fst t) (snd t) w)) t.
Proof.
  intros (d & img & d' & Hh & Hd & He & Hw).
  destruct (writable_spec _ _ Hw) as (Hpar & _ & _).
  assert (Hrun : convert_heic_to_png (fst t) (snd t) w
                 = (Ok true,
                    mkWorld (<[Path (snd t) := File d']> (fs w)) (stdout w)
                      (SaveEvent (snd t) "PNG" (img_mode img) (img_size img)
                         None :: saves w))).
  { unfold convert_heic_to_png, try_except, convert_heic_to_png_try, bind.
    rewrite (Image_open_holds _ _ _ Hh), Hd.
    unfold Image_save_png, bind, record_save, lift. rewrite He.
    rewrite write_file_ok by exact Hw. reflexivity. }
  unfold alone. rewrite Hrun. split; [reflexivity|].
  exists d, img, d'. repeat split; try assumption.
  unfold holds. simpl. now apply node_at_insert_same.
Qed.

Lemma valid_cr2_converts w t :
  valid_cr2 w t ->
  alone convert_cr2_to_png w t = Ok true
  /\ converted_cr2 w (snd (convert_cr2_to_png (fst t) (snd t) w)) t.
Proof.
  intros (d & img & d' & Hh & Hd & He & Hw).
  destruct (writable_spec _ _ Hw) as (Hpar & _ & _).
  assert (Hrun : convert_cr2_to_png (fst t) (snd t) w
                 = (Ok true, set_fs (<[Path (snd t) := File d']> (fs w)) w)).
  { unfold convert_cr2_to_png, try_except.
    rewrite (convert_cr2_to_png_try_developed _ _ _ _ _ Hh Hd).
    unfold Wand_save, bind, lift. rewrite He.
    rewrite write_file_ok by exact Hw. reflexivity. }
  unfold alone. rewrite Hrun. split; [reflexivity|].
  exists d, img, d'. repeat split; try assumption.
  unfold holds. simpl. now apply node_at_insert_same.
Qed.

Lemma valid_png_optimizes w t mx :
  valid_png w t ->
  (exists s, alone (fun i o => optimize_png i o mx) w t = Ok (true, s))
  /\ optimized_png w (snd (optimize_png (fst t) (snd t) mx w)) t.
Proof.
  intros (d & img0 & r & img & enc & Hh & Hd & Hns & Hp & Henc & Hw).
  destruct (size_search_from img (snd t) mx enc Henc 13 90 w Hw ltac:(lia))
    as (tried & q' & rest & w' & Hl & _ & _ & Hrun & _ & Hfs).
  assert (Hopt : optimize_png (fst t) (snd t) mx w
                 = (Ok (true, megabytes (Z.of_nat (length (enc q')))), w')).
  { unfold optimize_png, try_except.
    now rewrite (optimize_png_try_prepared _ _ _ _ _ _ _ _ Hh Hd Hns Hp), Hrun. }
  unfold alone. rewrite Hopt. split; [eexists; reflexivity|].
  exists d, img0, r, img, q', (enc q'). repeat split; try assumption.
  - rewrite Hl. apply in_or_app. right. now left.
  - apply Henc.
Qed.

(** C8: an exception raised in the [try] block of a transform is caught
    there: the call prints one line and returns [False] (the conversions)
    or [(False, 0)] (the optimisation), so every call returns a value. A
    file that the decoder refuses and an image that the encoder refuses
    give such a failure result. The calls of a pool on independent tasks
    (no task twice, no task writing where another reads or writes) do not
    disturb each other: every future holds what its call returns when it
    runs alone in the world the pool started in. With one corrupt file
    among [N] tasks that are otherwise valid the pool ends with
    [success = N - 1] and [fail = 1], and the output of every other task
    is written from its input. *)
Theorem transform_failures_are_counted tasks mw mx w :
  0 < mw ->
  independent tasks ->
  (forall i o w0 e w1,
     (convert_heic_to_png_try i o w0 = (Raise e, w1) ->
      convert_heic_to_png i o w0
      = (Ok false,
         reported w1 ("Erro ao converter " +:+ i +:+ ": " +:+ str_exn e)))
     /\ (convert_cr2_to_png_try i o w0 = (Raise e, w1) ->
         convert_cr2_to_png i o w0
         = (Ok false,
            reported w1 ("Erro ao converter " +:+ i +:+ ": " +:+ str_exn e)))
     /\ (optimize_png_try i o mx w0 = (Raise e, w1) ->
         optimize_png i o mx w0
         = (Ok (false, 0%Q),
            reported w1 ("Erro ao otimizar " +:+ i +:+ ": " +:+ str_exn e))))
  /\ (total convert_heic_to_png /\ total convert_cr2_to_png
      /\ total (fun i o => optimize_png i o mx))
  /\ (forall t,
        (corrupt_image w t ->
         alone convert_heic_to_png w t = Ok false
         /\ alone (fun i o => optimize_png i o mx) w t = Ok (false, 0%Q))
        /\ (corrupt_raw w t -> alone convert_cr2_to_png w t = Ok false))
  /\ (forall t d, holds w (fst t) d ->
        (forall img e,
           pil_decode d = Ok img -> png_encode img = Raise e ->
           alone convert_heic_to_png w t = Ok false)
        /\ (forall img e,
              wand_decode d = Ok img ->
              wand_encode (developed img) = Raise e ->
              alone convert_cr2_to_png w t = Ok false)
        /\ (forall img0 r img e,
              pil_decode d = Ok img0 ->
              new_size (fst (img_size img0)) (snd (img_size img0)) w
              = (Ok r, w) ->
              prepared img0 r = Ok img ->
              jpeg_encode img 90 = Raise e ->
              alone (fun i o => optimize_png i o mx) w t = Ok (false, 0%Q)))
  /\ (fst (run_futures convert_heic_to_png (schedule tasks) w)
      = map (alone convert_heic_to_png w) (schedule tasks)
      /\ fst (run_futures convert_cr2_to_png (schedule tasks) w)
         = map (alone convert_cr2_to_png w) (schedule tasks)
      /\ fst (run_futures (fun i o => optimize_png i o mx) (schedule tasks) w)
         = map (alone (fun i o => optimize_png i o mx) w) (schedule tasks))
  /\ (forall t0, In t0 tasks ->
        (corrupt_image w t0 ->
         (forall t, In t tasks -> t <> t0 -> valid_heic w t) ->
         exists w',
           conversion_pool schedule tasks convert_heic_to_png mw w
           = (Ok (Z.of_nat (length tasks) - 1, 1), w')
           /\ forall t, In t tasks -> t <> t0 -> converted_heic w w' t)
        /\ (corrupt_raw w t0 ->
            (forall t, In t tasks -> t <> t0 -> valid_cr2 w t) ->
            exists w',
              conversion_pool schedule tasks convert_cr2_to_png mw w
              = (Ok (Z.of_nat (length tasks) - 1, 1), w')
              /\ forall t, In t tasks -> t <> t0 -> converted_cr2 w w' t)
        /\ (corrupt_image w t0 ->
            (forall t, In t tasks -> t <> t0 -> valid_png w t) ->
            exists rs w',
              map Ok rs
              = map (alone (fun i o => optimize_png i o mx) w) (schedule tasks)
              /\ optimization_pool schedule tasks mw mx w
                 = (Ok (Z.of_nat (length tasks) - 1, 1, optimized_sum rs), w')
              /\ forall t, In t tasks -> t <> t0 -> optimized_png w w' t)).
Proof.
  intros Hmw Hind.
  pose proof (independent_perm _ _ (schedule_perm tasks) Hind) as Hind'.
  split; [|split; [|split; [|split; [|split]]]].
  - intros i o w0 e w1. split; [|split].
    + apply convert_heic_to_png_caught.
    + apply convert_cr2_to_png_caught.
    + apply optimize_png_caught.
  - split; [|split].
    + apply convert_heic_to_png_total.
    + apply convert_cr2_to_png_total.
    + apply optimize_png_total.
  - intros t. split.
    + apply corrupt_image_fails.
    + apply corrupt_raw_fails.
  - intros t d Hh. split; [|split].
    + intros img e. now apply png_encode_failure.
    + intros img e. now apply wand_encode_failure.
    + intros img0 r img e. now apply jpeg_encode_failure.
  - split; [|split].
    + apply (run_futures_isolated _ convert_heic_to_png_local
               convert_heic_to_png_writes_only _ w w Hind').
      now intros t _ p _.
    + apply (run_futures_isolated _ convert_cr2_to_png_local
               convert_cr2_to_png_writes_only _ w w Hind').
      now intros t _ p _.
    + apply (run_futures_isolated (fun i o => optimize_png i o mx)
               (fun i o => optimize_png_local i o mx)
               (fun i o w0 => optimize_png_writes_only i o mx w0) _ w w Hind').
      now intros t _ p _.
  - intros t0 Hin. split; [|split].
    + intros Hbad Hgood.
      destruct (conversion_pool_one_failure tasks convert_heic_to_png mw w t0
                  Hmw convert_heic_to_png_total convert_heic_to_png_local
                  convert_heic_to_png_writes_only Hind Hin)
        as (w' & Hpool & Hout).
      * now apply (corrupt_image_fails w t0 mx).
      * intros t Ht Hne. now apply valid_heic_converts, Hgood.
      * exists w'. split; [exact Hpool|]. intros t Ht Hne.
        destruct (valid_heic_converts w t (Hgood t Ht Hne))
          as (_ & d & img & d' & Hh & Hd & He & Hw).
        exists d, img, d'. repeat split; try assumption.
        unfold holds. now rewrite (Hout t Ht).
    + intros Hbad Hgood.
      destruct (conversion_pool_one_failure tasks convert_cr2_to_png mw w t0
                  Hmw convert_cr2_to_png_total convert_cr2_to_png_local
                  convert_cr2_to_png_writes_only Hind Hin)
        as (w' & Hpool & Hout).
      * now apply corrupt_raw_fails.
      * intros t Ht Hne. now apply valid_cr2_converts, Hgood.
      * exists w'. split; [exact Hpool|]. intros t Ht Hne.
        destruct (valid_cr2_converts w t (Hgood t Ht Hne))
          as (_ & d & img & d' & Hh & Hd & He & Hw).
        exists d, img, d'. repeat split; try assumption.
        unfold holds. now rewrite (Hout t Ht).
    + intros Hbad Hgood.
      destruct (optimization_pool_one_failure tasks mw mx w t0 Hmw Hind Hin)
        as (rs & w' & Hres & Hpool & Hout).
      * now apply (corrupt_image_fails w t0 mx).
      * intros t Ht Hne. now apply valid_png_optimizes, Hgood.
      * exists rs, w'. split; [exact Hres|]. split; [exact Hpool|].
        intros t Ht Hne.
        destruct (valid_png_optimizes w t mx (Hgood t Ht Hne))
          as (_ & d & img0 & r & img & q & d' & Hh & Hd & Hns & Hp & Hq
              & He & Hw).
        exists d, img0, r, img, q, d'. repeat split; try assumption.
        unfold holds. now rewrite (Hout t Ht).
Qed.

End Isolation.

(** ** Failures, messages and counters *)

Section Reports.
Context {Pixels : Type} {codec : Codec Pixels}.
Variable schedule : list task -> list task.
Hypothesis schedule_perm : forall ts, Permutation ts (schedule ts).
Implicit Types (w : World) (mx : Q).

Lemma Image_save_png_stdout (img : image Pixels) o w :
  stdout (snd (Image_save_png img o w)) = stdout w.
Proof.
  unfold Image_save_png, bind, record_save, lift.
  destruct (png_encode img) as [d|e]; [|reflexivity].
  match goal with |- context [write_file o d ?w0] =>
    pose proof (write_file_stdout o d w0) as Hs;
    destruct (write_file o d w0) as [[[]|e] w1] end; exact Hs.
Qed.

(** A converter prints one line when it fails and none when it succeeds. *)
Lemma convert_heic_to_png_report i o w b w' :
  convert_heic_to_png i o w = (Ok b, w') ->
  exists msg,
    stdout w' = stdout w
                ++ (if b then []
                    else ["Erro ao converter " +:+ i +:+ ": " +:+ msg]).
Proof.
  unfold convert_heic_to_png, convert_heic_to_png_try, try_except, bind,
    print, ret.
  pose proof (Image_open_world i w) as Ho.
  destruct (Image_open i w) as [[img|e] w1]; simpl in Ho; subst w1.
  2:{ intros [= <- <-]. now exists (str_exn e). }
  pose proof (Image_save_png_stdout img o w) as Hs.
  destruct (Image_save_png img o w) as [[[]|e] w1]; simpl in Hs;
    intros [= <- <-]; simpl; rewrite Hs.
  - exists EmptyString. now rewrite app_nil_r.
  - now exists (str_exn e).
Qed.

Lemma convert_cr2_to_png_report i o w b w' :
  convert_cr2_to_png i o w = (Ok b, w') ->
  exists msg,
    stdout w' = stdout w
                ++ (if b then []
                    else ["Erro ao converter " +:+ i +:+ ": " +:+ msg]).
Proof.
  unfold convert_cr2_to_png, convert_cr2_to_png_try, try_except, bind,
    print, ret, Wand_open, bind, lift.
  pose proof (read_file_world i w) as Hr.
  destruct (read_file i w) as [[d|e] w1]; simpl in Hr; subst w1.
  2:{ intros [= <- <-]. now exists (str_exn e). }
  destruct (wand_decode d) as [img|e].
  2:{ intros [= <- <-]. now exists (str_exn e). }
  unfold Wand_save, bind, lift.
  match goal with |- context [wand_encode ?im] =>
    destruct (wand_encode im) as [d'|e] end.
  2:{ intros [= <- <-]. now exists (str_exn e). }
  pose proof (write_file_stdout o d' w) as Hs.
  destruct (write_file o d' w) as [[[]|e] w1]; simpl in Hs;
    intros [= <- <-]; simpl; rewrite Hs.
  - exists EmptyString. now rewrite app_nil_r.
  - now exists (str_exn e).
Qed.

Lemma run_futures_lines (call : string -> string -> M bool) :
  (forall i o w b w', call i o w = (Ok b, w') ->
     length (stdout w') = (length (stdout w) + (if b then 0 else 1))%nat) ->
  forall ts w oks w',
    run_futures call ts w = (map Ok oks, w') ->
    length (stdout w')
    = (length (stdout w) + length (List.filter negb oks))%nat.
Proof.
  intros Hcall. induction ts as [|[i o] ts IH]; intros w oks w'; simpl.
  - destruct oks; [|discriminate]. intros [= <-]. simpl. lia.
  - destruct (call i o w) as [r w1] eqn:Hc.
    destruct (run_futures call ts w1) as [rs' w2] eqn:Hr.
    destruct oks as [|b oks]; [discriminate|]. simpl map.
    intros [= -> Hrs <-]. rewrite (IH w1 oks w2) by now rewrite Hr, Hrs.
    rewrite (Hcall i o w b w1 Hc). destruct b; simpl; lia.
Qed.

(** X5: a pool of conversions prints one line for each failed conversion
    and none for a successful one: standard output grows by as many lines
    as the failure counter says. *)
Theorem failures_are_reported_once (tasks : list task)
    (func : string -> string -> M bool) mw w success fail w' :
  func = convert_heic_to_png \/ func = convert_cr2_to_png ->
  conversion_pool schedule tasks func mw w = (Ok (success, fail), w') ->
  Z.of_nat (length (stdout w')) = Z.of_nat (length (stdout w)) + fail.
Proof.
  intros Hfunc Hpool.
  assert (Hmw : 0 < mw).
  { destruct (Z.leb_spec mw 0) as [Hle|]; [|assumption].
    unfold conversion_pool, ThreadPoolExecutor, bind in Hpool.
    replace (mw <=? 0) with true in Hpool by (symmetry; now apply Z.leb_le).
    discriminate. }
  assert (Hf : total func)
    by (destruct Hfunc as [-> | ->];
        [apply convert_heic_to_png_total | apply convert_cr2_to_png_total]).
  destruct (conversion_pool_counts schedule schedule_perm tasks func mw w Hmw Hf)
    as (oks & w1 & Hrun & Hcount & _).
  rewrite Hcount in Hpool. injection Hpool as <- <- <-.
  unfold failed. rewrite <- Nat2Z.inj_add. f_equal.
  apply (run_futures_lines func) with (ts := schedule tasks); [|exact Hrun].
  intros i o w0 b w0' Hcall.
  assert (Hrep : exists msg,
             stdout w0' = stdout w0
                          ++ (if b then []
                              else ["Erro ao converter " +:+ i +:+ ": " +:+ msg]))
    by (destruct Hfunc as [-> | ->];
        [exact (convert_heic_to_png_report i o w0 b w0' Hcall)
        |exact (convert_cr2_to_png_report i o w0 b w0' Hcall)]).
  destruct Hrep as [msg ->]. rewrite length_app. now destruct b.
Qed.

End Reports.

(** ** Success at the quality floor *)

Section Floor.
Context {Pixels : Type} {codec : Codec Pixels}.
Implicit Types (img : image Pixels) (w : World) (mx : Q).

(** X6: when the output can be written and the encoder never fails, the
    size search returns [True] with the size of the file of its last
    encode; that size is above the limit only if the search went down to
    quality 25, in 14 encodes. *)
Theorem success_above_limit_only_at_floor img o mx w
    (enc : Z -> list Byte.byte) :
  writable w o = true ->
  (forall ql, jpeg_encode img ql = Ok (enc ql)) ->
  exists ql' w',
    save_loop img o mx 90 w
      = (Ok (true, megabytes (Z.of_nat (length (enc ql')))), w')
    /\ (~ (megabytes (Z.of_nat (length (enc ql'))) <= mx)%Q ->
        ql' = 25 /\ encode_attempts w w' = 14%nat).
Proof.
  intros Hw Henc.
  destruct (size_search_from img o mx enc Henc 13 90 w Hw ltac:(lia))
    as (tried & ql' & rest & w' & Hl & _ & Hacc & Hrun & Hsv & _).
  exists ql', w'. split; [exact Hrun|]. intros Hover.
  destruct Hacc as [Hfit|Hlow]; [contradiction|].
  simpl in Hl.
  do 13 (destruct tried as [|? tried];
         [injection Hl as Hq _; lia | injection Hl as _ Hl]).
  destruct tried as [|? tried].
  - injection Hl as Hq _. split; [lia|].
    unfold encode_attempts. rewrite Hsv, length_app. simpl. lia.
  - injection Hl as _ Hl. now destruct tried.
Qed.

End Floor.

(** ** Enumeration lists every matching entry once *)

Section Listing.
Implicit Types (w : World) (p : path).

Lemma glob_rec_NoDup root ext w l :
  glob_rec root ext w = (Ok l, w) -> NoDup l.
Proof.
  unfold glob_rec. intros [= <-].
  apply NoDup_ListNoDup, List.NoDup_filter, NoDup_ListNoDup.
  replace (map fst (map_to_list (fs w))) with ((map_to_list (fs w)).*1).
  - apply NoDup_fst_map_to_list.
  - generalize (map_to_list (fs w)). intros l.
    induction l as [|x l IH]; [reflexivity|].
    change (x.1 :: l.*1 = x.1 :: map fst l). now f_equal.
Qed.

Lemma extend_globs_NoDup root (exts : list string) : forall files w l,
  extend_globs root exts files w = (Ok l, w) ->
  NoDup files ->
  NoDup exts ->
  (forall a b, In a exts -> In b exts -> String.length a = String.length b) ->
  (forall p ext, In p files -> In ext exts -> endswith (name p) ext = false) ->
  NoDup l.
Proof.
  induction exts as [|ext exts IH]; intros files w l; simpl.
  - now intros [= <-].
  - unfold bind.
    destruct (glob_rec_spec root ext w) as (found & Hg & Hfound).
    rewrite Hg. intros Hl Hnd Hexts Hlen Hdisj.
    apply NoDup_cons in Hexts as [Hnotin Hexts].
    apply (IH _ _ _ Hl); [|exact Hexts| |].
    + apply NoDup_app. split; [exact Hnd|]. split.
      * intros p Hp Hq. apply list_elem_of_In in Hp, Hq.
        apply Hfound in Hq as (_ & _ & Hq).
        rewrite (Hdisj p ext Hp (or_introl eq_refl)) in Hq. discriminate.
      * now apply (glob_rec_NoDup root ext w).
    + intros a b Ha Hb. apply Hlen; now right.
    + intros p e [Hp|Hp]%in_app_iff He.
      * apply Hdisj; [exact Hp | now right].
      * apply Hfound in Hp as (_ & _ & Hp).
        destruct (endswith (name p) e) eqn:Hpe; [|reflexivity].
        apply endswith_spec in Hp as [x Hx].
        apply endswith_spec in Hpe as [y Hy].
        assert (Heq : ext = e).
        { apply (same_length_tails x y); [congruence|].
          apply Hlen; [now left | now right]. }
        subst e. destruct Hnotin. now apply list_elem_of_In.
Qed.

(** X7: with a glob that tells upper case from lower case, the
    enumeration lists each entry below the input directory whose name ends
    with one of the extensions of the type exactly once, lists nothing
    else, and leaves the world as it is. *)
Theorem get_files_for_conversion_lists_once (input_dir ctype : string) w :
  exists files,
    get_files_for_conversion input_dir ctype w = (Ok files, w)
    /\ List.NoDup files
    /\ forall p, In p files <->
         (exists nd, fs w !! p = Some nd)
         /\ is_below (Path input_dir) p = true
         /\ exists ext,
              In ext (if String.eqb ctype "HEIC"
                      then [".heic"; ".HEIC"; ".heif"; ".HEIF"]%string
                      else [".cr2"; ".CR2"]%string)
              /\ endswith (name p) ext = true.
Proof.
  destruct (get_files_for_conversion_spec input_dir ctype w)
    as (files & Hf & Hin).
  exists files. split; [exact Hf|]. split.
  - apply NoDup_ListNoDup. unfold get_files_for_conversion in Hf.
    apply (extend_globs_NoDup _ _ _ _ _ Hf); [constructor| | |].
    + destruct (String.eqb ctype "HEIC");
        apply (bool_decide_unpack _); vm_compute; exact I.
    + destruct (String.eqb ctype "HEIC"); simpl; intros a b Ha Hb;
        repeat (destruct Ha as [<-|Ha]; [|]); try contradiction;
        repeat (destruct Hb as [<-|Hb]; [|]); try contradiction; reflexivity.
    + intros p ext [].
  - intros p. rewrite Hin. split.
    + intros (ext & He & Hnd & Hb & Hend). eauto.
    + intros (Hnd & Hb & ext & He & Hend). eauto.
Qed.

End Listing.

(** ** Runs that stop before any transform *)

Section Stops.
Context {Pixels : Type} {codec : Codec Pixels}.
Variable schedule : list task -> list task.
Implicit Types (w : World) (mx : Q) (p : path).

(** X8: [process_optimization] takes the early [return] exactly when no
    entry below the input directory has a name that ends with [.png]; it
    has then printed the one line and done nothing else: no directory is
    made and the encoder is not called. *)
Theorem process_optimization_without_png (input_dir output_dir : string)
    mw mx w :
  ((forall p nd, fs w !! p = Some nd ->
                 is_below (Path input_dir) p = true ->
                 endswith (name p) ".png" = false)
   <-> fst (process_optimization schedule input_dir output_dir mw mx w)
       = Ok None)
  /\ (fst (process_optimization schedule input_dir output_dir mw mx w)
      = Ok None ->
      snd (process_optimization schedule input_dir output_dir mw mx w)
      = mkWorld (fs w)
          (stdout w ++ ["Nenhum arquivo PNG encontrado para otimização."])
          (saves w)).
Proof.
  unfold process_optimization, bind.
  destruct (glob_rec_spec (Path input_dir) ".png" w) as (l & Hl & Hin).
  rewrite Hl. destruct l as [|p0 l].
  - split; [|reflexivity]. split; [reflexivity|]. intros _ p nd Hp Hb.
    destruct (endswith (name p) ".png") eqn:He; [|reflexivity].
    destruct (proj2 (Hin p)); eauto.
  - match goal with |- context [fst ?run = Ok None] =>
      assert (Hnot : fst run <> Ok None) end.
    { unfold print at 1.
      destruct (optimization_tasks _ _ _ _ _ _) as [[[tasks total]|e] w1];
        [|discriminate].
      destruct (optimization_pool _ _ _ _ _) as [[[[s f] t]|e] w2];
        discriminate. }
    split; [|intros H; contradiction]. split; [|intros H; contradiction].
    intros Hnone. pose proof (proj1 (Hin p0) (or_introl eq_refl))
      as ((nd & Hnd) & Hb & He).
    rewrite (Hnone p0 nd Hnd Hb) in He. discriminate.
Qed.

Lemma conversion_tasks_extends (input_dir output_dir : string)
    (files : list path) : forall tasks w r w',
  conversion_tasks files input_dir output_dir tasks w = (r, w') ->
  extends_dirs w w'
  /\ (forall tasks', r = Ok tasks' ->
        Forall (fun f => strip_prefix (Path input_dir) f <> None) files).
Proof.
  induction files as [|f files IH]; intros tasks w r w'; simpl.
  - intros [= <- <-]. split; [apply extends_dirs_refl | now constructor].
  - unfold bind.
    destruct (mirrored_output f input_dir output_dir ".png" w)
      as [[out|e] w1] eqn:Hm.
    + pose proof (mirrored_output_extends _ _ _ _ _ _ _ Hm) as Hx.
      intros H. apply IH in H as [Hx' Hall].
      split; [eapply extends_dirs_trans; eassumption|].
      intros tasks' ->. constructor; [|now apply (Hall tasks')].
      unfold mirrored_output, bind, lift, relative_to in Hm.
      now destruct (strip_prefix (Path input_dir) f).
    + intros [= <- <-].
      split; [exact (mirrored_output_extends _ _ _ _ _ _ _ Hm) | discriminate].
Qed.

(** X9: with [max_workers <= 0], or with a file that is not below
    [input_dir], [process_conversion] raises before any conversion runs:
    the world differs at most by new directories, nothing is printed and
    the encoder is not called. If all the output directories were made,
    the exception is the [ValueError] of the pool. *)
Theorem process_conversion_stops_before_the_pool (files : list path)
    (input_dir output_dir : string) (func : string -> string -> M bool) mw w :
  mw <= 0 \/ (exists f, In f files /\ strip_prefix (Path input_dir) f = None) ->
  exists e w',
    process_conversion schedule files input_dir output_dir func mw w
      = (Raise e, w')
    /\ extends_dirs w w'
    /\ (forall tasks w1,
          conversion_tasks files input_dir output_dir [] w = (Ok tasks, w1) ->
          e = ValueError "max_workers must be greater than 0" /\ w' = w1).
Proof.
  intros Hstop. unfold process_conversion, bind.
  destruct (conversion_tasks files input_dir output_dir [] w)
    as [[tasks|e] w1] eqn:Ht;
    destruct (conversion_tasks_extends _ _ _ _ _ _ _ Ht) as [Hx Hall].
  - destruct Hstop as [Hmw | (f & Hf & Hnone)].
    + unfold conversion_pool, ThreadPoolExecutor, bind.
      replace (mw <=? 0) with true by (symmetry; now apply Z.leb_le).
      eexists _, w1. split; [reflexivity|]. split; [exact Hx|].
      now intros tasks' w2 [= <- <-].
    + specialize (Hall tasks eq_refl). rewrite Forall_forall in Hall.
      now destruct (Hall f (proj2 (list_elem_of_In _ _) Hf)).
  - exists e, w1. split; [reflexivity|]. split; [exact Hx|]. discriminate.
Qed.

Lemma succeeded_failed_perm (l l' : list bool) :
  Permutation l l' -> succeeded l = succeeded l' /\ failed l = failed l'.
Proof.
  unfold succeeded, failed.
  induction 1 as [|[] l l' _ IH|[] [] l|l1 l2 l3 _ IH1 _ IH2];
    simpl; try (split; reflexivity);
    try (destruct IH as [IHa IHb]; simpl length; split; lia).
  destruct IH1 as [-> ->]. exact IH2.
Qed.

Lemma fold_add_optimized_shift (rs : list (bool * Q)) : forall t,
  (fold_left add_optimized rs t == t + fold_left add_optimized rs 0)%Q.
Proof.
  induction rs as [|[[] s] rs IH]; intros t.
  - simpl. ring.
  - change (fold_left add_optimized rs (t + s)
            == t + fold_left add_optimized rs (0 + s))%Q.
    rewrite (IH (t + s)%Q), (IH (0 + s)%Q). ring.
  - exact (IH t).
Qed.

Lemma optimized_sum_cons (r : bool * Q) (rs : list (bool * Q)) :
  (optimized_sum (r :: rs)
   == (if fst r then snd r else 0) + optimized_sum rs)%Q.
Proof.
  unfold optimized_sum. destruct r as [[] s].
  - change (fold_left add_optimized rs (0 + s)
            == s + fold_left add_optimized rs 0)%Q.
    rewrite (fold_add_optimized_shift rs (0 + s)%Q). ring.
  - change (fold_left add_optimized rs 0 == 0 + fold_left add_optimized rs 0)%Q.
    ring.
Qed.

Lemma optimized_sum_perm (rs rs' : list (bool * Q)) :
  Permutation rs rs' -> (optimized_sum rs == optimized_sum rs')%Q.
Proof.
  induction 1 as [|r l l' _ IH|r1 r2 l|l1 l2 l3 _ IH1 _ IH2].
  - reflexivity.
  - rewrite !optimized_sum_cons. now rewrite IH.
  - rewrite !optimized_sum_cons. ring.
  - now rewrite IH1.
Qed.

(** X10: the counters and the total size do not depend on the order in
    which the futures complete: for two orders of the same results both
    result loops return the same counters, and totals that are equal as
    rational numbers. *)
Theorem aggregation_ignores_completion_order
    (oks oks' : list bool) (rs rs' : list (bool * Q)) w :
  Permutation oks oks' ->
  Permutation rs rs' ->
  conversion_results (map Ok oks) 0 0 w
    = conversion_results (map Ok oks') 0 0 w
  /\ exists success fail t t',
       optimization_results (map Ok rs) 0 0 0%Q w = (Ok (success, fail, t), w)
       /\ optimization_results (map Ok rs') 0 0 0%Q w
          = (Ok (success, fail, t'), w)
       /\ (t == t')%Q.
Proof.
  intros Hoks Hrs. split.
  - rewrite !conversion_results_count.
    now destruct (succeeded_failed_perm _ _ Hoks) as [-> ->].
  - exists (0 + succeeded (map fst rs)), (0 + failed (map fst rs)),
      (optimized_sum rs), (optimized_sum rs').
    rewrite !optimization_results_count.
    destruct (succeeded_failed_perm (map fst rs) (map fst rs')
                (Permutation_map fst Hrs)) as [-> ->].
    split; [reflexivity|]. split; [reflexivity|].
    now apply optimized_sum_perm.
Qed.

End Stops.


(** ** From enumeration to conversion to optimisation *)

Section Pipeline.
Context {Pixels : Type} {codec : Codec Pixels}.
Implicit Types (w : World) (p q rel : path).

(** The path computed by lines 72-74 for a file below [input_dir]. *)
Lemma mirrored_output_path (input_dir output_dir sfx : string) rel w :
  rel <> [] ->
  forallb part_ok rel = true ->
  mirrored_output (Path input_dir ++ rel) input_dir output_dir sfx w
  = match mkdir_parents (Path output_dir ++ removelast rel) w with
    | (Ok _, w1) => (Ok (mirrored output_dir rel sfx), w1)
    | (Raise e, w1) => (Raise e, w1)
    end.
Proof.
  intros Hne Hall.
  destruct (name_of_parts rel Hne Hall) as (Hname & Hnz & Hnr).
  unfold mirrored_output, bind, lift, relative_to, with_suffix.
  rewrite strip_prefix_app.
  replace (name rel =? "")%string with false
    by (symmetry; now apply String.eqb_neq).
  rewrite Hname.
  assert (Hroot : is_root (replace_suffix (List.last rel EmptyString) sfx)
                  = false).
  { rewrite replace_suffix_not_root by congruence. now rewrite <- Hname. }
  assert (Hj : joinpath (Path output_dir)
                 (removelast rel
                  ++ [replace_suffix (List.last rel EmptyString) sfx])
               = mirrored output_dir rel sfx).
  { unfold mirrored. destruct (removelast rel) as [|r rest] eqn:Hrl.
    - now apply (joinpath_relative _ _ []).
    - apply (joinpath_relative _ r). apply part_ok_not_root.
      rewrite (app_removelast_last EmptyString Hne), Hrl in Hall.
      simpl in Hall. now apply andb_prop in Hall as [Hr _]. }
  rewrite Hj. unfold mirrored at 1. rewrite app_assoc, parent_snoc by exact Hroot.
  now destruct (mkdir_parents _ w) as [[[]|e] w1].
Qed.




End Pipeline.

(** ** A decodable file is converted *)

Section EndToEnd.
Context {Pixels : Type} {codec : Codec Pixels}.
Implicit Types (w : World) (p q rel : path).











End EndToEnd.

(** ** Names that differ only in the extension *)

Section Collisions.
Implicit Types (w : World) (dir : path).

(** X17: two files of one directory whose names differ only in the
    extension ([a.heic] and [a.HEIC], say) are mapped to the same output
    path, the stem followed by the new suffix: the mapping never tells
    them apart. *)
Theorem names_that_differ_in_the_extension_collide
    (input_dir output_dir sfx : string) dir (stem e1 e2 : string) w out w1 :
  stem <> EmptyString ->
  e1 <> EmptyString -> e2 <> EmptyString ->
  rfind dot e1 = None -> rfind dot e2 = None ->
  forallb part_ok (dir ++ [stem +:+ String dot e1]) = true ->
  forallb part_ok (dir ++ [stem +:+ String dot e2]) = true ->
  mirrored_output (Path input_dir ++ dir ++ [stem +:+ String dot e1])
    input_dir output_dir sfx w = (Ok out, w1) ->
  mirrored_output (Path input_dir ++ dir ++ [stem +:+ String dot e2])
    input_dir output_dir sfx w1 = (Ok out, w1)
  /\ out = Path output_dir ++ dir ++ [stem +:+ sfx].
Proof.
  intros Hs He1 He2 Hd1 Hd2 Hall1 Hall2.
  assert (Hne : forall x : string, dir ++ [x] <> [])
    by (intros x Hx; now apply app_eq_nil in Hx as [_ Hx]).
  assert (Hm : forall e, e <> EmptyString -> rfind dot e = None ->
            mirrored output_dir (dir ++ [stem +:+ String dot e]) sfx
            = Path output_dir ++ dir ++ [stem +:+ sfx]).
  { intros e He Hd. unfold mirrored.
    now rewrite removelast_last, last_last, replace_suffix_ext. }
  rewrite (mirrored_output_path _ _ _ _ _ (Hne _) Hall1),
    (mirrored_output_path _ _ _ _ _ (Hne _) Hall2), !removelast_last,
    (Hm e1 He1 Hd1), (Hm e2 He2 Hd2).
  destruct (mkdir_parents (Path output_dir ++ dir) w) as [[[]|e] w0] eqn:Hmk;
    [|discriminate].
  intros [= <- <-]. split; [|reflexivity].
  destruct (mkdir_parents_extends _ _ _ _ Hmk) as [_ Hdir].
  now rewrite (mkdir_parents_existing _ _ (Hdir eq_refl)).
Qed.

End Collisions.

(** ** The interactive script *)

Section Interactive.
Context {Pixels : Type} {codec : Codec Pixels} {builtins : Builtins}.
Variables schedule_conversion schedule_optimization : list task -> list task.
Implicit Types (w : World) (stdin : list string).

Lemma untouched_refl w : untouched w w.
Proof. now split. Qed.

Lemma untouched_trans w1 w2 w3 :
  untouched w1 w2 -> untouched w2 w3 -> untouched w1 w3.
Proof. intros [H1 H2] [H3 H4]. split; congruence. Qed.

Lemma emit_untouched s w : untouched w (emit s w).
Proof. now split. Qed.

(** A prompt loop whose body does not touch the files: it ends at the end
    of the input, with a value that the body accepted for one of the
    lines, or with an exception of the body. *)
Lemma input_loop_spec {A} (P : string -> A -> Prop) (Q : exn -> Prop) prompt
    (body : string -> M (option A)) :
  (forall line w, exists r w',
      body line w = (r, w') /\ untouched w w'
      /\ match r with
         | Ok (Some a) => P line a
         | Ok None => True
         | Raise e => Q e
         end) ->
  forall stdin w,
    untouched w (final (input_loop prompt body stdin w))
    /\ match ending (input_loop prompt body stdin w) with
       | inl a => exists line, In line stdin /\ P line a
       | inr EOFError => True
       | inr SystemExit => False
       | inr (Uncaught e) => Q e
       end.
Proof.
  intros Hbody. induction stdin as [|line stdin IH]; intros w.
  - split; [apply emit_untouched | exact I].
  - cbn [input_loop].
    destruct (Hbody line (emit prompt w)) as (r & w1 & -> & Hu & HP).
    pose proof (untouched_trans _ _ _ (emit_untouched prompt w) Hu) as Hu1.
    destruct r as [[a|]|e].
    + split; [exact Hu1|]. exists line. split; [now left | exact HP].
    + destruct (IH w1) as [Hu2 Hend]. split.
      * exact (untouched_trans _ _ _ Hu1 Hu2).
      * destruct (ending (input_loop prompt body stdin w1)) as [a|[| |e]];
          try exact Hend.
        destruct Hend as (l & Hin & Ha). exists l. split; [now right | exact Ha].
    + split; [exact Hu1 | exact HP].
Qed.

Lemma ask_type_spec stdin w :
  untouched w (final (ask_type stdin w))
  /\ match ending (ask_type stdin w) with
     | inl ctype => (ctype = "HEIC" \/ ctype = "CR2")%string
     | inr EOFError => True
     | inr _ => False
     end.
Proof.
  destruct (input_loop_spec
              (fun _ c => c = "HEIC" \/ c = "CR2")%string (fun _ => False)
              "Digite o tipo de conversão (HEIC ou CR2): "
              (fun ctype =>
                 if existsb (String.eqb (upper ctype)) ["HEIC"; "CR2"]%string
                 then ret (Some (upper ctype))
                 else print "Tipo inválido." ;;; ret None)) with (stdin := stdin)
    (w := w) as [Hu Hend].
  - intros line w0.
    destruct (existsb (String.eqb (upper line)) ["HEIC"; "CR2"]%string) eqn:E.
    + eexists _, w0. split; [reflexivity|]. split; [apply untouched_refl|].
      cbn [existsb] in E.
      apply orb_prop in E as [E|E]; [left|right].
      * now apply String.eqb_eq in E.
      * rewrite orb_false_r in E. now apply String.eqb_eq in E.
    + eexists _, _. split; [reflexivity|]. split; [apply emit_untouched|].
      exact I.
  - split; [exact Hu|]. fold ask_type in Hend.
    destruct (ending (ask_type stdin w)) as [a|[| |e]]; try exact Hend.
    now destruct Hend as (l & _ & Ha).
Qed.

(** What [Path.exists] does at one of the path prompts. *)
Lemma exists_body_spec (f : string -> path) (line : string) w :
  exists r w',
    (found <- path_exists (f line) ;;
     if found : bool then ret (Some line)
     else print "Caminho inválido." ;;; ret None) w = (r, w')
    /\ untouched w w'
    /\ match r with
       | Ok _ => True
       | Raise e => exists p, stat_error p = Some e
       end.
Proof.
  unfold bind, path_exists.
  destruct (stat_error (f line)) as [e|] eqn:He.
  - eexists _, w. split; [reflexivity|]. split; [apply untouched_refl|].
    now exists (f line).
  - destruct (node_at (fs w) (f line)).
    + eexists _, w. split; [reflexivity|]. split; [apply untouched_refl|].
      exact I.
    + eexists _, _. split; [reflexivity|]. split; [apply emit_untouched|].
      exact I.
Qed.

Lemma ask_source_spec stdin w :
  untouched w (final (ask_source stdin w))
  /\ match ending (ask_source stdin w) with
     | inl _ | inr EOFError => True
     | inr SystemExit => False
     | inr (Uncaught e) => exists p, stat_error p = Some e
     end.
Proof.
  destruct (input_loop_spec (fun _ _ => True)
              (fun e => exists p, stat_error p = Some e) "Caminho de origem: "
              (fun input_dir =>
                 found <- path_exists (Path input_dir) ;;
                 if found : bool then ret (Some input_dir)
                 else print "Caminho inválido." ;;; ret None))
    with (stdin := stdin) (w := w) as [Hu Hend].
  - intros line w0.
    destruct (exists_body_spec Path line w0) as (r & w' & E & Hu & Hr).
    exists r, w'. split; [exact E|]. split; [exact Hu|].
    now destruct r as [[a|]|e].
  - split; [exact Hu|]. fold ask_source in Hend.
    destruct (ending (ask_source stdin w)) as [a|[| |e]]; try exact Hend.
    exact I.
Qed.

Lemma ask_destination_spec prompt stdin w :
  untouched w (final (ask_destination prompt stdin w))
  /\ match ending (ask_destination prompt stdin w) with
     | inl _ | inr EOFError => True
     | inr SystemExit => False
     | inr (Uncaught e) => exists p, stat_error p = Some e
     end.
Proof.
  destruct (input_loop_spec (fun _ _ => True)
              (fun e => exists p, stat_error p = Some e) prompt
              (fun output_dir =>
                 found <- path_exists (parent (Path output_dir)) ;;
                 if found : bool then ret (Some output_dir)
                 else print "Caminho inválido." ;;; ret None))
    with (stdin := stdin) (w := w) as [Hu Hend].
  - intros line w0.
    destruct (exists_body_spec (fun s => parent (Path s)) line w0)
      as (r & w' & E & Hu & Hr).
    exists r, w'. split; [exact E|]. split; [exact Hu|].
    now destruct r as [[a|]|e].
  - split; [exact Hu|]. fold (ask_destination prompt) in Hend.
    destruct (ending (ask_destination prompt stdin w)) as [a|[| |e]];
      try exact Hend.
    exact I.
Qed.

(** [range(2, n + 1, 2)] holds the even numbers from 2 to [n]. *)
Lemma range_even (n c : Z) :
  In c (range 2 (n + 1) 2) <-> 2 <= c <= n /\ Z.even c = true.
Proof.
  unfold range. rewrite in_map_iff.
  replace (n + 1 - 2 + 2 - 1) with n by lia.
  pose proof (Z.div_mod n 2 ltac:(lia)) as Hdm.
  pose proof (Z.mod_pos_bound n 2 ltac:(lia)) as Hmod.
  split.
  - intros (k & <- & Hk%in_seq). split.
    + lia.
    + rewrite Z.even_add_mul_2. reflexivity.
  - intros [Hc He]. apply Zeven_bool_iff, Zeven_ex in He as [m ->].
    exists (Z.to_nat (m - 1)). split; [lia|]. apply in_seq. lia.
Qed.

Lemma ask_threads_spec stdin w :
  untouched w (final (ask_threads stdin w))
  /\ match ending (ask_threads stdin w) with
     | inl c => exists line, In line stdin
                  /\ int_of_str line = Some c /\ In c thread_options
     | inr EOFError => True
     | inr _ => False
     end.
Proof.
  destruct (input_loop_spec
              (fun line c => int_of_str line = Some c /\ In c thread_options)
              (fun _ => False) "Escolha o número de threads: "
              (fun line =>
                 match int_of_str line with
                 | Some chosen_threads =>
                     if existsb (Z.eqb chosen_threads) thread_options
                     then ret (Some chosen_threads)
                     else print ("Opção inválida. Escolha entre "
                                 +:+ repr_list thread_options +:+ ".") ;;;
                          ret None
                 | None =>
                     print ("Opção inválida. Escolha entre "
                            +:+ repr_list thread_options +:+ ".") ;;;
                     ret None
                 end)) with (stdin := stdin) (w := w) as [Hu Hend].
  - intros line w0. destruct (int_of_str line) as [c|].
    + destruct (existsb (Z.eqb c) thread_options) eqn:E.
      * eexists _, w0. split; [reflexivity|]. split; [apply untouched_refl|].
        split; [reflexivity|].
        apply existsb_exists in E as (x & Hx & ->%Z.eqb_eq). exact Hx.
      * eexists _, _. split; [reflexivity|]. split; [apply emit_untouched|].
        exact I.
    + eexists _, _. split; [reflexivity|]. split; [apply emit_untouched|].
      exact I.
  - split; [exact Hu|]. fold ask_threads in Hend.
    now destruct (ending (ask_threads stdin w)) as [a|[| |e]].
Qed.

(** X13: a thread count that the prompt loop accepts is what [int] reads
    from one of the lines typed; it is even and lies between 2 and the
    number of threads of the machine. The loop leaves the files and the
    encoder alone. *)
Theorem accepted_thread_count_is_an_even_option stdin w c :
  ending (ask_threads stdin w) = inl c ->
  2 <= c <= cpu_threads /\ Z.even c = true
  /\ (exists line, In line stdin /\ int_of_str line = Some c)
  /\ untouched w (final (ask_threads stdin w)).
Proof.
  intros Hc. destruct (ask_threads_spec stdin w) as [Hu H].
  rewrite Hc in H. destruct H as (line & Hin & Hint & Hopt).
  apply range_even in Hopt as [Hb Hev].
  split; [exact Hb|]. split; [exact Hev|]. split; [now exists line | exact Hu].
Qed.

Lemma and_then_print {B} s (k : unit -> Run B) stdin w :
  and_then (call (print s)) k stdin w = k tt stdin (emit s w).
Proof. reflexivity. Qed.

(** Up to the confirmation the script only asks and prints: it stops there
    with the files untouched, or goes on to the two stages with one of the
    thread options and the files that the glob listed. *)
Lemma main_before stdin w :
  (untouched w (final (main schedule_conversion schedule_optimization stdin w))
   /\ stopped_at_prompt
        (ending (main schedule_conversion schedule_optimization stdin w)))
  \/ exists ctype input_dir output_dir files c stdin1 w1,
       untouched w w1
       /\ In c thread_options
       /\ Forall (fun p => is_below (Path input_dir) p = true
                           /\ name p <> EmptyString) files
       /\ main schedule_conversion schedule_optimization stdin w
          = run_stages schedule_conversion schedule_optimization
              ctype files input_dir output_dir c stdin1 w1.
Proof.
  remember (main schedule_conversion schedule_optimization stdin w) as r
    eqn:Hr.
  unfold main in Hr.
  destruct (ask_type_spec stdin w) as [Hu1 He1]. unfold and_then at 1 in Hr.
  destruct (ask_type stdin w) as [[[ctype|s] stdin1] w1];
    cbn [ending final fst snd] in Hu1, He1.
  2: { left. subst r. split; [exact Hu1|]. now destruct s. }
  clear He1.
  destruct (ask_source_spec stdin1 w1) as [Hu2 He2].
  unfold and_then at 1 in Hr.
  destruct (ask_source stdin1 w1) as [[[input_dir|s] stdin2] w2];
    cbn [ending final fst snd] in Hu2, He2.
  2: { left. subst r. split; [exact (untouched_trans _ _ _ Hu1 Hu2)|].
       now destruct s. }
  clear He2. pose proof (untouched_trans _ _ _ Hu1 Hu2) as Hu12.
  clear Hu1 Hu2.
  destruct (ask_destination_spec "Caminho de destino para conversão: "
              stdin2 w2) as [Hu3 He3].
  unfold and_then at 1 in Hr.
  destruct (ask_destination _ stdin2 w2) as [[[output_dir|s] stdin3] w3];
    cbn [ending final fst snd] in Hu3, He3.
  2: { left. subst r. split; [exact (untouched_trans _ _ _ Hu12 Hu3)|].
       now destruct s. }
  clear He3. pose proof (untouched_trans _ _ _ Hu12 Hu3) as Hu13.
  clear Hu12 Hu3.
  destruct (get_files_for_conversion_spec input_dir ctype w3)
    as (files & Hfiles & Hin).
  unfold and_then at 1 in Hr. unfold call at 1 in Hr. rewrite Hfiles in Hr.
  assert (Hlisted : Forall (fun p => is_below (Path input_dir) p = true
                                     /\ name p <> EmptyString) files).
  { apply Forall_forall. intros p Hp%list_elem_of_In.
    apply Hin in Hp as (ext & Hext & _ & Hb & He). split; [exact Hb|].
    intros Hn. rewrite Hn in He.
    destruct (String.eqb ctype "HEIC"); cbn in Hext;
      intuition (subst ext; discriminate). }
  clear Hin Hfiles.
  unfold and_then at 1 in Hr.
  destruct files as [|f files0].
  { left. rewrite and_then_print in Hr. subst r. cbn. split; [|exact I].
    exact (untouched_trans _ _ _ Hu13 (emit_untouched _ _)). }
  set (files := f :: files0) in *. unfold finish at 1 in Hr.
  rewrite !and_then_print in Hr.
  match type of Hr with
  | context [and_then ask_threads _ stdin3 ?w4] =>
      set (w4' := w4) in Hr;
      assert (Hu4 : untouched w w4')
        by (refine (untouched_trans _ _ _ Hu13 _); now split)
  end.
  destruct (ask_threads_spec stdin3 w4') as [Hu5 He5].
  unfold and_then at 1 in Hr.
  destruct (ask_threads stdin3 w4') as [[[c|s] stdin4] w5];
    cbn [ending final fst snd] in Hu5, He5.
  2: { left. subst r. split; [exact (untouched_trans _ _ _ Hu4 Hu5)|].
       now destruct s. }
  destruct He5 as (line & _ & _ & Hopt).
  pose proof (untouched_trans _ _ _ Hu4 Hu5) as Hu15.
  assert (Hc : 2 <= c) by (apply range_even in Hopt; lia).
  unfold and_then at 1 in Hr.
  unfold call at 1, lift at 1, float_div_int at 1 in Hr.
  replace (c =? 0) with false in Hr by (symmetry; apply Z.eqb_neq; lia).
  rewrite !and_then_print in Hr.
  unfold and_then at 1, input at 1 in Hr.
  match type of Hr with
  | context [emit "Prosseguir? (S/N): " ?w6] =>
      set (w6' := emit "Prosseguir? (S/N): " w6) in Hr;
      assert (Hu6 : untouched w w6')
        by (refine (untouched_trans _ _ _ Hu15 _); now split)
  end.
  destruct stdin4 as [|confirm stdin5].
  { left. subst r. split; [exact Hu6 | exact I]. }
  unfold and_then at 1 in Hr.
  destruct (String.eqb (upper confirm) "S").
  - right. exists ctype, input_dir, output_dir, files, c, stdin5, w6'.
    split; [exact Hu6|]. split; [exact Hopt|]. split; [exact Hlisted|].
    exact Hr.
  - left. rewrite and_then_print in Hr. subst r. cbn. split; [|exact I].
    exact (untouched_trans _ _ _ Hu6 (emit_untouched _ _)).
Qed.

Lemma strip_prefix_last (pre : path) : forall (p : path) x rel,
  strip_prefix pre p = Some (x :: rel) ->
  List.last p EmptyString = List.last (x :: rel) EmptyString.
Proof.
  induction pre as [|a pre IH]; intros p x rel; cbn [strip_prefix].
  - now intros [= ->].
  - destruct p as [|b l]; [discriminate|].
    destruct (String.eqb a b); [|discriminate]. intros H.
    rewrite <- (IH _ _ _ H). destruct l as [|y l]; [|reflexivity].
    destruct pre; discriminate.
Qed.

(** Mapping a listed file can only fail in [mkdir]: [relative_to] and
    [with_suffix] return. *)
Lemma mirrored_output_raises (p : path) (input_dir output_dir sfx : string)
    w e w' :
  is_below (Path input_dir) p = true ->
  name p <> EmptyString ->
  mirrored_output p input_dir output_dir sfx w = (Raise e, w') ->
  raised_by_system e.
Proof.
  unfold is_below, mirrored_output, bind, lift, relative_to, with_suffix.
  intros Hb Hn.
  destruct (strip_prefix (Path input_dir) p) as [[|x rel]|] eqn:Hs;
    try discriminate.
  assert (Hname : name (x :: rel) = name p)
    by (unfold name; now rewrite (strip_prefix_last _ _ _ _ Hs)).
  rewrite Hname.
  replace (name p =? "")%string with false
    by (symmetry; now apply String.eqb_neq).
  destruct (mkdir_parents _ w) as [[[]|e1] w1] eqn:Hm; [discriminate|].
  intros [= <- _]. right. left. eauto.
Qed.

Lemma conversion_tasks_raises (input_dir output_dir : string)
    (files : list path) : forall tasks w e w',
  Forall (fun p => is_below (Path input_dir) p = true
                   /\ name p <> EmptyString) files ->
  conversion_tasks files input_dir output_dir tasks w = (Raise e, w') ->
  raised_by_system e.
Proof.
  induction files as [|f files IH]; intros tasks w e w' Hall;
    [discriminate|].
  apply Forall_cons in Hall as [[Hb Hn] Hall]. simpl. unfold bind.
  destruct (mirrored_output f input_dir output_dir ".png" w)
    as [[out|e1] w1] eqn:Hm.
  - now apply IH.
  - intros [= <- _]. exact (mirrored_output_raises _ _ _ _ _ _ _ Hb Hn Hm).
Qed.

Lemma process_conversion_raises (input_dir output_dir : string)
    (files : list path) (func : string -> string -> M bool) mw w e w' :
  Forall (fun p => is_below (Path input_dir) p = true
                   /\ name p <> EmptyString) files ->
  0 < mw -> total func ->
  process_conversion schedule_conversion files input_dir output_dir func mw w
    = (Raise e, w') ->
  raised_by_system e.
Proof.
  intros Hall Hmw Hf. unfold process_conversion, bind at 1.
  destruct (conversion_tasks files input_dir output_dir [] w)
    as [[tasks|e1] w1] eqn:Ht.
  - unfold bind at 1, conversion_pool, ThreadPoolExecutor, bind, submit_all.
    replace (mw <=? 0) with false by (symmetry; apply Z.leb_gt; lia).
    cbn [ret].
    destruct (run_futures_total func Hf (schedule_conversion tasks) w1)
      as (oks & w2 & -> & _).
    rewrite conversion_results_count. discriminate.
  - intros [= <- _]. exact (conversion_tasks_raises _ _ _ _ _ _ _ Hall Ht).
Qed.

Lemma optimization_tasks_raises (input_dir output_dir : string)
    (png_files : list path) : forall tasks t w e w',
  Forall (fun p => is_below (Path input_dir) p = true
                   /\ name p <> EmptyString) png_files ->
  optimization_tasks png_files input_dir output_dir tasks t w = (Raise e, w')
  -> raised_by_system e.
Proof.
  induction png_files as [|p png_files IH]; intros tasks t w e w' Hall;
    [discriminate|].
  apply Forall_cons in Hall as [[Hb Hn] Hall]. simpl. unfold bind.
  destruct (mirrored_output p input_dir output_dir ".jpg" w)
    as [[out|e1] w1] eqn:Hm.
  - unfold getsize.
    destruct (node_at (fs w1) (Path (str p))) as [[|d]|] eqn:Enode.
    + now apply IH.
    + now apply IH.
    + intros [= <- _]. right. right. exists (str p), w1, w1.
      unfold getsize. now rewrite Enode.
  - intros [= <- _]. exact (mirrored_output_raises _ _ _ _ _ _ _ Hb Hn Hm).
Qed.

Lemma process_optimization_raises (input_dir output_dir : string) mw mx
    w e w' :
  0 < mw ->
  process_optimization schedule_optimization input_dir output_dir mw mx w
    = (Raise e, w') ->
  raised_by_system e.
Proof.
  intros Hmw. unfold process_optimization, bind at 1.
  destruct (glob_rec_spec (Path input_dir) ".png" w) as (l & -> & Hin).
  destruct l as [|p l]; [discriminate|].
  set (png_files := p :: l) in *.
  assert (Hall : Forall (fun p => is_below (Path input_dir) p = true
                                  /\ name p <> EmptyString) png_files).
  { apply Forall_forall. intros q Hq%list_elem_of_In.
    apply Hin in Hq as (_ & Hb & He). split; [exact Hb|].
    intros Hn. rewrite Hn in He. discriminate. }
  unfold bind at 1, print at 1. unfold bind at 1.
  destruct (optimization_tasks png_files input_dir output_dir [] 0%Q _)
    as [[[tasks t]|e1] w1] eqn:Ht.
  - unfold bind at 1, optimization_pool, ThreadPoolExecutor, bind, submit_all.
    replace (mw <=? 0) with false by (symmetry; apply Z.leb_gt; lia).
    cbn [ret].
    destruct (run_futures_total _ (optimize_png_total mx)
                (schedule_optimization tasks) w1) as (rs & w2 & -> & _).
    rewrite optimization_results_count. discriminate.
  - intros [= <- _]. exact (optimization_tasks_raises _ _ _ _ _ _ _ _ Hall Ht).
Qed.

(** After the confirmation the script never calls [sys.exit], and what
    escapes from the two stages was raised by [Path.exists], [mkdir] or
    [getsize]. *)
Lemma run_stages_escapes (ctype : string) (files : list path)
    (input_dir output_dir : string) c stdin w :
  0 < c ->
  Forall (fun p => is_below (Path input_dir) p = true
                   /\ name p <> EmptyString) files ->
  match ending (run_stages schedule_conversion schedule_optimization
                  ctype files input_dir output_dir c stdin w) with
  | inl _ | inr EOFError => True
  | inr SystemExit => False
  | inr (Uncaught e) => raised_by_system e
  end.
Proof.
  intros Hc Hall. unfold run_stages, and_then at 1, call at 1.
  set (func := if String.eqb ctype "HEIC" then convert_heic_to_png
               else convert_cr2_to_png).
  assert (Hf : total func)
    by (unfold func; destruct (String.eqb ctype "HEIC");
        [apply convert_heic_to_png_total | apply convert_cr2_to_png_total]).
  destruct (process_conversion schedule_conversion files input_dir output_dir
              func c w) as [[counts|e] w1] eqn:Hp.
  2: { exact (process_conversion_raises _ _ _ _ _ _ _ _ Hall Hc Hf Hp). }
  unfold and_then at 1, input at 1.
  destruct stdin as [|optimize_choice stdin1]; [exact I|].
  destruct (String.eqb (upper optimize_choice) "S"); [|exact I].
  unfold optimize_converted, and_then at 1.
  destruct (ask_destination_spec
              "Caminho de destino para otimização (JPEG): " stdin1
              (emit (String "010"
                        "Deseja otimizar as imagens convertidas? (S/N): ") w1))
    as [_ He].
  destruct (ask_destination _ stdin1 _) as [[[output_dir_opt|s] stdin2] w2];
    cbn [ending fst] in He.
  2: { destruct s as [| |e]; [destruct He | exact I | left; exact He]. }
  unfold and_then at 1.
  assert (Hmax : exists mb stdin3 w3, ask_max_mb stdin2 w2 = (inl mb, stdin3, w3)).
  { unfold ask_max_mb, input. destruct stdin2 as [|val stdin3]; [eauto|].
    destruct (String.eqb (strip val) ""); [eauto|].
    destruct (int_of_str val); eauto. }
  destruct Hmax as (mb & stdin3 & w3 & ->).
  unfold and_then, call.
  destruct (process_optimization schedule_optimization output_dir
              output_dir_opt c (inject_Z mb) w3) as [[totals|e] w4] eqn:Ho.
  - exact I.
  - exact (process_optimization_raises _ _ _ _ _ _ _ Hc Ho).
Qed.

(** X14: on a machine with one thread there is no thread option, so no
    answer is accepted and the script never converts: whatever is typed,
    the run does not reach its end but stops at a prompt (at [sys.exit],
    at the end of the input or at an error that [Path.exists] raises),
    with the file system as it was and the encoder never called. *)
Theorem single_core_machine_never_converts stdin w :
  cpu_count = Some 1 ->
  stopped_at_prompt
    (ending (main schedule_conversion schedule_optimization stdin w))
  /\ untouched w (final (main schedule_conversion schedule_optimization
                           stdin w)).
Proof.
  intros Hcpu.
  destruct (main_before stdin w)
    as [[Hu He] | (ctype & input_dir & output_dir & files & c & stdin1 & w1
                   & _ & Hopt & _)].
  - split; [exact He | exact Hu].
  - exfalso. apply range_even in Hopt as [Hb _].
    unfold cpu_threads in Hb. rewrite Hcpu in Hb. simpl in Hb. lia.
Qed.

(** X15: a run that ends at [sys.exit] (no file of the type found, or no
    [S] at the confirmation) leaves the file system as it was and has not
    called the encoder. *)
Theorem exit_leaves_the_files_alone stdin w :
  ending (main schedule_conversion schedule_optimization stdin w)
    = inr SystemExit ->
  untouched w (final (main schedule_conversion schedule_optimization stdin w)).
Proof.
  destruct (main_before stdin w)
    as [[Hu He] | (ctype & input_dir & output_dir & files & c & stdin1 & w1
                   & _ & Hopt & Hall & ->)].
  - intros _. exact Hu.
  - intros He. apply range_even in Hopt as [Hb _].
    pose proof (run_stages_escapes ctype files input_dir output_dir c stdin1
                  w1 ltac:(lia) Hall) as H.
    rewrite He in H. destruct H.
Qed.


End Interactive.

(** * Further worked examples *)

(** An RGBA image of 6000x4000 reaches the encoder as RGB, 4000x2666; an
    image of 5000x1 gets the new size 4000x0 and does not reach it. *)
Lemma encoder_receives_prepared_image_example :
  Image_open (codec := toy_codec 1) "/pics/big.png" toy_world
    = (Ok (Image "RGBA" (6000, 4000) tt), toy_world)
  /\ (exists k : nat, (1 <= k <= 14)%nat
       /\ saves (snd (optimize_png (codec := toy_codec 1) "/pics/big.png"
                        "/out/big.jpg" 15%Q toy_world))
          = rev (map (fun ql =>
                        SaveEvent "/out/big.jpg" "JPEG" "RGB" (4000, 2666)
                          (Some ql))
                   (ladder 90 k))
            ++ saves toy_world)
  /\ Image_open (codec := toy_codec 1) "/pics/thin.png" thin_world
     = (Ok (Image "RGB" (5000, 1) tt), thin_world)
  /\ new_size 5000 1 thin_world = (Ok (Some (4000, 0)), thin_world)
  /\ optimize_png (codec := toy_codec 1) "/pics/thin.png" "/out/thin.jpg"
       15%Q thin_world
     = (Ok (false, 0%Q),
        mkWorld (fs thin_world)
          (stdout thin_world
           ++ ["Erro ao otimizar /pics/thin.png: height and width must be > 0"
              ]%string)
          (saves thin_world)).
Proof.
  assert (Hbig : Image_open (codec := toy_codec 1) "/pics/big.png" toy_world
                 = (Ok (Image "RGBA" (6000, 4000) tt), toy_world))
    by reflexivity.
  assert (Hsize : new_size 6000 4000 toy_world
                  = (Ok (Some (4000, 2666)), toy_world))
    by (vm_compute; reflexivity).
  assert (Hthin : Image_open (codec := toy_codec 1) "/pics/thin.png"
                    thin_world
                  = (Ok (Image "RGB" (5000, 1) tt), thin_world))
    by reflexivity.
  assert (Hzero : new_size 5000 1 thin_world
                  = (Ok (Some (4000, 0)), thin_world))
    by (vm_compute; reflexivity).
  split; [exact Hbig|]. split.
  - apply (proj1 (encoder_receives_prepared_image (codec := toy_codec 1)
                    "/pics/big.png" "/out/big.jpg" 15%Q toy_world
                    (Image "RGBA" (6000, 4000) tt) (Some (4000, 2666))
                    Hbig Hsize)).
    intros sz [= <-]. eexists. reflexivity.
  - split; [exact Hthin|]. split; [exact Hzero|].
    apply (proj2 (encoder_receives_prepared_image (codec := toy_codec 1)
                    "/pics/thin.png" "/out/thin.jpg" 15%Q thin_world
                    (Image "RGB" (5000, 1) tt) (Some (4000, 0))
                    Hthin Hzero) (4000, 0) eq_refl).
    right. simpl. lia.
Defined.

(** Three conversions in reverse order: the lines on standard output grow
    by the number of failures. *)
Lemma failures_are_reported_once_example :
  exists success fail w',
    conversion_pool (@rev task) toy_tasks
      (convert_heic_to_png (codec := toy_codec 1)) 2 toy_world
      = (Ok (success, fail), w')
    /\ Z.of_nat (length (stdout w'))
       = Z.of_nat (length (stdout toy_world)) + fail.
Proof.
  destruct (conversion_pool_counts (@rev task) (@Permutation_rev task)
              toy_tasks (convert_heic_to_png (codec := toy_codec 1)) 2
              toy_world ltac:(lia) convert_heic_to_png_total)
    as (oks & w' & _ & Hrun & _).
  exists (succeeded oks), (failed oks), w'. split; [exact Hrun|].
  exact (failures_are_reported_once (codec := toy_codec 1) (@rev task)
           (@Permutation_rev task) toy_tasks _ 2 toy_world _ _ w'
           (or_introl eq_refl) Hrun).
Defined.

(** With a limit of 0 MB the search of the toy encoder ends at quality 25
    after 14 attempts, and still reports success. *)
Lemma success_above_limit_only_at_floor_example :
  writable toy_world "/out/a.jpg" = true
  /\ exists ql' w',
       save_loop (codec := toy_codec 1) toy_image "/out/a.jpg" 0%Q 90
         toy_world
       = (Ok (true, megabytes (Z.of_nat (length (blob (1 * ql'))))), w')
       /\ (~ (megabytes (Z.of_nat (length (blob (1 * ql')))) <= 0)%Q ->
           ql' = 25 /\ encode_attempts toy_world w' = 14%nat).
Proof.
  split; [reflexivity|].
  exact (success_above_limit_only_at_floor (codec := toy_codec 1) toy_image
           "/out/a.jpg" 0%Q toy_world (fun q => blob (1 * q)) eq_refl
           (fun q => eq_refl)).
Defined.

(** A pool of no workers: the directories are made, then the constructor
    of the pool raises. *)
Lemma process_conversion_stops_before_the_pool_example :
  0 <= 0
  /\ exists e w',
       process_conversion (@rev task) [Path "/in/e.heic"] "/in" "/out"
         (convert_heic_to_png (codec := toy_codec 1)) 0 toy_world
       = (Raise e, w')
       /\ extends_dirs toy_world w'
       /\ (forall tasks w1,
             conversion_tasks [Path "/in/e.heic"] "/in" "/out" [] toy_world
               = (Ok tasks, w1) ->
             e = ValueError "max_workers must be greater than 0" /\ w' = w1).
Proof.
  assert (Hmw : 0 <= 0) by lia. split; [exact Hmw|].
  exact (process_conversion_stops_before_the_pool (@rev task)
           [Path "/in/e.heic"] "/in" "/out"
           (convert_heic_to_png (codec := toy_codec 1)) 0 toy_world
           (or_introl Hmw)).
Defined.

(** Two futures that complete in either order. *)
Lemma aggregation_ignores_completion_order_example :
  conversion_results (map Ok [true; false]) 0 0 empty_world
    = conversion_results (map Ok [false; true]) 0 0 empty_world
  /\ exists success fail t t',
       optimization_results (map Ok [(true, 1%Q); (false, 0%Q)]) 0 0 0%Q
         empty_world = (Ok (success, fail, t), empty_world)
       /\ optimization_results (map Ok [(false, 0%Q); (true, 1%Q)]) 0 0 0%Q
            empty_world = (Ok (success, fail, t'), empty_world)
       /\ (t == t')%Q.
Proof.
  exact (aggregation_ignores_completion_order [true; false] [false; true]
           [(true, 1%Q); (false, 0%Q)] [(false, 0%Q); (true, 1%Q)]
           empty_world (perm_swap _ _ _) (perm_swap _ _ _)).
Defined.



(** On a machine with four threads the answers [x] and [3] are refused and
    [4] is accepted. *)
Lemma accepted_thread_count_is_an_even_option_example :
  ending (ask_threads (builtins := toy_builtins (Some 4))
            ["x"; "3"; "4"]%string empty_world) = inl 4
  /\ 2 <= 4 <= cpu_threads (builtins := toy_builtins (Some 4))
  /\ Z.even 4 = true
  /\ (exists line, In line ["x"; "3"; "4"]%string
                   /\ int_of_str (Builtins := toy_builtins (Some 4)) line
                      = Some 4)
  /\ untouched empty_world
       (final (ask_threads (builtins := toy_builtins (Some 4))
                 ["x"; "3"; "4"]%string empty_world)).
Proof.
  assert (H : ending (ask_threads (builtins := toy_builtins (Some 4))
                        ["x"; "3"; "4"]%string empty_world) = inl 4)
    by (vm_compute; reflexivity).
  split; [exact H|].
  exact (accepted_thread_count_is_an_even_option
           (builtins := toy_builtins (Some 4)) ["x"; "3"; "4"]%string
           empty_world 4 H).
Defined.

(** On a machine with one thread the answers that would start a
    conversion elsewhere only use up the input. *)
Lemma single_core_machine_never_converts_example :
  cpu_count (Builtins := toy_builtins (Some 1)) = Some 1
  /\ stopped_at_prompt (builtins := toy_builtins (Some 1))
       (ending (main (codec := toy_codec 1)
                  (builtins := toy_builtins (Some 1))
                  (@rev task) (@rev task)
                  ["heic"; "/in"; "/out"; "2"; "s"]%string toy_world))
  /\ untouched toy_world
       (final (main (codec := toy_codec 1)
                 (builtins := toy_builtins (Some 1)) (@rev task) (@rev task)
                 ["heic"; "/in"; "/out"; "2"; "s"]%string toy_world)).
Proof.
  split; [reflexivity|].
  exact (single_core_machine_never_converts (codec := toy_codec 1)
           (builtins := toy_builtins (Some 1)) (@rev task) (@rev task)
           ["heic"; "/in"; "/out"; "2"; "s"]%string toy_world eq_refl).
Defined.

(** The answer [n] at the confirmation ends the run. *)
Lemma exit_leaves_the_files_alone_example :
  ending (main (codec := toy_codec 1) (builtins := toy_builtins (Some 4))
            (@rev task) (@rev task)
            ["heic"; "/in"; "/out"; "2"; "n"]%string toy_world)
    = inr SystemExit
  /\ untouched toy_world
       (final (main (codec := toy_codec 1)
                 (builtins := toy_builtins (Some 4)) (@rev task) (@rev task)
                 ["heic"; "/in"; "/out"; "2"; "n"]%string toy_world)).
Proof.
  assert (H : ending (main (codec := toy_codec 1)
                        (builtins := toy_builtins (Some 4))
                        (@rev task) (@rev task)
                        ["heic"; "/in"; "/out"; "2"; "n"]%string toy_world)
              = inr SystemExit) by (vm_compute; reflexivity).
  split; [exact H|].
  exact (exit_leaves_the_files_alone (codec := toy_codec 1)
           (builtins := toy_builtins (Some 4)) (@rev task) (@rev task)
           ["heic"; "/in"; "/out"; "2"; "n"]%string toy_world H).
Defined.


(** [/in/a.heic] and [/in/a.HEIC] both go to [/out/a.png]. *)
Lemma names_that_differ_in_the_extension_collide_example :
  exists out w1,
    mirrored_output (Path "/in" ++ [] ++ ["a" +:+ String dot "heic"]%string)
      "/in" "/out" ".png" toy_world = (Ok out, w1)
    /\ mirrored_output (Path "/in" ++ [] ++ ["a" +:+ String dot "HEIC"]%string)
         "/in" "/out" ".png" w1 = (Ok out, w1)
    /\ out = Path "/out" ++ [] ++ [("a" +:+ ".png")%string].
Proof.
  destruct (mirrored_output
              (Path "/in" ++ [] ++ ["a" +:+ String dot "heic"]%string)
              "/in" "/out" ".png" toy_world) as [[out|e] w1] eqn:Hm.
  - exists out, w1. split; [reflexivity|].
    apply (names_that_differ_in_the_extension_collide "/in" "/out" ".png" []
             "a" "heic" "HEIC" toy_world out w1); try discriminate;
      try reflexivity.
    exact Hm.
  - exfalso. revert Hm. vm_compute. discriminate.
Defined.

(** C8 on three files, the second of which is corrupt. *)
Lemma transform_failures_are_counted_example :
  0 < 2
  /\ independent toy_tasks
  /\ @corrupt_image unit (toy_codec 1) toy_world
       ("/in/f.heic", "/out/f.png")%string
  /\ alone (convert_heic_to_png (codec := toy_codec 1)) toy_world
       ("/in/f.heic", "/out/f.png")%string = Ok false
  /\ exists w',
       conversion_pool (@rev task) toy_tasks
         (convert_heic_to_png (codec := toy_codec 1)) 2 toy_world
       = (Ok (2, 1), w')
       /\ holds w' "/out/e.png" (blob 7)
       /\ holds w' "/out/sub_d.png" (blob 7).
Proof.
  assert (Hmw : 0 < 2) by lia.
  assert (Hind : independent toy_tasks).
  { split.
    - repeat constructor; simpl; intros H;
        repeat (destruct H as [H|H]; [discriminate H|]); exact H.
    - intros t t' Ht Ht' Hne Hin. simpl in Ht, Ht'.
      destruct Ht as [<-|[<-|[<-|[]]]];
        destruct Ht' as [<-|[<-|[<-|[]]]];
        try (now apply Hne);
        vm_compute in Hin;
        repeat (destruct Hin as [Hin|Hin]; [discriminate Hin|]);
        exact Hin. }
  assert (Hbad : @corrupt_image unit (toy_codec 1) toy_world
                   ("/in/f.heic", "/out/f.png")%string).
  { exists [], (OSError "cannot identify image file").
    split; [vm_compute|]; reflexivity. }
  assert (Hgood : forall t, In t toy_tasks ->
                    t <> ("/in/f.heic", "/out/f.png")%string ->
                    @valid_heic unit (toy_codec 1) toy_world t).
  { intros t Ht Hne. simpl in Ht.
    destruct Ht as [<-|[<-|[<-|[]]]]; try (now elim Hne);
      exists (blob 5), (Image "RGB" (640, 480) tt), (blob 7);
      (split; [vm_compute; reflexivity|]);
      (split; [reflexivity|]); (split; [reflexivity|]);
      vm_compute; reflexivity. }
  destruct (transform_failures_are_counted (codec := toy_codec 1) (@rev task)
              (@Permutation_rev task) toy_tasks 2 15%Q toy_world Hmw Hind)
    as (_ & _ & Hfails & _ & _ & Hcount).
  split; [exact Hmw|]. split; [exact Hind|]. split; [exact Hbad|].
  split; [exact (proj1 (proj1 (Hfails _) Hbad))|].
  destruct (Hcount ("/in/f.heic", "/out/f.png")%string)
    as ((w' & Hpool & Hout) & _);
    [simpl; tauto | exact Hbad | exact Hgood |].
  exists w'. split; [exact Hpool|]. split.
  - destruct (Hout ("/in/e.heic", "/out/e.png")%string)
      as (d & img & d' & _ & _ & He & Hh);
      [simpl; tauto | discriminate |].
    simpl in He. injection He as <-. exact Hh.
  - destruct (Hout ("/in/sub/d.HEIC", "/out/sub_d.png")%string)
      as (d & img & d' & _ & _ & He & Hh);
      [simpl; tauto | discriminate |].
    simpl in He. injection He as <-. exact Hh.
Defined.
